(** * x4_get_data: the localization resolver and the record extractors

    A shallow embedding of [get_factions_info.py], [get_ships_info.py],
    [map_get_names.py] and [wares_convert.py], and the properties of the
    placeholder resolver, the localization loaders, the discovery of the
    files and the extractors that are checked against it.

    Conventions of the embedding.
    - A Python [str] is a [string]; its characters are the code points
      0..255, for which [\d] is [0-9] and the white space of [\s],
      [str.strip()] and [str.split()] is the set given by [is_space].
    - A [dict] with string keys is a [gmap string _]; [d.get(k, dflt)] is
      [default dflt (d !! k)].
    - [logging] calls append to a log held in the store of the resolver.
    - A [float] is an IEEE 754 binary64 number, with the operations of
      [SpecFloat] for precision 53 and maximal exponent 1024.
    - An exception that the source catches is an [option] or an outcome;
      the source line that catches it is named at the definition.
    - [int()] raises [ValueError] on a numeral of more than 4300 digits,
      the limit that CPython (3.11 and later) puts on the conversion
      unless [sys.set_int_max_str_digits] changes it; [str()] of the
      numbers that [int()] has given stays below the limit. *)

From Stdlib Require Import ZArith Ascii String List Lia DecimalString SpecFloat Sorted.
From Stdlib Require Decimal DecimalPos DecimalZ.
From stdpp Require Import base option list gmap strings.

Local Open Scope string_scope.

(** ** Python strings *)

Module Py.

Definition code (c : ascii) : nat := nat_of_ascii c.

(** [\d] and [c.isdecimal()] below code point 256. *)
Definition is_digit (c : ascii) : bool :=
  (48 <=? code c)%nat && (code c <=? 57)%nat.

(** [\s] and [c.isspace()] below code point 256: TAB, LF, VT, FF, CR,
    FS, GS, RS, US, SPACE, NEL and NBSP. *)
Definition is_space (c : ascii) : bool :=
  let n := code c in
  ((9 <=? n)%nat && (n <=? 13)%nat) || ((28 <=? n)%nat && (n <=? 32)%nat)
  || (n =? 133)%nat || (n =? 160)%nat.

(** The longest prefix whose characters satisfy [p], and what follows. *)
Fixpoint span (p : ascii -> bool) (s : string) : string * string :=
  match s with
  | String c s' =>
      if p c then let '(a, b) := span p s' in (String c a, b) else ("", s)
  | EmptyString => ("", "")
  end.

Definition lstrip_with (p : ascii -> bool) (s : string) : string :=
  snd (span p s).

Fixpoint rstrip_with (p : ascii -> bool) (s : string) : string :=
  match s with
  | String c s' =>
      match rstrip_with p s' with
      | EmptyString => if p c then "" else String c ""
      | r => String c r
      end
  | EmptyString => ""
  end.

(** [s.strip()] *)
Definition strip (s : string) : string :=
  rstrip_with is_space (lstrip_with is_space s).

Definition mem_char (chars : string) (c : ascii) : bool :=
  existsb (Ascii.eqb c) (list_ascii_of_string chars).

(** [s.strip(chars)] *)
Definition strip_chars (chars s : string) : string :=
  rstrip_with (mem_char chars) (lstrip_with (mem_char chars) s).

(** [s.split(sep)] for a separator of one character: never empty. *)
Fixpoint split (sep : ascii) (s : string) : list string :=
  match s with
  | String c s' =>
      if Ascii.eqb c sep then "" :: split sep s'
      else match split sep s' with
           | w :: ws => String c w :: ws
           | [] => [String c ""]
           end
  | EmptyString => [""]
  end.

(** [s.split()]: the maximal runs of characters that are not white
    space. *)
Fixpoint split_ws_go (cur : option string) (s : string) : list string :=
  match s with
  | String c s' =>
      if is_space c
      then match cur with
           | Some w => String.rev w :: split_ws_go None s'
           | None => split_ws_go None s'
           end
      else split_ws_go (Some (String c (default "" cur))) s'
  | EmptyString =>
      match cur with Some w => [String.rev w] | None => [] end
  end.

Definition split_ws : string -> list string := split_ws_go None.

(** The value of a string of decimal digits, most significant first. *)
Fixpoint digits_value (acc : Z) (s : string) : Z :=
  match s with
  | String c s' => digits_value (10 * acc + Z.of_nat (code c - 48)) s'
  | EmptyString => acc
  end.

(** [str(n)] for an [int]. *)
Definition str_of_int (n : Z) : string :=
  DecimalString.NilZero.string_of_int (Z.to_int n).

(** The body of an integer literal accepted by [int()]: decimal digits,
    with single underscores allowed between two digits. *)
Fixpoint int_body (after_digit : bool) (s : string) : bool :=
  match s with
  | String c s' =>
      if is_digit c then int_body true s'
      else if Ascii.eqb c "_" then after_digit && int_body false s'
      else false
  | EmptyString => after_digit
  end.

Fixpoint filter_chars (p : ascii -> bool) (s : string) : string :=
  match s with
  | String c s' => if p c then String c (filter_chars p s') else filter_chars p s'
  | EmptyString => ""
  end.

(** The padding that [int()] skips around a literal: TAB, LF, VT, FF,
    CR, SPACE, NEL and NBSP (not FS, GS, RS, US). *)
Definition is_int_space (c : ascii) : bool :=
  let n := code c in
  ((9 <=? n)%nat && (n <=? 13)%nat) || (n =? 32)%nat
  || (n =? 133)%nat || (n =? 160)%nat.

(** [sys.get_int_max_str_digits()]: the most digits that [int()] takes. *)
Definition max_str_digits : nat := 4300.

(** [int(s)]; [None] stands for [ValueError], which a malformed literal
    raises and also a literal of more than [max_str_digits] digits
    (leading zeros counted, underscores not). *)
Definition int (s : string) : option Z :=
  let s1 := rstrip_with is_int_space (lstrip_with is_int_space s) in
  let '(sign, body) :=
    match s1 with
    | String "+" r => (1%Z, r)
    | String "-" r => ((-1)%Z, r)
    | _ => (1%Z, s1)
    end in
  if int_body false body
  then
    let digits := filter_chars is_digit body in
    if (String.length digits <=? max_str_digits)%nat
    then Some (sign * digits_value 0 digits)%Z
    else None
  else None.

End Py.

(** ** The regular expressions of the source *)

Module Re.

(** A match found at the start of the scanned text: [group(0)] and the
    capture groups. *)
Record rmatch (G : Type) : Type := Match { group0 : string; groups : G }.
Arguments Match {G} _ _.
Arguments group0 {G} _.
Arguments groups {G} _.

Definition pattern (G : Type) : Type := string -> option (rmatch G).

(** [\{(\d+),(\d+)\}] *)
Definition placeholder : pattern (string * string) := fun s =>
  match s with
  | String "{" s1 =>
      let '(page_id, s2) := Py.span Py.is_digit s1 in
      match page_id, s2 with
      | String _ _, String "," s3 =>
          let '(t_id, s4) := Py.span Py.is_digit s3 in
          match t_id, s4 with
          | String _ _, String "}" _ =>
              Some (Match ("{" ++ page_id ++ "," ++ t_id ++ "}") (page_id, t_id))
          | _, _ => None
          end
      | _, _ => None
      end
  | _ => None
  end.

(** [\s*\([^)]*\)] *)
Definition annotation : pattern unit := fun s =>
  let '(ws, s1) := Py.span Py.is_space s in
  match s1 with
  | String "(" s2 =>
      let '(body, s3) := Py.span (fun c => negb (Ascii.eqb c ")")) s2 in
      match s3 with
      | String ")" _ => Some (Match (ws ++ "(" ++ body ++ ")") tt)
      | _ => None
      end
  | _ => None
  end.

(** [\d+] *)
Definition digits : pattern unit := fun s =>
  match fst (Py.span Py.is_digit s) with
  | EmptyString => None
  | d => Some (Match d tt)
  end.

(** The scan shared by [sub] and [findall]: the text cut from left to
    right into the matches that do not overlap and the characters between
    them. After a match the scan resumes behind it ([skip] counts the
    characters of the match still to pass). No pattern above matches the
    empty string. *)
Inductive segment (G : Type) : Type :=
| Lit (c : ascii)
| Hit (m : rmatch G).
Arguments Lit {G} _.
Arguments Hit {G} _.

Fixpoint scan {G} (pat : pattern G) (skip : nat) (s : string) : list (segment G) :=
  match s with
  | String c s' =>
      match skip with
      | S k => scan pat k s'
      | O =>
          match pat s with
          | Some m => Hit m :: scan pat (String.length (group0 m) - 1) s'
          | None => Lit c :: scan pat 0 s'
          end
      end
  | EmptyString => []
  end.

Definition finditer {G} (pat : pattern G) (s : string) : list (segment G) :=
  scan pat 0 s.

(** [re.findall(pat, s)] for a pattern without groups. *)
Definition findall {G} (pat : pattern G) (s : string) : list string :=
  omap (fun seg => match seg with Hit m => Some (group0 m) | Lit _ => None end)
       (finditer pat s).

(** [re.sub(pat, repl, s)] for a replacement string without escapes. *)
Definition sub_str {G} (pat : pattern G) (repl : string) (s : string) : string :=
  fold_right (fun seg out =>
                match seg with
                | Lit c => String c out
                | Hit _ => repl ++ out
                end) "" (finditer pat s).

(** Some position of the text starts a match. *)
Fixpoint search {G} (pat : pattern G) (s : string) : bool :=
  match s with
  | String _ s' => bool_decide (is_Some (pat s)) || search pat s'
  | EmptyString => false
  end.

End Re.

(** ** The placeholder resolver

    [resolve_placeholders] is the same text in [get_factions_info.py]
    (lines 56-106) and [map_get_names.py] (lines 102-152). *)

Inductive level : Type := DEBUG | INFO | WARNING | ERROR.

(** What a call of the resolver can reach: the localization map, the list
    object [processed_keys] that the nested calls share, and the log. *)
Record store : Type := Store {
  name_map : gmap string string;
  processed_keys : list string;
  log : list (level * string)
}.

(** Computations on the store. *)
Definition M (A : Type) : Type := store -> A * store.

#[global] Instance M_ret : MRet M := fun A (a : A) st => (a, st).
#[global] Instance M_bind : MBind M :=
  fun A B (f : A -> M B) (m : M A) st => let '(a, st') := m st in f a st'.

(** [name_map.get(key, dflt)] *)
Definition name_map_get (key dflt : string) : M string :=
  fun st => (default dflt (name_map st !! key), st).

(** [key in processed_keys] *)
Definition key_in_path (key : string) : M bool :=
  fun st => (bool_decide (key ∈ processed_keys st), st).

(** [processed_keys.append(key)] *)
Definition append_key (key : string) : M unit :=
  fun st => (tt, Store (name_map st) (processed_keys st ++ [key])%list (log st)).

(** [processed_keys.pop()]; it runs only behind an [append_key] whose
    effect the nested call has kept, so the list is not empty. *)
Definition pop_key : M unit :=
  fun st => (tt, Store (name_map st) (removelast (processed_keys st)) (log st)).

Definition logger (lvl : level) (msg : string) : M unit :=
  fun st => (tt, Store (name_map st) (processed_keys st) (log st ++ [(lvl, msg)])%list).

(** [pattern.sub(replacer, s)] with a function for the replacement: it is
    called on the matches from left to right. *)
Fixpoint sub_segments {G} (repl : Re.rmatch G -> M string)
    (segs : list (Re.segment G)) : M string :=
  match segs with
  | Re.Lit c :: segs' => out ← sub_segments repl segs'; mret (String c out)
  | Re.Hit m :: segs' =>
      r ← repl m; out ← sub_segments repl segs'; mret (r ++ out)
  | [] => mret ""
  end.

Definition re_sub {G} (pat : Re.pattern G) (repl : Re.rmatch G -> M string)
    (s : string) : M string :=
  sub_segments repl (Re.finditer pat s).

(** The key of a token: [f"{page_id}_{t_id}"] on the matched digits. *)
Definition placeholder_key (page_id t_id : string) : string :=
  page_id ++ "_" ++ t_id.

(** The closure [replacer]; [recur] is the recursive call
    [resolve_placeholders(_, name_map, processed_keys, max_depth - 1)]. *)
Definition replacer (recur : string -> M string)
    (m : Re.rmatch (string * string)) : M string :=
  let '(page_id, t_id) := Re.groups m in
  let key := placeholder_key page_id t_id in
  seen ← key_in_path key;
  if seen : bool then
    logger WARNING ("Circular reference detected for key: " ++ key);;
    mret (Re.group0 m)
  else
    append_key key;;
    replacement ← name_map_get key "Unknown";
    if String.eqb replacement "Unknown" then
      logger WARNING ("Missing localization for key: " ++ key);;
      pop_key;;
      mret "Unknown"
    else
      replacement ← recur replacement;
      pop_key;;
      mret replacement.

(** The loop [for depth in range(max_depth): ... else: ...]: [n] passes
    are left, [depth] have been made. *)
Fixpoint passes (repl : Re.rmatch (string * string) -> M string)
    (text : string) (depth n : nat) (current_text : string) : M string :=
  match n with
  | S n' =>
      new_text ← re_sub Re.placeholder repl current_text;
      if String.eqb new_text current_text then mret current_text
      else
        logger DEBUG ("Depth " ++ Py.str_of_int (Z.of_nat (S depth)) ++ ": "
                      ++ current_text ++ " -> " ++ new_text);;
        passes repl text (S depth) n' new_text
  | O =>
      logger WARNING ("Max recursion depth reached while resolving: " ++ text);;
      mret current_text
  end.

(** [re.sub(r'\s*\([^)]*\)', '', current_text).strip()] *)
Definition strip_parentheticals (current_text : string) : string :=
  Py.strip (Re.sub_str Re.annotation "" current_text).

(** [max_depth] is a [nat]: the callers pass 10, and the recursive call
    passes [max_depth - 1] from inside a pass of [range(max_depth)], when
    [max_depth] is positive. With [max_depth = 0] the loop has no pass and
    [replacer] is not called. *)
Fixpoint resolve_placeholders (max_depth : nat) (text : string) : M string :=
  match max_depth with
  | S d =>
      current_text ← passes (replacer (resolve_placeholders d)) text 0 (S d) text;
      mret (strip_parentheticals current_text)
  | O =>
      logger WARNING ("Max recursion depth reached while resolving: " ++ text);;
      mret (strip_parentheticals text)
  end.

(** A call from an extractor, [resolve_placeholders(text, name_map)]: a new
    [processed_keys] list and [max_depth = 10]. *)
Definition initial_store (m : gmap string string) : store := Store m [] [].

Definition run_resolve (text : string) (m : gmap string string) : string * store :=
  resolve_placeholders 10 text (initial_store m).

Definition resolve (text : string) (m : gmap string string) : string :=
  fst (run_resolve text m).

(** ** XML documents ([xml.etree.ElementTree]) *)

#[local] Set Warnings "-register-all".
Inductive element : Type := Element {
  tag : string;
  attrib : gmap string string;
  text : option string;
  children : list element
}.

(** [elem.iter()]: the element and its descendants in document order. *)
Fixpoint iter (e : element) : list element :=
  e :: (fix iter_all (es : list element) : list element :=
          match es with
          | c :: es' => (iter c ++ iter_all es')%list
          | [] => []
          end) (children e).

Definition has_tag (t : string) (e : element) : bool := String.eqb (tag e) t.

(** [elem.findall('.//t')]: the descendants named [t], the element itself
    left out. *)
Definition findall_desc (t : string) (e : element) : list element :=
  List.filter (has_tag t) (List.tl (iter e)).

(** [elem.find('.//t')] *)
Definition find_desc (t : string) (e : element) : option element :=
  List.hd_error (findall_desc t e).

(** [elem.find('t')]: the first child named [t]. *)
Definition find_child (t : string) (e : element) : option element :=
  List.find (has_tag t) (children e).

(** A value that passes [if v:] for [v] a string or [None]. *)
Definition truthy (v : option string) : option string :=
  match v with
  | Some EmptyString | None => None
  | Some s => Some s
  end.

(** A document handed to an extractor: [None] when [ET.parse] raises. *)
Definition document : Type := option element.

(** ** The localization loaders

    [load_localization] differs between the files only in the value bound
    to a key, the argument [payload] here (applied to [t.text]). *)

Section Loader.
Context {V : Type} (payload : option string -> V).

(** The body of [for t in page.findall('.//t')]. *)
Definition load_t (page_id : string) (name_map : gmap string V) (t : element)
    : gmap string V :=
  match truthy (attrib t !! "id") with
  | Some t_id => <[page_id ++ "_" ++ t_id := payload (text t)]> name_map
  | None => name_map
  end.

(** The body of [for page in root.findall('.//page')]. *)
Definition load_page (name_map : gmap string V) (page : element) : gmap string V :=
  match truthy (attrib page !! "id") with
  | Some page_id => foldl (load_t page_id) name_map (findall_desc "t" page)
  | None => name_map
  end.

(** The [try] block; a document that does not parse gives the empty
    map of the [except] clause. *)
Definition load_localization_with (doc : document) : gmap string V :=
  match doc with
  | Some root => foldl load_page ∅ (findall_desc "page" root)
  | None => ∅
  end.
End Loader.

(** [parse_name_reference], the same text in the three files. The [try]
    fails when the split has not two parts or [int] rejects one. *)
Definition parse_name_reference (name_ref : option string) : option string :=
  match truthy name_ref with
  | Some name_ref =>
      match Py.split "," (Py.strip_chars "{}" name_ref) with
      | [a; b] =>
          match Py.int a, Py.int b with
          | Some page_id, Some t_id =>
              Some (Py.str_of_int page_id ++ "_" ++ Py.str_of_int t_id)
          | _, _ => None
          end
      | _ => None
      end
  | None => None
  end.

(** ** [get_factions_info.py] *)

Module Factions.

(** [name_map[key] = t.text if t.text else ''] *)
Definition payload (t_text : option string) : string := default "" t_text.

Definition load_localization : document -> gmap string string :=
  load_localization_with payload.

End Factions.

(** ** [map_get_names.py] *)

Module MapNames.

(** [name_map[key] = t.text.strip() if t.text else ''] *)
Definition payload (t_text : option string) : string :=
  match truthy t_text with
  | Some s => Py.strip s
  | None => ""
  end.

Definition load_localization : document -> gmap string string :=
  load_localization_with payload.

(** [int(d)] on a run of digits found by [\d+]; [None] stands for the
    [ValueError] of a run of more than [Py.max_str_digits] digits. *)
Definition int_of_digits (d : string) : option Z :=
  if (String.length d <=? Py.max_str_digits)%nat
  then Some (Py.digits_value 0 d)
  else None.

(** [extract_cluster_sector]; [None] when one of its calls of [int()]
    raises. *)
Definition extract_cluster_sector (macro : string) : option (Z * Z * string) :=
  match Re.findall Re.digits macro with
  | n0 :: n1 :: _ =>
      cluster_id ← int_of_digits n0;
      sector_id ← int_of_digits n1;
      Some (cluster_id, sector_id, "sector")
  | [n0] =>
      cluster_id ← int_of_digits n0;
      Some (cluster_id, 0%Z, "cluster")
  | [] => Some (0%Z, 0%Z, "unknown")
  end.

(** The tuple [row_data]. *)
Record row : Type := Row {
  cluster_id : Z;
  sector_id : Z;
  entry_type : string;
  macro : string;
  name : string;
  source : string
}.

(** [list.sort(key=...)]: a stable sort. [key_leb] compares the key
    tuples [(x[0], x[1])]. *)
Definition sort_key (r : row) : Z * Z := (cluster_id r, sector_id r).

Definition key_leb (a b : Z * Z) : bool :=
  (fst a <? fst b)%Z || ((fst a =? fst b)%Z && (snd a <=? snd b)%Z).

Fixpoint insert_row (x : row) (rows : list row) : list row :=
  match rows with
  | y :: rows' =>
      if key_leb (sort_key x) (sort_key y) then x :: rows
      else y :: insert_row x rows'
  | [] => [x]
  end.

Definition sort_rows (rows : list row) : list row :=
  fold_right insert_row [] rows.

(** What the body of the loop over the datasets does: nothing, a row
    appended, or an exception. The [except Exception] of the [try]
    around the file (line 206) catches it: the rows appended so far
    stay, the rest of the file is passed over. *)
Inductive step : Type :=
| Skip
| Emit (r : row)
| Raise.

(** The rows appended by the loop over the datasets of one file. *)
Fixpoint run_steps (steps : list step) : list row :=
  match steps with
  | Skip :: steps' => run_steps steps'
  | Emit r :: steps' => r :: run_steps steps'
  | Raise :: _ => []
  | [] => []
  end.

Section Extractor.
(** The exclusion patterns, each as the test [re.match(pattern, _)] of a
    regular expression that compiles. *)
Variable exclude_patterns : list (string -> bool).
Variable name_map : gmap string string.

(** The body of [for dataset in root.findall('.//dataset')]: [Skip]
    where the body leaves by [continue] or appends nothing, [Raise]
    where [extract_cluster_sector] raises. *)
Definition process_dataset (source : string) (dataset : element) : step :=
  match truthy (attrib dataset !! "macro") with
  | Some macro =>
      let macro := Py.strip macro in
      if existsb (fun matches => matches macro) exclude_patterns then Skip
      else
        match extract_cluster_sector macro with
        | Some (cluster_id, sector_id, entry_type) =>
            match find_desc "identification" dataset with
            | Some identification =>
                match truthy (attrib identification !! "name") with
                | Some name_attr =>
                    let name_attr := Py.strip name_attr in
                    let name :=
                      match parse_name_reference (Some name_attr) with
                      | Some name_ref =>
                          resolve (default "Unknown" (name_map !! name_ref)) name_map
                      | None => "Unknown"
                      end in
                    Emit (Row cluster_id sector_id entry_type macro name source)
                | None => Skip
                end
            | None => Skip
            end
        | None => Raise
        end
  | None => Skip
  end.

(** The rows one file adds: none for a file that does not parse, and the
    rows appended before the exception for a file whose loop raises. *)
Definition process_file (file : string * document) : list row :=
  match snd file with
  | Some root => run_steps (process_dataset (fst file) <$> findall_desc "dataset" root)
  | None => []
  end.

(** [all_rows] when the CSV is written; the output folder exists or is
    created (the function returns before the loop otherwise). *)
Definition process_mapdefaults (mapdefaults_files : list (string * document))
    : list row :=
  sort_rows (mapdefaults_files ≫= process_file).

(** The lines written behind the header. *)
Definition csv_line (r : row) : list string :=
  [macro r; name r; source r; entry_type r].

Definition mapdefaults_csv (mapdefaults_files : list (string * document))
    : list (list string) :=
  csv_line <$> process_mapdefaults mapdefaults_files.
End Extractor.

(** [re.match] with [^prefix]. *)
Definition starts_with (prefix s : string) : bool := String.prefix prefix s.

Definition DEFAULT_EXCLUDE_PATTERNS : list (string -> bool) :=
  [starts_with "timelines_map_"; starts_with "demo_"].

End MapNames.

(** ** [wares_convert.py] *)

Module Wares.

(** [name_map[key] = t.text]: a payload that is absent is bound as
    [None]. *)
Definition payload (t_text : option string) : option string := t_text.

Definition load_localization : document -> gmap string (option string) :=
  load_localization_with payload.

(** A Python [float] is an IEEE 754 binary64 number. *)
Definition prec : Z := 53.
Definition emax : Z := 1024.
Definition float : Type := spec_float.

Definition fadd : float -> float -> float := SFadd prec emax.
Definition fsub : float -> float -> float := SFsub prec emax.
Definition fmul : float -> float -> float := SFmul prec emax.
Definition fdiv : float -> float -> float := SFdiv prec emax.
Definition flt : float -> float -> bool := SFltb.

(** The float nearest to an integer, and the literals of the source:
    [2], and [0.30], [0.50], [0.70] as the floats nearest to 3/10, 1/2
    and 7/10. *)
Definition float_of_Z (n : Z) : float := binary_normalize prec emax n 0 false.
Definition two : float := float_of_Z 2.
Definition lit_0_30 : float := fdiv (float_of_Z 3) (float_of_Z 10).
Definition lit_0_50 : float := fdiv (float_of_Z 1) (float_of_Z 2).
Definition lit_0_70 : float := fdiv (float_of_Z 7) (float_of_Z 10).

(** The closure [bound_price]. *)
Definition bound_price (min_price max_price price : float) : float :=
  if flt price min_price then min_price
  else if flt max_price price then max_price
  else price.

(** The dict [ranges]. *)
Record ranges : Type := Ranges {
  avg : float;
  r30_min : float; r30_max : float;
  r50_min : float; r50_max : float;
  r70_min : float; r70_max : float
}.

(** [calculate_price_ranges] behind the two calls of [float()]. *)
Definition calculate_price_ranges (min_price max_price : float) : ranges :=
  let avg_price := fdiv (fadd min_price max_price) two in
  let half_range := fdiv (fsub max_price min_price) two in
  let bound := bound_price min_price max_price in
  Ranges avg_price
    (bound (fsub avg_price (fmul lit_0_30 half_range)))
    (bound (fadd avg_price (fmul lit_0_30 half_range)))
    (bound (fsub avg_price (fmul lit_0_50 half_range)))
    (bound (fadd avg_price (fmul lit_0_50 half_range)))
    (bound (fsub avg_price (fmul lit_0_70 half_range)))
    (bound (fadd avg_price (fmul lit_0_70 half_range))).

(** The integer nearest to [m * 2^e], a tie going to the even one: the
    rounding of the format [.0f]. *)
Definition round_half_even (m : positive) (e : Z) : Z :=
  match e with
  | Zneg k =>
      let d := Z.pow 2 (Zpos k) in
      let q := (Zpos m / d)%Z in
      let r := (Zpos m mod d)%Z in
      match (2 * r ?= d)%Z with
      | Lt => q
      | Gt => (q + 1)%Z
      | Eq => if Z.even q then q else (q + 1)%Z
      end
  | _ => (Zpos m * Z.pow 2 e)%Z
  end.

(** [f"{x:.0f}"] *)
Definition format_0f (x : float) : string :=
  let sign (s : bool) := if s then "-" else "" in
  match x with
  | S754_zero s => sign s ++ "0"
  | S754_infinity s => sign s ++ "inf"
  | S754_nan => "nan"
  | S754_finite s m e => sign s ++ Py.str_of_int (round_half_even m e)
  end.

Definition VALID_TRANSPORT : list string := ["container"; "liquid"; "solid"].

(** A line of [trade_wares_with_prices.csv]. The name is the value found
    in the map, which [load_localization] lets be [None] (written by
    [csv] as the empty field). *)
Record row : Type := Row {
  name : option string;
  min : string; max : string;
  avg_txt : string;
  min30 : string; max30 : string;
  min50 : string; max50 : string;
  min70 : string; max70 : string;
  transport : string;
  source : string
}.

(** What the body of a loop does: nothing, a line written, or an
    exception that no [try] of [process_all_wares] catches. *)
Inductive step (A : Type) : Type :=
| Skip
| Emit (a : A)
| Raise.
Arguments Skip {A}.
Arguments Emit {A} _.
Arguments Raise {A}.

Section Extractor.
(** The builtin [float()] on a string; [None] stands for
    [ValueError]. *)
Variable float_of_str : string -> option float.
Variable name_map : gmap string (option string).

(** The body of [for ware in root.findall('.//ware')]. *)
Definition process_ware (source : string) (ware : element) : step row :=
  if bool_decide ("module" ∈ Py.split_ws (default "" (attrib ware !! "tags")))
  then Skip
  else
    match attrib ware !! "transport" with
    | Some transport =>
        if bool_decide (transport ∈ VALID_TRANSPORT) then
          let name_ref := parse_name_reference (attrib ware !! "name") in
          match find_child "price" ware, name_ref with
          | Some price, Some name_ref =>
              let name := default (Some "Unknown") (name_map !! name_ref) in
              match truthy (attrib price !! "min"), truthy (attrib price !! "max") with
              | Some min_price, Some max_price =>
                  match float_of_str min_price, float_of_str max_price with
                  | Some lo, Some hi =>
                      let ranges := calculate_price_ranges lo hi in
                      Emit (Row name min_price max_price
                              (format_0f (avg ranges))
                              (format_0f (r30_min ranges)) (format_0f (r30_max ranges))
                              (format_0f (r50_min ranges)) (format_0f (r50_max ranges))
                              (format_0f (r70_min ranges)) (format_0f (r70_max ranges))
                              transport source)
                  | _, _ => Raise
                  end
              | _, _ => Skip
              end
          | _, _ => Skip
          end
        else Skip
    | None => Skip
    end.

(** The lines written by a loop, and whether it ran to its end. *)
Fixpoint run_steps {A B} (body : A -> step B) (xs : list A) : list B * bool :=
  match xs with
  | x :: xs' =>
      match body x with
      | Skip => run_steps body xs'
      | Emit b => let '(bs, ok) := run_steps body xs' in (b :: bs, ok)
      | Raise => ([], false)
      end
  | [] => ([], true)
  end.

(** [for source, wares_file in wares_files], with the output file open:
    [ET.parse] is outside any [try], so a file that does not parse ends
    the run. The result is the lines written and whether the loop ran to
    its end. *)
Fixpoint process_all_wares (wares_files : list (string * document))
    : list row * bool :=
  match wares_files with
  | (source, Some root) :: files' =>
      let '(rows, ok) := run_steps (process_ware source) (findall_desc "ware" root) in
      if ok then
        let '(rows', ok') := process_all_wares files' in ((rows ++ rows')%list, ok')
      else (rows, false)
  | (_, None) :: _ => ([], false)
  | [] => ([], true)
  end.
End Extractor.

(** [float()] on a string of decimal digits. *)
Definition float_of_digits (s : string) : option float :=
  match fst (Py.span Py.is_digit s), snd (Py.span Py.is_digit s) with
  | String _ _ as d, EmptyString => Some (float_of_Z (Py.digits_value 0 d))
  | _, _ => None
  end.

End Wares.

(** ** Invariants and example inputs *)

(** Every key on the resolution path is bound in the map: it holds in the
    store a caller starts from and in every store [replacer] hands to the
    recursive call. *)
Definition wf_path (st : store) : Prop :=
  Forall (fun key => is_Some (name_map st !! key)) (processed_keys st).

(** A computation leaves the map and the resolution path as it found
    them. *)
Definition frames {A} (c : M A) : Prop :=
  forall st, name_map (snd (c st)) = name_map st
             /\ processed_keys (snd (c st)) = processed_keys st.

Definition warn (msg : string) (st : store) : store :=
  Store (name_map st) (processed_keys st) (log st ++ [(WARNING, msg)])%list.

Definition token (page_id t_id : string) : string :=
  "{" ++ page_id ++ "," ++ t_id ++ "}".

Definition all_digits (s : string) : Prop :=
  Forall (fun c => Py.is_digit c = true) (list_ascii_of_string s).

(** The (key, payload) pairs of a catalog in document order: for each
    page with an identifier, its text entries with an identifier. *)
Definition t_entry (page_id : string) (t : element) : option (string * option string) :=
  match truthy (attrib t !! "id") with
  | Some t_id => Some (page_id ++ "_" ++ t_id, text t)
  | None => None
  end.

Definition page_entries (page : element) : list (string * option string) :=
  match truthy (attrib page !! "id") with
  | Some page_id => omap (t_entry page_id) (findall_desc "t" page)
  | None => []
  end.

Definition entries (root : element) : list (string * option string) :=
  findall_desc "page" root ≫= page_entries.

(** The assignment [name_map[key] = ...] for one pair. *)
Definition bind_entry {V} (payload : option string -> V)
    (m : gmap string V) (e : string * option string) : gmap string V :=
  <[fst e := payload (snd e)]> m.

(** The last payload that a list of entries gives for a key. *)
Fixpoint last_payload (key : string) (es : list (string * option string))
    : option (option string) :=
  match es with
  | (k, p) :: es' =>
      match last_payload key es' with
      | Some q => Some q
      | None => if String.eqb k key then Some p else None
      end
  | [] => None
  end.

(** The order of the sort keys [(cluster id, sector id)]. *)
Definition lex_le (a b : Z * Z) : Prop :=
  (fst a < fst b)%Z \/ (fst a = fst b /\ (snd a <= snd b)%Z).

Definition row_le (r1 r2 : MapNames.row) : Prop :=
  lex_le (MapNames.sort_key r1) (MapNames.sort_key r2).

Definition has_digit (s : string) : bool :=
  existsb Py.is_digit (list_ascii_of_string s).

(** A map file with a sector, a cluster and an entry whose macro has no
    digits, and the catalog that names them. *)
Definition dataset_of (macro name_ref : string) : element :=
  Element "dataset" {["macro" := macro]} None
    [Element "properties" ∅ None
       [Element "identification" {["name" := name_ref]} None []]].

Definition example_map_file : element :=
  Element "defaults" ∅ None
    [dataset_of "Cluster_12_Sector003_macro" "{20004,10}";
     dataset_of "Cluster_02_macro" "{20003,20}";
     dataset_of "galaxy_macro" "{20003,30}"].

Definition example_names : gmap string string :=
  <["20004_10" := "Hatikvah (sector)"]>
    (<["20003_20" := "{20004,10} Cluster"]> ∅).



Definition is_nan (x : Wares.float) : bool :=
  match x with
  | S754_nan => true
  | _ => false
  end.


(** A ware whose name reference leads to a value with a token and an
    annotation in it. *)
Definition example_ware_file : element :=
  Element "wares" ∅ None
    [Element "ware"
       (<["id" := "energycells"]> (<["name" := "{1,1}"]>
          (<["transport" := "container"]> (<["tags" := "container economy"]> ∅))))
       None
       [Element "price" (<["min" := "10"]> (<["average" := "16"]> (<["max" := "20"]> ∅)))
          None []]].

Definition example_ware_names : gmap string (option string) :=
  <["1_1" := Some "{1,2} (x)"]> (<["1_2" := Some "Hello"]> ∅).

Definition example_ware_names_str : gmap string string :=
  <["1_1" := "{1,2} (x)"]> (<["1_2" := "Hello"]> ∅).



(** A catalog with a text entry that has no payload. *)
Definition empty_payload_catalog : element :=
  Element "language" ∅ None
    [Element "page" {["id" := "1"]} None
       [Element "t" {["id" := "1"]} (Some "Argon Prime") [];
        Element "t" {["id" := "2"]} None []]].

(** A map file whose only entry has a macro without digits and no
    identification element. *)
Definition bare_dataset_file : element :=
  Element "defaults" ∅ None
    [Element "dataset" {["macro" := "abc"]} None
       [Element "properties" ∅ None []]].

(** A map file whose first entry has a macro with a run of 4301 digits,
    in front of an entry whose macro has no digit. *)
Definition long_run_macro : string :=
  "Cluster_" ++ String.concat "" (replicate 4301 "1").

Definition long_run_file : element :=
  Element "defaults" ∅ None
    [dataset_of long_run_macro "{20004,10}";
     dataset_of "galaxy_macro" "{20003,30}"].

(** The scan of a text in which the pattern has no match. *)
Definition lits {G} (s : string) : list (Re.segment G) :=
  Re.Lit <$> list_ascii_of_string s.

(** ** Definitions for the further properties *)

(** The text has a [)], and the text has a [(] with a [)] somewhere
    behind it. *)
Definition has_close (s : string) : bool :=
  existsb (Ascii.eqb ")") (list_ascii_of_string s).

Fixpoint open_then_close (s : string) : bool :=
  match s with
  | String c s' => (Ascii.eqb c "(" && has_close s') || open_then_close s'
  | EmptyString => false
  end.

(** The text neither starts nor ends with white space. *)
Definition trimmed (s : string) : Prop := Py.strip s = s.

(** Two maps give the same text for every key, a key that a map does not
    bind giving ['Unknown']. *)
Definition same_texts (m m' : gmap string string) : Prop :=
  forall key, default "Unknown" (m !! key) = default "Unknown" (m' !! key).

(** A computation run on [m] and on [m'] from the same path and log gives
    the same value, path and log, and leaves each map in place. *)
Definition alike {A} (m m' : gmap string string) (c : M A) : Prop :=
  forall path lg,
    fst (c (Store m path lg)) = fst (c (Store m' path lg))
    /\ snd (c (Store m path lg))
       = Store m (processed_keys (snd (c (Store m' path lg))))
                 (log (snd (c (Store m' path lg))))
    /\ name_map (snd (c (Store m' path lg))) = m'.

(** The keys of the tokens of a text, in the order of the scan, and the
    two warnings of [replacer]. *)
Definition token_keys (text : string) : list string :=
  omap (fun seg =>
          match seg with
          | Re.Hit m => Some (placeholder_key (fst (Re.groups m)) (snd (Re.groups m)))
          | Re.Lit _ => None
          end)
       (Re.finditer Re.placeholder text).

Definition cycle_warning (key : string) : level * string :=
  (WARNING, "Circular reference detected for key: " ++ key).

Definition missing_warning (key : string) : level * string :=
  (WARNING, "Missing localization for key: " ++ key).

Definition add_log (records : list (level * string)) (st : store) : store :=
  Store (name_map st) (processed_keys st) (log st ++ records)%list.

(** A character of a token behind its opening brace. *)
Definition token_char (c : ascii) : bool :=
  Py.is_digit c || Ascii.eqb c "," || Ascii.eqb c "}".

(** ** [get_factions_info.py]: the faction extractor *)

Module FactionExtractor.

(** A line of [factions_output.csv]. *)
Record row : Type := Row {
  id : string;
  name : string;
  shortname : string;
  prefixname : string;
  spacename : string;
  homespacename : string;
  primaryrace : string;
  source : string
}.

(** [re.match] with [^timelines_map_] and with [^demo_]. *)
Definition DEFAULT_EXCLUDE_PATTERNS : list (string -> bool) :=
  [String.prefix "timelines_map_"; String.prefix "demo_"].

(** [elem.get(key, '').strip()] *)
Definition get_stripped (e : element) (key : string) : string :=
  Py.strip (default "" (attrib e !! key)).

Section Extractor.
(** The exclusion patterns, each as the test [re.match(pattern, _)] of a
    regular expression that compiles. *)
Variable exclude_patterns : list (string -> bool).
Variable name_map : gmap string string.

(** The body of [for faction in root.findall('.//faction')]: the row
    appended, or [None] for [continue]. The names are resolved before
    the exclusion test. *)
Definition process_faction (source : string) (faction : element) : option row :=
  match get_stripped faction "id" with
  | EmptyString => None
  | faction_id =>
      let name := resolve (get_stripped faction "name") name_map in
      let shortname := resolve (get_stripped faction "shortname") name_map in
      let prefixname := resolve (get_stripped faction "prefixname") name_map in
      let spacename := resolve (get_stripped faction "spacename") name_map in
      let homespacename := resolve (get_stripped faction "homespacename") name_map in
      let primaryrace := get_stripped faction "primaryrace" in
      let macro := "id_" ++ faction_id in
      if existsb (fun matches => matches macro) exclude_patterns then None
      else Some (Row faction_id name shortname prefixname spacename homespacename
                   primaryrace source)
  end.

(** The rows one file adds; none for a file that does not parse. *)
Definition process_file (file : string * document) : list row :=
  match snd file with
  | Some root => omap (process_faction (fst file)) (findall_desc "faction" root)
  | None => []
  end.

(** The lines written behind the header, in the order of [all_rows];
    [None] when there is no row and the function returns before it opens
    the CSV. The output folder exists or is created. *)
Definition process_factions (factions_files : list (string * document))
    : option (list row) :=
  match factions_files ≫= process_file with
  | [] => None
  | all_rows => Some all_rows
  end.
End Extractor.

End FactionExtractor.

(** ** [get_ships_info.py] *)

Module Ships.

(** [\w] below code point 256: the characters that are alphanumeric, and
    the underscore. *)
Definition is_word (c : ascii) : bool :=
  let n := Py.code c in
  ((48 <=? n)%nat && (n <=? 57)%nat) || ((65 <=? n)%nat && (n <=? 90)%nat) || (n =? 95)%nat
  || ((97 <=? n)%nat && (n <=? 122)%nat) || (n =? 170)%nat || (n =? 178)%nat || (n =? 179)%nat
  || (n =? 181)%nat || (n =? 185)%nat || (n =? 186)%nat || ((188 <=? n)%nat && (n <=? 190)%nat)
  || ((192 <=? n)%nat && (n <=? 214)%nat) || ((216 <=? n)%nat && (n <=? 246)%nat)
  || ((248 <=? n)%nat && (n <=? 255)%nat).

(** [\w+] *)
Definition word : Re.pattern unit := fun s =>
  match fst (Py.span is_word s) with
  | EmptyString => None
  | w => Some (Re.Match w tt)
  end.

(** An entry of [ships_data]. *)
Record ship_record : Type := Ship {
  id : string;
  group : string;
  size : string;
  source : string;
  factions : list string;
  tags : list string
}.

(** [category.get(key, '').strip() if category is not None else ''] *)
Definition category_get (category : option element) (key : string) : string :=
  match category with
  | Some c => Py.strip (default "" (attrib c !! key))
  | None => ""
  end.

(** The body of [for ship in root.findall('ship')]. *)
Definition process_ship (source : string) (ship : element) : option ship_record :=
  match Py.strip (default "" (attrib ship !! "id")) with
  | EmptyString => None
  | ship_id =>
      let group := Py.strip (default "" (attrib ship !! "group")) in
      let category := find_child "category" ship in
      let size := category_get category "size" in
      let faction := category_get category "faction" in
      let tags := category_get category "tags" in
      Some (Ship ship_id group size source
              (Re.findall word faction) (Re.findall word tags))
  end.

(** [root.findall('ship')]: the children named [ship]. *)
Definition ships_of_file (file : string * document) : list ship_record :=
  match snd file with
  | Some root =>
      omap (process_ship (fst file)) (List.filter (has_tag "ship") (children root))
  | None => []
  end.

Definition ships_data (ships_files : list (string * document)) : list ship_record :=
  ships_files ≫= ships_of_file.

Definition factions_set (data : list ship_record) : gset string :=
  list_to_set (data ≫= factions).

Definition tags_set (data : list ship_record) : gset string :=
  list_to_set (data ≫= tags).

(** [f"({f})"] and [f"[{t}]"] *)
Definition enclose_faction (f : string) : string := "(" ++ f ++ ")".
Definition enclose_tag (t : string) : string := "[" ++ t ++ "]".

(** The dicts [enclosed_factions] and [enclosed_tags]. *)
Definition enclosed (enclose : string -> string) (names : gset string)
    : gmap string string :=
  set_to_map (fun f => (f, enclose f)) names.

(** [sorted(...)] on strings: ascending in the order of the code points,
    by a stable insertion. *)
Fixpoint insert_str (x : string) (l : list string) : list string :=
  match l with
  | y :: l' => if String.leb x y then x :: l else y :: insert_str x l'
  | [] => [x]
  end.

Definition sorted (l : list string) : list string := fold_right insert_str [] l.

Definition sorted_factions (data : list ship_record) : list string :=
  sorted (snd <$> map_to_list (enclosed enclose_faction (factions_set data))).

Definition sorted_tags (data : list ship_record) : list string :=
  sorted (snd <$> map_to_list (enclosed enclose_tag (tags_set data))).

Definition csv_columns (data : list ship_record) : list string :=
  (["id"; "group"; "size"; "source"] ++ sorted_factions data ++ sorted_tags data)%list.

(** The marks of the names of one ship: [row[enclosed] = 'TRUE'] for each
    name that the dict holds. *)
Definition mark (dict : gmap string string) (row : gmap string string)
    (name : string) : gmap string string :=
  match truthy (dict !! name) with
  | Some enclosed_name => <[enclosed_name := "TRUE"]> row
  | None => row
  end.

(** The dict [row] built for one ship. *)
Definition row_dict (data : list ship_record) (s : ship_record) : gmap string string :=
  let row := <["source" := source s]> (<["size" := size s]>
               (<["group" := group s]> (<["id" := id s]> ∅))) in
  let row := foldl (fun row col => <[col := "FALSE"]> row) row (sorted_factions data) in
  let row := foldl (fun row col => <[col := "FALSE"]> row) row (sorted_tags data) in
  let row := foldl (mark (enclosed enclose_faction (factions_set data))) row (factions s) in
  foldl (mark (enclosed enclose_tag (tags_set data))) row (tags s).

(** [DictWriter.writerow]: the values of the columns in their order. *)
Definition csv_line (data : list ship_record) (s : ship_record) : list string :=
  (fun col => default "" (row_dict data s !! col)) <$> csv_columns data.

(** The header and the lines of [ships_output.csv]; [None] when there is
    no ship and the function returns before it opens the CSV. *)
Definition process_ships (ships_files : list (string * document))
    : option (list string * list (list string)) :=
  match ships_data ships_files with
  | [] => None
  | data => Some (csv_columns data, csv_line data <$> data)
  end.

End Ships.

(** ** The discovery of the files

    The functions of [os] and [os.path] are parameters: [path_join] is
    [os.path.join] on the list of its arguments, [path_exists] is
    [os.path.exists], and [listdir] is [os.listdir], with [None] when it
    raises. A result [None] stands for an exception that leaves the
    function. *)

Module Discovery.
Section FileSystem.
Variable path_join : list string -> string.
Variable path_exists : string -> bool.
Variable listdir : string -> option (list string).

(** The shape shared by the four functions: the file of the base game
    under the label ['original'], then one file for each entry of the
    extensions folder that has it; [ext_path] gives the path in an
    extension. *)
Definition find_files (base_path : string) (extensions_path : string)
    (ext_path : string -> string) : option (list (string * string)) :=
  let files := if path_exists base_path then [("original", base_path)] else [] in
  if path_exists extensions_path then
    match listdir extensions_path with
    | Some dirs =>
        Some (files ++ omap (fun ext_dir =>
                               if path_exists (ext_path ext_dir)
                               then Some (ext_dir, ext_path ext_dir) else None) dirs)%list
    | None => None
    end
  else Some files.

Definition find_factions_files (base_folder : string) : option (list (string * string)) :=
  let extensions_path := path_join [base_folder; "extensions"] in
  find_files (path_join [base_folder; "libraries"; "factions.xml"]) extensions_path
    (fun ext_dir => path_join [extensions_path; ext_dir; "libraries"; "factions.xml"]).

Definition find_mapdefaults_files (base_folder : string) : option (list (string * string)) :=
  let extensions_path := path_join [base_folder; "extensions"] in
  find_files (path_join [base_folder; "libraries"; "mapdefaults.xml"]) extensions_path
    (fun ext_dir => path_join [extensions_path; ext_dir; "libraries"; "mapdefaults.xml"]).

Definition find_ships_files (base_folder : string) : option (list (string * string)) :=
  let extensions_path := path_join [base_folder; "extensions"] in
  find_files (path_join [base_folder; "libraries"; "ships.xml"]) extensions_path
    (fun ext_dir =>
       path_join [path_join [extensions_path; ext_dir; "libraries"]; "ships.xml"]).

(** [find_wares_files] raises [FileNotFoundError] when it has found no
    file. *)
Definition find_wares_files (base_folder : string) : option (list (string * string)) :=
  let extensions_path := path_join [base_folder; "extensions"] in
  match find_files (path_join [base_folder; "libraries"; "wares.xml"]) extensions_path
          (fun ext_dir => path_join [extensions_path; ext_dir; "libraries"; "wares.xml"])
  with
  | Some [] => None
  | found => found
  end.
End FileSystem.
End Discovery.

(** ** Definitions for the properties of the ship extractor and of
    [parse_name_reference] *)

(** The order of [sorted] on strings. *)
Definition str_le (x y : string) : Prop := String.leb x y = true.

(** The mark of a column in the line of a ship: ['TRUE'] when one of the
    names of the ship gives the column, ['FALSE'] otherwise. *)
Definition flag (enclose : string -> string) (names : list string)
    (col : string) : string :=
  if bool_decide (col ∈ enclose <$> names) then "TRUE" else "FALSE".

(** A name that [\w+] matches whole: not empty, of word characters. *)
Definition is_name (w : string) : Prop :=
  w <> "" /\ Forall (fun c => Ships.is_word c = true) (list_ascii_of_string w).

(** A string of decimal digits without its leading zeros, ["0"] when
    nothing is left. *)
Definition canonical (d : string) : string :=
  match Py.lstrip_with (Ascii.eqb "0") d with
  | EmptyString => "0"
  | r => r
  end.

(** ** Definitions for the cleaning of a text without a token *)

(** The text holds a token [{page_id,t_id}] of two numerals. *)
Definition has_token (s : string) : Prop :=
  exists pre page_id t_id post,
    s = pre ++ token page_id t_id ++ post
    /\ page_id <> "" /\ t_id <> "" /\ all_digits page_id /\ all_digits t_id.

(** White space only. *)
Definition all_space (s : string) : Prop :=
  Forall (fun c => Py.is_space c = true) (list_ascii_of_string s).

Definition first_char (s : string) : option ascii :=
  match s with
  | String c _ => Some c
  | EmptyString => None
  end.

Fixpoint last_char (s : string) : option ascii :=
  match s with
  | String c EmptyString => Some c
  | String _ s' => last_char s'
  | EmptyString => None
  end.

(** [r] is [s] without the white space at its two ends. *)
Definition trim_of (s r : string) : Prop :=
  (exists a b, s = a ++ r ++ b /\ all_space a /\ all_space b)
  /\ (forall c, first_char r = Some c -> Py.is_space c = false)
  /\ (forall c, last_char r = Some c -> Py.is_space c = false).

(** An annotation: white space, none or more of it, and a parenthesis
    that the first [)] behind its [(] closes. *)
Definition is_annotation (g : string) : Prop :=
  exists ws body,
    g = ws ++ "(" ++ body ++ ")" /\ all_space ws
    /\ Forall (fun c => c <> ")"%char) (list_ascii_of_string body).

(** An annotation starts the text. *)
Definition starts_annotation (s : string) : Prop :=
  exists g rest, is_annotation g /\ s = g ++ rest.

(** [r] is [s] with its annotations cut out, from left to right: where
    an annotation starts it is cut and the reading goes on behind it; a
    character at which none starts is kept. *)
Inductive cut_annotations : string -> string -> Prop :=
| cut_end : cut_annotations "" ""
| cut_hit (g s r : string) :
    is_annotation g -> cut_annotations s r -> cut_annotations (g ++ s) r
| cut_keep (c : ascii) (s r : string) :
    ~ starts_annotation (String c s) -> cut_annotations s r ->
    cut_annotations (String c s) (String c r).

(** * Properties *)

(** ** The builtins on sample inputs *)

Example strip_sample :
  Py.strip "  Name (x) " = "Name (x)" /\ Py.strip_chars "{}" "{{1,2}x}" = "1,2}x".
Proof. split; reflexivity. Qed.

Example split_sample :
  Py.split "," "a,,b" = ["a"; ""; "b"] /\ Py.split "," "" = [""]
  /\ Py.split_ws " ab  c " = ["ab"; "c"].
Proof. repeat split; reflexivity. Qed.

Example int_sample :
  Py.int " -1_0 " = Some (-10)%Z /\ Py.int "007" = Some 7%Z
  /\ Py.int "1__0" = None /\ Py.int "" = None /\ Py.int "+ 1" = None
  /\ Py.int "1_" = None /\ Py.int "1 2" = None.
Proof. repeat split; reflexivity. Qed.

Example str_of_int_sample :
  Py.str_of_int 0 = "0" /\ Py.str_of_int (-12) = "-12" /\ Py.str_of_int 20201 = "20201".
Proof. repeat split; reflexivity. Qed.

Example findall_sample :
  Re.findall Re.digits "Cluster_12_Sector003_macro" = ["12"; "003"]
  /\ Re.findall Re.placeholder "{1,2}{3,4,5}{{6,7}} {8, 9}" = ["{1,2}"; "{6,7}"].
Proof. split; reflexivity. Qed.

Example strip_parentheticals_sample :
  strip_parentheticals "a  (b(c) d) e ( f" = "a d) e ( f"
  /\ strip_parentheticals " (x) Name (extra info)  " = "Name".
Proof. split; reflexivity. Qed.

Example parse_name_reference_sample :
  parse_name_reference (Some "{20201,401}") = Some "20201_401"
  /\ parse_name_reference (Some "{{1 , +02}") = Some "1_2"
  /\ parse_name_reference (Some "1,2,3") = None
  /\ parse_name_reference (Some "") = None
  /\ parse_name_reference None = None.
Proof. repeat split; reflexivity. Qed.

Example format_0f_sample :
  Wares.format_0f (S754_finite true 5 (-1)) = "-2"
  /\ Wares.format_0f (S754_finite false 3 (-1)) = "2"
  /\ Wares.format_0f (S754_finite true 1 (-2)) = "-0"
  /\ Wares.format_0f (S754_finite false 3 2) = "12"
  /\ Wares.format_0f (S754_infinity false) = "inf".
Proof. repeat split; reflexivity. Qed.

Example extract_cluster_sector_sample :
  MapNames.extract_cluster_sector "Cluster_12_Sector003_macro" = Some (12, 3, "sector")%Z
  /\ MapNames.extract_cluster_sector "Cluster_02_macro" = Some (2, 0, "cluster")%Z
  /\ MapNames.extract_cluster_sector "galaxy_macro" = Some (0, 0, "unknown")%Z
  /\ MapNames.extract_cluster_sector long_run_macro = None.
Proof. repeat split; vm_compute; reflexivity. Qed.

Example int_limit_sample :
  Py.int (String.concat "" (replicate 4300 "1")) <> None
  /\ Py.int (String.concat "" (replicate 4301 "1")) = None
  /\ Py.int (String.concat "" (replicate 4301 "0")) = None.
Proof. repeat split; vm_compute; [discriminate|reflexivity..]. Qed.

(** ** Strings and scanning *)

Lemma app_String c a b : String c a ++ b = String c (a ++ b).
Proof. reflexivity. Qed.

Lemma app_empty_l b : "" ++ b = b.
Proof. reflexivity. Qed.

Lemma app_empty_r a : a ++ "" = a.
Proof. induction a as [|c a IH]; [reflexivity|]. now rewrite app_String, IH. Qed.

Lemma app_assoc' a b c : (a ++ b) ++ c = a ++ (b ++ c).
Proof. induction a as [|x a IH]; [reflexivity|]. now rewrite !app_String, IH. Qed.

Lemma span_spec p s :
  s = fst (Py.span p s) ++ snd (Py.span p s)
  /\ Forall (fun c => p c = true) (list_ascii_of_string (fst (Py.span p s)))
  /\ match snd (Py.span p s) with
     | String c _ => p c = false
     | EmptyString => True
     end.
Proof.
  induction s as [|c s IH]; cbn.
  - repeat split; constructor.
  - destruct (p c) eqn:Hc.
    + destruct (Py.span p s) as [a b]; cbn in *.
      destruct IH as (IH & Ha & Hb). rewrite app_String, <- IH.
      repeat split; auto.
    + cbn. rewrite Hc. repeat split; constructor.
Qed.

Lemma span_app p a b :
  Forall (fun c => p c = true) (list_ascii_of_string a) ->
  match b with String c _ => p c = false | EmptyString => True end ->
  Py.span p (a ++ b) = (a, b).
Proof.
  induction a as [|c a IH]; intros Ha Hb.
  - rewrite app_empty_l. destruct b as [|c b]; [reflexivity|]. cbn. now rewrite Hb.
  - inversion Ha as [|? ? Hc Ha']; subst. rewrite app_String. cbn. rewrite Hc.
    now rewrite (IH Ha' Hb).
Qed.

Lemma scan_no_match {G} (pat : Re.pattern G) s :
  Re.search pat s = false -> Re.scan pat 0 s = lits s.
Proof.
  induction s as [|c s IH]; [reflexivity|].
  cbn [Re.search Re.scan]. intros H.
  apply orb_false_iff in H as [Hm Hs].
  destruct (pat (String c s)) as [m|] eqn:Hp.
  - rewrite bool_decide_eq_false in Hm. destruct Hm. eauto.
  - rewrite (IH Hs). reflexivity.
Qed.

Ltac unfold_M :=
  unfold mbind, mret, M_bind, M_ret, name_map_get, key_in_path, append_key,
    pop_key, logger in *.

Lemma sub_segments_lits {G} (repl : Re.rmatch G -> M string) s st :
  sub_segments repl (lits s) st = (s, st).
Proof.
  induction s as [|c s IH]; [reflexivity|].
  unfold lits in *. cbn. unfold_M. now rewrite IH.
Qed.

Lemma re_sub_no_match {G} (pat : Re.pattern G) repl s st :
  Re.search pat s = false -> re_sub pat repl s st = (s, st).
Proof.
  intros H. unfold re_sub, Re.finditer.
  rewrite (scan_no_match _ _ H). apply sub_segments_lits.
Qed.

Lemma passes_no_match repl text depth n s st :
  Re.search Re.placeholder s = false ->
  passes repl text depth (S n) s st = (s, st).
Proof.
  intros H. cbn. unfold_M. rewrite (re_sub_no_match _ _ _ _ H).
  now rewrite String.eqb_refl.
Qed.

Lemma resolve_placeholders_no_match d text st :
  Re.search Re.placeholder text = false ->
  resolve_placeholders (S d) text st = (strip_parentheticals text, st).
Proof.
  intros H. cbn [resolve_placeholders]. unfold_M.
  now rewrite (passes_no_match _ _ _ _ _ _ H).
Qed.

(** [Re.search Re.placeholder] is the test "the text holds a
    token [{digits,digits}]". *)
Lemma placeholder_token page_id t_id rest :
  page_id <> "" -> t_id <> "" -> all_digits page_id -> all_digits t_id ->
  Re.placeholder (token page_id t_id ++ rest)
  = Some (Re.Match (token page_id t_id) (page_id, t_id)).
Proof.
  intros Hp Ht Dp Dt. unfold token.
  rewrite !app_assoc', app_String, app_empty_l. cbn [Re.placeholder].
  rewrite (span_app _ page_id _ Dp) by reflexivity.
  destruct page_id as [|c p]; [congruence|].
  rewrite app_String, app_empty_l.
  rewrite (span_app _ t_id _ Dt) by reflexivity.
  destruct t_id as [|c' t]; [congruence|]. reflexivity.
Qed.

Lemma placeholder_inv s m :
  Re.placeholder s = Some m ->
  exists page_id t_id rest,
    s = token page_id t_id ++ rest
    /\ m = Re.Match (token page_id t_id) (page_id, t_id)
    /\ page_id <> "" /\ t_id <> "" /\ all_digits page_id /\ all_digits t_id.
Proof.
  unfold Re.placeholder. destruct s as [|c s1]; [discriminate|].
  destruct (Ascii.eqb_spec c "{") as [->|Hc].
  2:{ destruct c as [[] [] [] [] [] [] [] []]; try discriminate. congruence. }
  pose proof (span_spec Py.is_digit s1) as (E1 & D1 & _).
  destruct (Py.span Py.is_digit s1) as [page_id s2]; cbn [fst snd] in *.
  destruct page_id as [|p0 p]; [discriminate|].
  destruct s2 as [|c2 s3]; [discriminate|].
  destruct (Ascii.eqb_spec c2 ",") as [->|Hc2].
  2:{ destruct c2 as [[] [] [] [] [] [] [] []]; try discriminate. congruence. }
  pose proof (span_spec Py.is_digit s3) as (E2 & D2 & _).
  destruct (Py.span Py.is_digit s3) as [t_id s4]; cbn [fst snd] in *.
  destruct t_id as [|t0 t]; [discriminate|].
  destruct s4 as [|c4 rest]; [discriminate|].
  destruct (Ascii.eqb_spec c4 "}") as [->|Hc4].
  2:{ destruct c4 as [[] [] [] [] [] [] [] []]; try discriminate. congruence. }
  intros [= <-]. exists (String p0 p), (String t0 t), rest.
  repeat split; try discriminate; auto.
  unfold token. rewrite E1, E2. rewrite !app_assoc'. reflexivity.
Qed.

Lemma search_app_r {G} (pat : Re.pattern G) pre s :
  Re.search pat s = true -> Re.search pat (pre ++ s) = true.
Proof.
  induction pre as [|c pre IH]; [now rewrite app_empty_l|].
  intros H. rewrite app_String. cbn. rewrite (IH H). apply orb_true_r.
Qed.

Lemma search_inv {G} (pat : Re.pattern G) s :
  Re.search pat s = true -> exists pre s' m, s = pre ++ s' /\ pat s' = Some m.
Proof.
  induction s as [|c s IH]; [discriminate|]. cbn.
  intros [H|H]%orb_true_iff.
  - apply bool_decide_eq_true in H as [m Hm]. exists "", (String c s), m. auto.
  - destruct (IH H) as (pre & s' & m & -> & Hm).
    exists (String c pre), s', m. auto.
Qed.

Lemma search_placeholder_spec s :
  Re.search Re.placeholder s = true
  <-> exists pre page_id t_id post,
        s = pre ++ token page_id t_id ++ post
        /\ page_id <> "" /\ t_id <> "" /\ all_digits page_id /\ all_digits t_id.
Proof.
  split.
  - intros H. destruct (search_inv _ _ H) as (pre & s' & m & -> & Hm).
    destruct (placeholder_inv _ _ Hm) as (p & t & rest & -> & _ & ?).
    exists pre, p, t, rest. auto.
  - intros (pre & p & t & post & -> & Hp & Ht & Dp & Dt).
    apply search_app_r.
    pose proof (placeholder_token p t post Hp Ht Dp Dt) as E.
    destruct (token p t ++ post) as [|c r] eqn:Heq.
    { unfold token in Heq. rewrite app_assoc' in Heq. discriminate Heq. }
    cbn [Re.search]. rewrite E. reflexivity.
Qed.

(** ** The map and the resolution path are left as they were *)

Lemma frames_ret {A} (a : A) : frames (mret a).
Proof. intros st. split; reflexivity. Qed.

Lemma frames_bind {A B} (c : M A) (f : A -> M B) :
  frames c -> (forall a, frames (f a)) -> frames (c ≫= f).
Proof.
  intros Hc Hf st. unfold_M. specialize (Hc st).
  destruct (c st) as [a st1]; cbn [snd] in *.
  destruct (Hf a st1) as [H1 H2]. destruct Hc as [H3 H4].
  split; congruence.
Qed.

Lemma frames_logger lvl msg : frames (logger lvl msg).
Proof. intros st. split; reflexivity. Qed.

Lemma frames_sub_segments {G} (repl : Re.rmatch G -> M string) segs :
  (forall m, frames (repl m)) -> frames (sub_segments repl segs).
Proof.
  intros Hr. induction segs as [|[c|m] segs IH]; cbn [sub_segments].
  - apply frames_ret.
  - apply frames_bind; [exact IH|]. intros; apply frames_ret.
  - apply frames_bind; [apply Hr|]. intros r.
    apply frames_bind; [exact IH|]. intros; apply frames_ret.
Qed.

Lemma frames_passes repl text n :
  (forall m, frames (repl m)) ->
  forall depth current_text, frames (passes repl text depth n current_text).
Proof.
  intros Hr. induction n as [|n IH]; intros depth cur; cbn [passes].
  - apply frames_bind; [apply frames_logger|]. intros; apply frames_ret.
  - apply frames_bind; [apply frames_sub_segments, Hr|]. intros new_text.
    destruct (String.eqb new_text cur); [apply frames_ret|].
    apply frames_bind; [apply frames_logger|]. intros; apply IH.
Qed.

Lemma removelast_snoc {A} (l : list A) x : removelast (l ++ [x])%list = l.
Proof. apply removelast_last. Qed.

Lemma frames_replacer recur m :
  (forall s, frames (recur s)) -> frames (replacer recur m).
Proof.
  intros Hr st. unfold replacer. destruct (Re.groups m) as [page_id t_id].
  unfold_M. cbn.
  destruct (bool_decide _); cbn; [split; reflexivity|].
  destruct (String.eqb _ "Unknown"); cbn.
  - rewrite removelast_snoc. split; reflexivity.
  - match goal with |- context [recur ?s ?st'] =>
      destruct (Hr s st') as [H1 H2]; destruct (recur s st') as [r st2] end.
    cbn in *. rewrite H1, H2, removelast_snoc. split; reflexivity.
Qed.

Lemma frames_resolve_placeholders max_depth text :
  frames (resolve_placeholders max_depth text).
Proof.
  revert text. induction max_depth as [|d IH]; intros text;
    cbn [resolve_placeholders].
  - apply frames_bind; [apply frames_logger|]. intros; apply frames_ret.
  - apply frames_bind; [|intros; apply frames_ret].
    apply frames_passes. intros m. apply frames_replacer, IH.
Qed.

(** C9. A call of the resolver returns with the localization map it was
    given: for every depth bound, text and store, the map of the store
    after [resolve_placeholders] is the map before it (and the resolution
    path is back to what it was); so it is for a call from an extractor. *)
Theorem resolve_leaves_map_unchanged :
  (forall (max_depth : nat) (text : string) (st : store),
      name_map (snd (resolve_placeholders max_depth text st)) = name_map st
      /\ processed_keys (snd (resolve_placeholders max_depth text st))
         = processed_keys st)
  /\ (forall (text : string) (m : gmap string string),
        name_map (snd (run_resolve text m)) = m).
Proof.
  split.
  - intros d text st. apply frames_resolve_placeholders.
  - intros text m. apply (frames_resolve_placeholders 10 text (initial_store m)).
Qed.

(** ** What [replacer] does with one token *)

Lemma replacer_cycle recur g page_id t_id st :
  placeholder_key page_id t_id ∈ processed_keys st ->
  replacer recur (Re.Match g (page_id, t_id)) st
  = (g, warn ("Circular reference detected for key: "
              ++ placeholder_key page_id t_id) st).
Proof.
  intros H. unfold replacer. cbn [Re.groups Re.group0]. unfold_M.
  rewrite bool_decide_eq_true_2 by exact H. reflexivity.
Qed.

Lemma replacer_missing recur g page_id t_id st :
  placeholder_key page_id t_id ∉ processed_keys st ->
  name_map st !! placeholder_key page_id t_id = None ->
  replacer recur (Re.Match g (page_id, t_id)) st
  = ("Unknown", warn ("Missing localization for key: "
                      ++ placeholder_key page_id t_id) st).
Proof.
  intros Hp Hm. unfold replacer. cbn [Re.groups Re.group0]. unfold_M.
  rewrite bool_decide_eq_false_2 by exact Hp. cbn [name_map processed_keys log].
  rewrite Hm. unfold default. cbn [from_option id]. rewrite String.eqb_refl.
  cbn [name_map processed_keys log]. rewrite removelast_snoc. reflexivity.
Qed.

Lemma replacer_present recur g page_id t_id value st :
  placeholder_key page_id t_id ∉ processed_keys st ->
  name_map st !! placeholder_key page_id t_id = Some value ->
  value <> "Unknown" ->
  replacer recur (Re.Match g (page_id, t_id)) st
  = let '(r, st') := recur value (snd (append_key (placeholder_key page_id t_id) st)) in
    (r, snd (pop_key st')).
Proof.
  intros Hp Hm Hv. unfold replacer. cbn [Re.groups Re.group0]. unfold_M.
  rewrite bool_decide_eq_false_2 by exact Hp. cbn [name_map processed_keys log snd].
  rewrite Hm. unfold default. cbn [from_option id].
  destruct (String.eqb_spec value "Unknown") as [E|_]; [contradiction|].
  reflexivity.
Qed.

Lemma resolve_placeholders_S d text st :
  resolve_placeholders (S d) text st
  = let '(current_text, st') :=
      passes (replacer (resolve_placeholders d)) text 0 (S d) text st in
    (strip_parentheticals current_text, st').
Proof. reflexivity. Qed.

Lemma passes_S repl text depth n current_text st :
  passes repl text depth (S n) current_text st
  = let '(new_text, st1) := sub_segments repl (Re.finditer Re.placeholder current_text) st in
    if String.eqb new_text current_text then (current_text, st1)
    else passes repl text (S depth) n new_text
           (snd (logger DEBUG ("Depth " ++ Py.str_of_int (Z.of_nat (S depth)) ++ ": "
                               ++ current_text ++ " -> " ++ new_text) st1)).
Proof.
  cbn [passes]. unfold re_sub. unfold_M.
  destruct (sub_segments repl _ st) as [new_text st1].
  destruct (String.eqb new_text current_text); reflexivity.
Qed.

Lemma sub_segments_hit {G} (repl : Re.rmatch G -> M string) m st :
  sub_segments repl [Re.Hit m] st = repl m st.
Proof.
  cbn [sub_segments]. unfold_M. destruct (repl m st) as [r st'].
  now rewrite app_empty_r.
Qed.

(** One level of the resolver on a concrete text: the first pass is
    unfolded and the text is cut into its segments. *)
Ltac enter_resolver :=
  rewrite resolve_placeholders_S, passes_S;
  match goal with
  | |- context [Re.finditer Re.placeholder ?s] =>
      let segs := eval vm_compute in (Re.finditer Re.placeholder s) in
      change (Re.finditer Re.placeholder s) with segs
  end;
  rewrite ?sub_segments_hit.

(** Closed string expressions are replaced by their values. *)
Ltac ground_strings :=
  repeat match goal with
    | |- context [strip_parentheticals ?s] =>
        let v := eval vm_compute in (strip_parentheticals s) in
        change (strip_parentheticals s) with v
    | |- context [String.eqb ?a ?b] =>
        let v := eval vm_compute in (String.eqb a b) in
        change (String.eqb a b) with v
    end;
  cbv iota.

(** C2. With the self-cycle ["1_1" -> "{1,1}"] in the map, the call
    [resolve("{1,1}", map)] returns: its result is the literal token
    [{1,1}], each level makes one pass (the log has the warning of the
    cycle, no pass that changed the text and no warning of the iteration
    bound), and the path is empty again. In general a token whose key is
    on the resolution path is returned as its literal text, whatever the
    recursive call would do: it is not called. *)
Theorem resolve_self_cycle :
  (forall m : gmap string string,
      m !! "1_1" = Some "{1,1}" ->
      run_resolve "{1,1}" m
      = ("{1,1}",
         Store m [] [(WARNING, "Circular reference detected for key: 1_1")]))
  /\ (forall (recur : string -> M string) (page_id t_id : string) (st : store),
        placeholder_key page_id t_id ∈ processed_keys st ->
        replacer recur (Re.Match (token page_id t_id) (page_id, t_id)) st
        = (token page_id t_id,
           Store (name_map st) (processed_keys st)
             (log st ++ [(WARNING, ("Circular reference detected for key: "
                                    ++ placeholder_key page_id t_id)%string)])%list)).
Proof.
  split.
  - intros m Hm. unfold run_resolve.
    enter_resolver.
    rewrite (replacer_present _ _ "1" "1" "{1,1}");
      [|apply not_elem_of_nil|exact Hm|discriminate].
    enter_resolver.
    rewrite replacer_cycle by (apply list_elem_of_singleton; reflexivity).
    reflexivity.
  - intros recur page_id t_id st H. now rewrite replacer_cycle.
Qed.

Lemma resolve_self_cycle_witness :
  (<["1_1" := "{1,1}"]> (∅ : gmap string string)) !! "1_1" = Some "{1,1}"
  /\ resolve "{1,1}" (<["1_1" := "{1,1}"]> ∅) = "{1,1}".
Proof.
  split; [reflexivity|].
  unfold resolve.
  rewrite (proj1 resolve_self_cycle (<["1_1" := "{1,1}"]> ∅)); reflexivity.
Defined.

(** C3. With ["1_1" -> "{1,2}"] and ["1_2" -> "Hello"] in the map,
    [resolve("{1,1}", map)] is ["Hello"]. In general the replacement of a
    token whose key is bound (and not on the path) is the result of the
    recursive call on the value, made with the key pushed on the path,
    and the key is popped behind it. *)
Theorem resolve_nested_token :
  (forall m : gmap string string,
      m !! "1_1" = Some "{1,2}" -> m !! "1_2" = Some "Hello" ->
      resolve "{1,1}" m = "Hello")
  /\ (forall (d : nat) (page_id t_id value : string) (st : store),
        placeholder_key page_id t_id ∉ processed_keys st ->
        name_map st !! placeholder_key page_id t_id = Some value ->
        value <> "Unknown" ->
        let key := placeholder_key page_id t_id in
        let inner :=
          resolve_placeholders d value
            (Store (name_map st) (processed_keys st ++ [key])%list (log st)) in
        replacer (resolve_placeholders d)
          (Re.Match (token page_id t_id) (page_id, t_id)) st
        = (fst inner, Store (name_map st) (processed_keys st) (log (snd inner)))).
Proof.
  split.
  - intros m H1 H2. unfold resolve, run_resolve.
    enter_resolver.
    rewrite (replacer_present _ _ "1" "1" "{1,2}");
      [|apply not_elem_of_nil|exact H1|discriminate].
    enter_resolver.
    rewrite (replacer_present _ _ "1" "2" "Hello");
      [|intros Hin; cbn in Hin; apply list_elem_of_singleton in Hin;
        vm_compute in Hin; discriminate Hin|exact H2|discriminate].
    rewrite resolve_placeholders_no_match by reflexivity.
    cbn [fst snd append_key pop_key logger name_map processed_keys log]; ground_strings.
    rewrite passes_no_match by reflexivity.
    cbn [fst snd append_key pop_key logger name_map processed_keys log]; ground_strings.
    rewrite passes_no_match by reflexivity.
    reflexivity.
  - intros d page_id t_id value st Hp Hm Hv key inner.
    rewrite (replacer_present _ _ _ _ value) by assumption.
    subst inner key. unfold append_key, pop_key. cbn [snd].
    match goal with |- context [resolve_placeholders d value ?st'] =>
      pose proof (frames_resolve_placeholders d value st') as [F1 F2];
      destruct (resolve_placeholders d value st') as [r st2] end.
    cbn [fst snd name_map processed_keys log] in *.
    now rewrite F1, F2, removelast_snoc.
Qed.

Lemma resolve_nested_token_witness :
  let m : gmap string string := <["1_1" := "{1,2}"]> (<["1_2" := "Hello"]> ∅) in
  m !! "1_1" = Some "{1,2}" /\ m !! "1_2" = Some "Hello"
  /\ resolve "{1,1}" m = "Hello".
Proof.
  intros m. split; [reflexivity|]. split; [reflexivity|].
  apply (proj1 resolve_nested_token m); reflexivity.
Defined.

(** ** Keys that the map does not bind *)

Lemma wf_path_initial m : wf_path (initial_store m).
Proof. constructor. Qed.

(** [replacer] recurses only behind a key it has found in the map. *)
Lemma wf_path_push st key value :
  wf_path st -> name_map st !! key = Some value ->
  wf_path (snd (append_key key st)).
Proof.
  intros Hw Hk. unfold wf_path, append_key. cbn.
  apply Forall_app. split; [exact Hw|]. constructor; [eauto|constructor].
Qed.

Lemma wf_path_frames {A} (c : M A) st :
  frames c -> wf_path st -> wf_path (snd (c st)).
Proof.
  intros Hc Hw. destruct (Hc st) as [H1 H2]. unfold wf_path. now rewrite H1, H2.
Qed.

Lemma absent_key_not_on_path st key :
  wf_path st -> name_map st !! key = None -> key ∉ processed_keys st.
Proof.
  intros Hw Hk Hin. unfold wf_path in Hw. rewrite Forall_forall in Hw.
  destruct (Hw key Hin) as [v Hv]. congruence.
Qed.

Lemma sub_segments_app {G} (repl : Re.rmatch G -> M string) segs1 segs2 st :
  sub_segments repl (segs1 ++ segs2)%list st
  = let '(o1, st1) := sub_segments repl segs1 st in
    let '(o2, st2) := sub_segments repl segs2 st1 in
    (o1 ++ o2, st2).
Proof.
  revert st. induction segs1 as [|[c|m] segs1 IH]; intros st.
  - cbn. unfold_M. now destruct (sub_segments repl segs2 st).
  - cbn. unfold_M. rewrite IH.
    destruct (sub_segments repl segs1 st) as [o1 st1].
    now destruct (sub_segments repl segs2 st1).
  - cbn. unfold_M. destruct (repl m st) as [r st0]. rewrite IH.
    destruct (sub_segments repl segs1 st0) as [o1 st1].
    destruct (sub_segments repl segs2 st1) as [o2 st2].
    now rewrite app_assoc'.
Qed.

(** C4. A token whose key the map does not bind is replaced by the
    literal ["Unknown"]. In a pass made from a store whose path holds
    bound keys only (the store of a caller, and every store in which the
    resolver recurses), the output is the output for the segments before
    the token, then ["Unknown"], then the output for the segments behind
    it; the token adds one warning to the log and no call of the
    resolver, whatever the depth left. And [resolve("{9,9}", map)] is
    ["Unknown"] for every map without the key ["9_9"]. *)
Theorem missing_key_gives_unknown :
  (forall (recur : string -> M string) (page_id t_id : string) (st : store),
      wf_path st ->
      name_map st !! placeholder_key page_id t_id = None ->
      replacer recur (Re.Match (token page_id t_id) (page_id, t_id)) st
      = ("Unknown",
         Store (name_map st) (processed_keys st)
           (log st ++ [(WARNING, ("Missing localization for key: "
                                  ++ placeholder_key page_id t_id)%string)])%list))
  /\ (forall (d : nat) (before behind : list (Re.segment (string * string)))
             (page_id t_id : string) (st : store),
        wf_path st ->
        name_map st !! placeholder_key page_id t_id = None ->
        let repl := replacer (resolve_placeholders d) in
        let '(o1, st1) := sub_segments repl before st in
        let '(o2, st2) :=
          sub_segments repl behind
            (warn ("Missing localization for key: " ++ placeholder_key page_id t_id) st1) in
        sub_segments repl
          (before ++ Re.Hit (Re.Match (token page_id t_id) (page_id, t_id)) :: behind)%list st
        = (o1 ++ "Unknown" ++ o2, st2))
  /\ (forall m : gmap string string,
        m !! "9_9" = None -> resolve "{9,9}" m = "Unknown").
Proof.
  split; [|split].
  - intros recur page_id t_id st Hw Hk.
    rewrite replacer_missing; auto using absent_key_not_on_path.
  - intros d before behind page_id t_id st Hw Hk repl.
    assert (Hf : frames (sub_segments repl before)).
    { apply frames_sub_segments. intros m.
      apply frames_replacer, frames_resolve_placeholders. }
    pose proof (wf_path_frames _ st Hf Hw) as Hw1.
    destruct (Hf st) as [F1 _].
    rewrite sub_segments_app.
    destruct (sub_segments repl before st) as [o1 st1]. cbn [snd] in *.
    cbn [sub_segments]. unfold_M. subst repl.
    rewrite replacer_missing;
      [|apply absent_key_not_on_path; [exact Hw1|now rewrite F1]|now rewrite F1].
    fold (sub_segments (replacer (resolve_placeholders d))).
    destruct (sub_segments _ behind _) as [o2 st2]. reflexivity.
  - intros m Hm. unfold resolve, run_resolve.
    enter_resolver.
    rewrite replacer_missing; [|apply not_elem_of_nil|exact Hm].
    cbn [fst snd]; ground_strings.
    rewrite passes_no_match by reflexivity.
    reflexivity.
Qed.

Lemma missing_key_gives_unknown_witness :
  wf_path (initial_store ∅)
  /\ name_map (initial_store ∅) !! placeholder_key "9" "9" = None
  /\ resolve "{9,9}" ∅ = "Unknown".
Proof.
  split; [constructor|]. split; [reflexivity|].
  apply (proj2 (proj2 missing_key_gives_unknown) ∅). reflexivity.
Defined.

(** ** The loaders *)

Lemma foldl_bind {A B C} (f : A -> B -> A) (g : C -> list B) (l : list C) (a : A) :
  foldl f a (l ≫= g) = foldl (fun a x => foldl f a (g x)) a l.
Proof.
  revert a. induction l as [|x l IH]; intros a; [reflexivity|].
  cbn. rewrite foldl_app. apply IH.
Qed.

Lemma foldl_omap {A B C} (f : A -> B -> A) (h : C -> option B) (l : list C) (a : A) :
  foldl f a (omap h l)
  = foldl (fun a x => match h x with Some b => f a b | None => a end) a l.
Proof.
  revert a. induction l as [|x l IH]; intros a; [reflexivity|].
  cbn. destruct (h x); cbn; apply IH.
Qed.

Lemma foldl_ext {A B} (f g : A -> B -> A) (l : list B) (a : A) :
  (forall a x, f a x = g a x) -> foldl f a l = foldl g a l.
Proof.
  intros H. revert a. induction l as [|x l IH]; intros a; [reflexivity|].
  cbn. now rewrite H, IH.
Qed.

Section LoaderFacts.
Context {V : Type} (payload : option string -> V).

#[local] Abbreviation bind_entry := (bind_entry payload).

Lemma load_page_entries name_map page :
  load_page payload name_map page = foldl bind_entry name_map (page_entries page).
Proof.
  unfold load_page, page_entries.
  destruct (truthy (attrib page !! "id")) as [page_id|]; [|reflexivity].
  rewrite foldl_omap. apply foldl_ext. intros m t.
  unfold load_t, t_entry. now destruct (truthy (attrib t !! "id")).
Qed.

Lemma load_localization_entries root :
  load_localization_with payload (Some root) = foldl bind_entry ∅ (entries root).
Proof.
  unfold load_localization_with, entries. rewrite foldl_bind.
  apply foldl_ext. intros m page. apply load_page_entries.
Qed.

Lemma foldl_bind_entry_lookup es m key :
  foldl bind_entry m es !! key
  = match last_payload key es with
    | Some p => Some (payload p)
    | None => m !! key
    end.
Proof.
  revert m. induction es as [|[k p] es IH]; intros m; [reflexivity|].
  cbn [foldl last_payload]. rewrite IH.
  destruct (last_payload key es); [reflexivity|].
  unfold bind_entry. cbn [fst snd].
  destruct (String.eqb_spec k key) as [->|Hne].
  - apply lookup_insert_eq.
  - now apply lookup_insert_ne.
Qed.

(** A loader binds a key to the value it makes of the last payload
    that the catalog gives for the key, and binds no other key. *)
Lemma load_localization_lookup root key :
  load_localization_with payload (Some root) !! key
  = payload <$> last_payload key (entries root).
Proof.
  rewrite load_localization_entries, foldl_bind_entry_lookup.
  destruct (last_payload key (entries root)); [reflexivity|apply lookup_empty].
Qed.
End LoaderFacts.

Lemma last_payload_elem key es :
  (exists p, (key, p) ∈ es) <-> is_Some (last_payload key es).
Proof.
  induction es as [|[k p] es IH]; cbn.
  - split; [intros [p H]; inversion H|intros [? [=]]].
  - split.
    + intros [q Hq]. destruct (last_payload key es); [eauto|].
      apply elem_of_cons in Hq as [[= -> ->]|Hq].
      * rewrite String.eqb_refl. eauto.
      * destruct (proj1 IH) as [? [=]]. eauto.
    + intros Hs. destruct (last_payload key es) eqn:E.
      * destruct (proj2 IH (mk_is_Some _ _ eq_refl)) as [q Hq].
        exists q. now right.
      * destruct (String.eqb_spec k key) as [->|]; [|destruct Hs as [? [=]]].
        exists p. now left.
Qed.

Lemma entries_elem root key p :
  (key, p) ∈ entries root
  <-> exists page page_id t t_id,
        page ∈ findall_desc "page" root
        /\ truthy (attrib page !! "id") = Some page_id
        /\ t ∈ findall_desc "t" page
        /\ truthy (attrib t !! "id") = Some t_id
        /\ key = page_id ++ "_" ++ t_id /\ p = text t.
Proof.
  unfold entries. rewrite list_elem_of_bind. split.
  - intros (page & He & Hp). unfold page_entries in He.
    destruct (truthy (attrib page !! "id")) as [page_id|] eqn:Ep; [|inversion He].
    apply list_elem_of_omap in He as (t & Ht & Hte). unfold t_entry in Hte.
    destruct (truthy (attrib t !! "id")) as [t_id|] eqn:Et; [|discriminate].
    injection Hte as <- <-. exists page, page_id, t, t_id.
    repeat split; assumption || reflexivity.
  - intros (page & page_id & t & t_id & Hp & Ep & Ht & Et & -> & ->).
    exists page. split; [|exact Hp]. unfold page_entries. rewrite Ep.
    apply list_elem_of_omap. exists t. split; [exact Ht|].
    unfold t_entry. now rewrite Et.
Qed.

(** For [get_factions_info.py] the value bound is the payload, or the
    empty string for a payload that is absent; every bound key comes from
    a page and an entry with identifiers. *)
Lemma factions_loader_binds root page page_id t t_id :
  page ∈ findall_desc "page" root ->
  truthy (attrib page !! "id") = Some page_id ->
  t ∈ findall_desc "t" page ->
  truthy (attrib t !! "id") = Some t_id ->
  exists p, last_payload (page_id ++ "_" ++ t_id) (entries root) = Some p
            /\ Factions.load_localization (Some root) !! (page_id ++ "_" ++ t_id)
               = Some (default "" p).
Proof.
  intros Hp Ep Ht Et.
  assert (H : (page_id ++ "_" ++ t_id, text t) ∈ entries root).
  { apply entries_elem. exists page, page_id, t, t_id. auto 10. }
  destruct (proj1 (last_payload_elem (page_id ++ "_" ++ t_id) (entries root)))
    as [p Hl]; [eauto|].
  exists p. split; [exact Hl|].
  unfold Factions.load_localization. now rewrite load_localization_lookup, Hl.
Qed.

Lemma factions_loader_only root key value :
  Factions.load_localization (Some root) !! key = Some value ->
  exists page page_id t t_id,
    page ∈ findall_desc "page" root
    /\ truthy (attrib page !! "id") = Some page_id
    /\ t ∈ findall_desc "t" page
    /\ truthy (attrib t !! "id") = Some t_id
    /\ key = page_id ++ "_" ++ t_id.
Proof.
  unfold Factions.load_localization. rewrite load_localization_lookup.
  intros H. destruct (last_payload key (entries root)) as [p|] eqn:E; [|discriminate].
  destruct (proj2 (last_payload_elem key (entries root))) as [q Hq].
  { rewrite E. eauto. }
  apply entries_elem in Hq as (page & page_id & t & t_id & ? & ? & ? & ? & ? & _).
  exists page, page_id, t, t_id. auto.
Qed.

(** C6. The loader of [wares_convert.py] binds a key to the payload as
    [ElementTree] gives it: for every catalog, the value of a key is the
    last payload the catalog has for it, [None] when that entry has no
    payload, where the loader of [get_factions_info.py] binds the empty
    string. On a catalog with the entry [<t id="2"/>] in page 1 the key
    ["1_2"] is bound to [None] by the first and to [""] by the loaders of
    [get_factions_info.py] and [map_get_names.py]. *)
Theorem wares_loader_absent_payload :
  (forall (root : element) (key : string),
      Wares.load_localization (Some root) !! key = last_payload key (entries root)
      /\ Factions.load_localization (Some root) !! key
         = default "" <$> last_payload key (entries root))
  /\ Wares.load_localization (Some empty_payload_catalog) !! "1_2" = Some None
  /\ Factions.load_localization (Some empty_payload_catalog) !! "1_2" = Some ""
  /\ MapNames.load_localization (Some empty_payload_catalog) !! "1_2" = Some "".
Proof.
  split; [|repeat split; vm_compute; reflexivity].
  intros root key. split.
  - unfold Wares.load_localization. rewrite load_localization_lookup.
    unfold Wares.payload. now destruct (last_payload key (entries root)).
  - unfold Factions.load_localization. now rewrite load_localization_lookup.
Qed.

(** ** The sort of the map rows *)

Lemma key_leb_spec a b : MapNames.key_leb a b = true <-> lex_le a b.
Proof. unfold MapNames.key_leb, lex_le. lia. Qed.

Lemma key_leb_false a b : MapNames.key_leb a b = false -> lex_le b a.
Proof.
  intros H. destruct (MapNames.key_leb a b) eqn:E; [discriminate|].
  unfold MapNames.key_leb, lex_le in *. lia.
Qed.



Lemma insert_row_perm x rows : MapNames.insert_row x rows ≡ₚ x :: rows.
Proof.
  induction rows as [|y rows IH]; cbn; [reflexivity|].
  destruct (MapNames.key_leb _ _); [reflexivity|].
  rewrite IH. apply Permutation_swap.
Qed.

Lemma sort_rows_perm rows : MapNames.sort_rows rows ≡ₚ rows.
Proof.
  induction rows as [|x rows IH]; cbn; [reflexivity|].
  rewrite insert_row_perm. now rewrite IH.
Qed.

Lemma insert_row_sorted x rows :
  Sorted row_le rows -> Sorted row_le (MapNames.insert_row x rows).
Proof.
  induction 1 as [|y rows Hs IH Hd]; cbn.
  - repeat constructor.
  - destruct (MapNames.key_leb _ _) eqn:E.
    + constructor; [now constructor|]. constructor. now apply key_leb_spec.
    + constructor; [exact IH|].
      destruct rows as [|z rows]; cbn.
      * constructor. now apply key_leb_false.
      * inversion Hd; subst. destruct (MapNames.key_leb _ (MapNames.sort_key z));
          constructor; [now apply key_leb_false|assumption].
Qed.

Lemma sort_rows_sorted rows : Sorted row_le (MapNames.sort_rows rows).
Proof.
  induction rows as [|x rows IH]; cbn; [constructor|].
  now apply insert_row_sorted.
Qed.

(** The sort is stable: the rows of one key keep their order. *)
Lemma insert_row_filter key x rows :
  List.filter (fun r => bool_decide (MapNames.sort_key r = key)) (MapNames.insert_row x rows)
  = List.filter (fun r => bool_decide (MapNames.sort_key r = key)) (x :: rows).
Proof.
  induction rows as [|y rows IH]; [reflexivity|].
  cbn [MapNames.insert_row]. destruct (MapNames.key_leb _ _) eqn:E; [reflexivity|].
  cbn [List.filter] in *. rewrite IH.
  destruct (bool_decide (MapNames.sort_key x = key)) eqn:Ex;
    destruct (bool_decide (MapNames.sort_key y = key)) eqn:Ey; try reflexivity.
  apply bool_decide_eq_true in Ex, Ey. rewrite Ex, Ey in E.
  unfold MapNames.key_leb in E. lia.
Qed.

Lemma sort_rows_stable key rows :
  List.filter (fun r => bool_decide (MapNames.sort_key r = key)) (MapNames.sort_rows rows)
  = List.filter (fun r => bool_decide (MapNames.sort_key r = key)) rows.
Proof.
  induction rows as [|x rows IH]; [reflexivity|].
  cbn [MapNames.sort_rows fold_right]. rewrite insert_row_filter.
  cbn [List.filter]. fold (MapNames.sort_rows rows). now rewrite IH.
Qed.

Lemma Sorted_consecutive {A} (R : A -> A -> Prop) l i a b :
  Sorted R l -> l !! i = Some a -> l !! S i = Some b -> R a b.
Proof.
  intros Hs. revert i. induction Hs as [|x l Hs IH Hd]; intros i Ha Hb.
  - discriminate.
  - destruct i as [|i]; cbn in *.
    + injection Ha as ->. destruct l as [|y l]; [discriminate|].
      injection Hb as ->. now inversion Hd.
    + eapply IH; eassumption.
Qed.


(** ** The map-sector extractor *)

Lemma process_dataset_ids excl nm source dataset r :
  MapNames.process_dataset excl nm source dataset = MapNames.Emit r ->
  MapNames.extract_cluster_sector (MapNames.macro r)
  = Some (MapNames.cluster_id r, MapNames.sector_id r, MapNames.entry_type r)
  /\ MapNames.source r = source.
Proof.
  unfold MapNames.process_dataset.
  destruct (truthy (attrib dataset !! "macro")) as [macro0|]; [|discriminate].
  destruct (existsb _ excl); [discriminate|].
  destruct (MapNames.extract_cluster_sector (Py.strip macro0)) as [[[c s] ty]|] eqn:E;
    [|discriminate].
  destruct (find_desc "identification" dataset) as [ident|]; [|discriminate].
  destruct (truthy (attrib ident !! "name")) as [name_attr|]; [|discriminate].
  intros [= <-]. cbn. split; [exact E|reflexivity].
Qed.

(** The rows of a loop: the rows of the steps that come before the first
    exception. *)
Lemma map_run_steps_elem steps r :
  r ∈ MapNames.run_steps steps
  <-> exists pre post,
        steps = (pre ++ MapNames.Emit r :: post)%list /\ MapNames.Raise ∉ pre.
Proof.
  split.
  - induction steps as [|st steps IH]; cbn [MapNames.run_steps]; [inversion 1|].
    destruct st as [|r'|].
    + intros H. destruct (IH H) as (pre & post & -> & Hpre).
      exists (MapNames.Skip :: pre), post. split; [reflexivity|].
      intros [E|E]%elem_of_cons; [discriminate E|exact (Hpre E)].
    + intros [->|H]%elem_of_cons.
      * exists [], steps. split; [reflexivity|apply not_elem_of_nil].
      * destruct (IH H) as (pre & post & -> & Hpre).
        exists (MapNames.Emit r' :: pre), post. split; [reflexivity|].
        intros [E|E]%elem_of_cons; [discriminate E|exact (Hpre E)].
    + inversion 1.
  - intros (pre & post & -> & Hpre). induction pre as [|st pre IH].
    + cbn. left.
    + assert (Hst : st <> MapNames.Raise) by (intros ->; apply Hpre; left).
      assert (Hrest : MapNames.Raise ∉ pre) by (intros H; apply Hpre; now right).
      destruct st as [|r'|]; cbn; [now apply IH|right; now apply IH|congruence].
Qed.

Lemma process_file_elem excl nm source root r :
  r ∈ MapNames.process_file excl nm (source, Some root)
  <-> exists earlier dataset later,
        findall_desc "dataset" root = (earlier ++ dataset :: later)%list
        /\ MapNames.process_dataset excl nm source dataset = MapNames.Emit r
        /\ Forall (fun d => MapNames.process_dataset excl nm source d <> MapNames.Raise)
             earlier.
Proof.
  unfold MapNames.process_file. cbn [fst snd]. rewrite map_run_steps_elem. split.
  - intros (pre & post & E & Hpre).
    apply fmap_app_inv in E as (earlier & rest & -> & Erest & ->).
    symmetry in Erest. apply fmap_cons_inv in Erest as (dataset & later & Hd & -> & ->).
    exists earlier, dataset, later. split; [reflexivity|]. split; [now symmetry|].
    apply Forall_forall. intros d Hin Hr. apply Hpre. rewrite <- Hr.
    now apply list_elem_of_fmap_2.
  - intros (earlier & dataset & later & -> & Hd & Hpre).
    exists (MapNames.process_dataset excl nm source <$> earlier),
           (MapNames.process_dataset excl nm source <$> later).
    split; [now rewrite fmap_app, fmap_cons, Hd|].
    intros (d & Hr & Hin)%list_elem_of_fmap.
    rewrite Forall_forall in Hpre. now apply (Hpre d Hin).
Qed.

Lemma process_mapdefaults_elem excl nm files r :
  r ∈ MapNames.process_mapdefaults excl nm files
  <-> exists source root earlier dataset later,
        (source, Some root) ∈ files
        /\ findall_desc "dataset" root = (earlier ++ dataset :: later)%list
        /\ MapNames.process_dataset excl nm source dataset = MapNames.Emit r
        /\ Forall (fun d => MapNames.process_dataset excl nm source d <> MapNames.Raise)
             earlier.
Proof.
  unfold MapNames.process_mapdefaults. rewrite sort_rows_perm.
  rewrite list_elem_of_bind. split.
  - intros ([source [root|]] & Hr & Hf); [|inversion Hr].
    apply process_file_elem in Hr as (earlier & dataset & later & E & Hd & Hpre).
    exists source, root, earlier, dataset, later. auto.
  - intros (source & root & earlier & dataset & later & Hf & E & Hd & Hpre).
    exists (source, Some root). split; [|exact Hf].
    apply process_file_elem. exists earlier, dataset, later. auto.
Qed.

(** C8. The rows of the map-sector extractor are written in ascending
    order of (cluster id, sector id): of two consecutive rows the first
    has the smaller or the same pair, in lexicographic order. The ids of
    a row are the ones read from its macro, the rows are the rows the
    files gave, and rows with the same pair keep the order in which they
    were read. *)
Theorem map_rows_sorted
    (exclude_patterns : list (string -> bool)) (name_map : gmap string string)
    (mapdefaults_files : list (string * document)) :
  let rows := MapNames.process_mapdefaults exclude_patterns name_map mapdefaults_files in
  let read := mapdefaults_files ≫= MapNames.process_file exclude_patterns name_map in
  (forall (i : nat) (r1 r2 : MapNames.row),
      rows !! i = Some r1 -> rows !! S i = Some r2 ->
      lex_le (MapNames.cluster_id r1, MapNames.sector_id r1)
             (MapNames.cluster_id r2, MapNames.sector_id r2))
  /\ (forall r : MapNames.row,
        r ∈ rows ->
        MapNames.extract_cluster_sector (MapNames.macro r)
        = Some (MapNames.cluster_id r, MapNames.sector_id r, MapNames.entry_type r))
  /\ rows ≡ₚ read
  /\ (forall key : Z * Z,
        List.filter (fun r => bool_decide (MapNames.sort_key r = key)) rows
        = List.filter (fun r => bool_decide (MapNames.sort_key r = key)) read)
  /\ MapNames.mapdefaults_csv exclude_patterns name_map mapdefaults_files
     = MapNames.csv_line <$> rows.
Proof.
  intros rows read. repeat split.
  - intros i r1 r2 H1 H2.
    apply (Sorted_consecutive row_le rows i r1 r2); auto.
    apply sort_rows_sorted.
  - intros r Hr.
    apply process_mapdefaults_elem in Hr as (source & root & pre & d & post & _ & _ & Hp & _).
    now apply process_dataset_ids in Hp.
  - apply sort_rows_perm.
  - intros key. apply sort_rows_stable.
Qed.

Lemma map_rows_sorted_witness :
  let rows := MapNames.process_mapdefaults MapNames.DEFAULT_EXCLUDE_PATTERNS
                example_names [("original", Some example_map_file)] in
  rows !! 1%nat = Some (MapNames.Row 2 0 "cluster" "Cluster_02_macro" "Hatikvah Cluster" "original")
  /\ rows !! 2%nat = Some (MapNames.Row 12 3 "sector" "Cluster_12_Sector003_macro" "Hatikvah" "original")
  /\ lex_le (2, 0)%Z (12, 3)%Z.
Proof.
  intros rows. split; [vm_compute; reflexivity|]. split; [vm_compute; reflexivity|].
  apply (proj1 (map_rows_sorted MapNames.DEFAULT_EXCLUDE_PATTERNS example_names
                  [("original", Some example_map_file)]) 1%nat
           (MapNames.Row 2 0 "cluster" "Cluster_02_macro" "Hatikvah Cluster" "original")
           (MapNames.Row 12 3 "sector" "Cluster_12_Sector003_macro" "Hatikvah" "original"));
    vm_compute; reflexivity.
Defined.





Lemma search_digits s : Re.search Re.digits s = has_digit s.
Proof.
  induction s as [|c s IH]; [reflexivity|].
  unfold has_digit in *. cbn. rewrite IH. f_equal.
  unfold Re.digits. cbn. destruct (Py.is_digit c).
  - destruct (Py.span Py.is_digit s). reflexivity.
  - reflexivity.
Qed.

Lemma findall_lits {G} (pat : Re.pattern G) s :
  Re.search pat s = false -> Re.findall pat s = [].
Proof.
  intros H. unfold Re.findall, Re.finditer. rewrite (scan_no_match _ _ H).
  unfold lits. induction (list_ascii_of_string s); [reflexivity|assumption].
Qed.


(** The runs of digits of a text are no longer than the text, and
    [strip] does not lengthen a text: a macro of at most 4300 characters
    makes no [int()] raise. *)
Lemma span_length p s :
  (String.length (fst (Py.span p s)) + String.length (snd (Py.span p s))
   = String.length s)%nat.
Proof.
  induction s as [|c s IH]; [reflexivity|]. cbn [Py.span].
  destruct (p c); [|reflexivity].
  destruct (Py.span p s) as [a b]. cbn in *. lia.
Qed.



Lemma scan_digits_length skip s :
  Forall (fun d => (String.length d <= String.length s)%nat)
    (omap (fun seg => match seg with
                      | Re.Hit m => Some (Re.group0 m)
                      | Re.Lit _ => None
                      end) (Re.scan Re.digits skip s)).
Proof.
  revert skip. induction s as [|c s IH]; intros skip; [constructor|].
  assert (Hw : forall k, Forall (fun d => (String.length d <= String.length (String c s))%nat)
                 (omap (fun seg => match seg with
                                   | Re.Hit m => Some (Re.group0 m)
                                   | Re.Lit _ => None
                                   end) (Re.scan Re.digits k s))).
  { intros k. eapply Forall_impl; [apply IH|]. cbn. intros d Hd. lia. }
  cbn [Re.scan]. destruct skip as [|k]; [|apply Hw].
  destruct (Re.digits (String c s)) as [m|] eqn:E; cbn [omap list_omap]; [|apply Hw].
  constructor; [|apply Hw].
  unfold Re.digits in E. pose proof (span_length Py.is_digit (String c s)) as Hl.
  destruct (fst (Py.span Py.is_digit (String c s))) as [|a d]; [discriminate E|].
  injection E as <-. cbn [Re.group0]. lia.
Qed.

Lemma int_of_digits_bounded d :
  (String.length d <= 4300)%nat ->
  MapNames.int_of_digits d = Some (Py.digits_value 0 d).
Proof.
  intros H. unfold MapNames.int_of_digits, Py.max_str_digits.
  now apply Nat.leb_le in H as ->.
Qed.

Lemma extract_cluster_sector_bounded macro :
  (String.length macro <= 4300)%nat ->
  MapNames.extract_cluster_sector macro
  = Some match Re.findall Re.digits macro with
         | n0 :: n1 :: _ => (Py.digits_value 0 n0, Py.digits_value 0 n1, "sector")
         | [n0] => (Py.digits_value 0 n0, 0%Z, "cluster")
         | [] => (0%Z, 0%Z, "unknown")
         end.
Proof.
  intros H. unfold MapNames.extract_cluster_sector.
  pose proof (scan_digits_length 0 macro) as Hall. fold (Re.finditer Re.digits macro) in Hall.
  fold (Re.findall Re.digits macro) in Hall.
  destruct (Re.findall Re.digits macro) as [|n0 [|n1 ns]]; [reflexivity| |].
  - inversion Hall as [|? ? H0 _]; subst.
    rewrite int_of_digits_bounded by lia. reflexivity.
  - inversion Hall as [|? ? H0 Hall']; subst. inversion Hall' as [|? ? H1 _]; subst.
    rewrite !int_of_digits_bounded by lia. reflexivity.
Qed.



(** It fails also behind an entry on which [int()] raises: the second
    entry of [long_run_file] has the macro ["galaxy_macro"] and an
    identification element with a name, and it is given a row when it
    stands alone; behind a macro with a run of 4301 digits the rest of
    the file is passed over and no row is written. *)
Lemma no_digit_entry_behind_long_run :
  MapNames.macro <$> MapNames.process_mapdefaults MapNames.DEFAULT_EXCLUDE_PATTERNS
                      example_names
                      [("original",
                        Some (Element "defaults" ∅ None
                                [dataset_of "galaxy_macro" "{20003,30}"]))]
  = ["galaxy_macro"]
  /\ MapNames.process_mapdefaults MapNames.DEFAULT_EXCLUDE_PATTERNS example_names
       [("original", Some long_run_file)] = [].
Proof. split; vm_compute; reflexivity. Qed.



(** ** The ware extractor *)

Lemma run_steps_elem {A B} (body : A -> Wares.step B) xs b :
  b ∈ fst (Wares.run_steps body xs) -> exists x, x ∈ xs /\ body x = Wares.Emit b.
Proof.
  induction xs as [|x xs IH]; cbn; [inversion 1|].
  destruct (body x) as [|b'|] eqn:E.
  - intros H. destruct (IH H) as (y & Hy & Ey). exists y. split; [now right|exact Ey].
  - destruct (Wares.run_steps body xs) as [bs ok]. cbn in *.
    intros [->|H]%elem_of_cons.
    + exists x. split; [now left|exact E].
    + destruct (IH H) as (y & Hy & Ey). exists y. split; [now right|exact Ey].
  - inversion 1.
Qed.

Lemma process_all_wares_elem float_of_str nm files r :
  r ∈ fst (Wares.process_all_wares float_of_str nm files) ->
  exists source root ware,
    (source, Some root) ∈ files
    /\ ware ∈ findall_desc "ware" root
    /\ Wares.process_ware float_of_str nm source ware = Wares.Emit r.
Proof.
  induction files as [|[source [root|]] files IH]; cbn; [inversion 1| |inversion 1].
  destruct (Wares.run_steps _ (findall_desc "ware" root)) as [rows ok] eqn:E.
  assert (Hrows : r ∈ rows -> exists source' root' ware,
             (source', Some root') ∈ (source, Some root) :: files
             /\ ware ∈ findall_desc "ware" root'
             /\ Wares.process_ware float_of_str nm source' ware = Wares.Emit r).
  { intros H. destruct (run_steps_elem (Wares.process_ware float_of_str nm source)
                          (findall_desc "ware" root) r) as (w & Hw & Ew).
    - now rewrite E.
    - exists source, root, w. split; [now left|auto]. }
  destruct ok; [|exact Hrows].
  destruct (Wares.process_all_wares float_of_str nm files) as [rows' ok']. cbn in *.
  intros [H|H]%elem_of_app; [now apply Hrows|].
  destruct (IH H) as (s' & r' & w & Hf & Hw & Ew).
  exists s', r', w. split; [now right|auto].
Qed.

Lemma process_ware_emit float_of_str nm source ware r :
  Wares.process_ware float_of_str nm source ware = Wares.Emit r ->
  exists name_ref price lo hi,
    parse_name_reference (attrib ware !! "name") = Some name_ref
    /\ find_child "price" ware = Some price
    /\ truthy (attrib price !! "min") = Some (Wares.min r)
    /\ truthy (attrib price !! "max") = Some (Wares.max r)
    /\ float_of_str (Wares.min r) = Some lo
    /\ float_of_str (Wares.max r) = Some hi
    /\ r = Wares.Row (default (Some "Unknown") (nm !! name_ref))
             (Wares.min r) (Wares.max r)
             (Wares.format_0f (Wares.avg (Wares.calculate_price_ranges lo hi)))
             (Wares.format_0f (Wares.r30_min (Wares.calculate_price_ranges lo hi)))
             (Wares.format_0f (Wares.r30_max (Wares.calculate_price_ranges lo hi)))
             (Wares.format_0f (Wares.r50_min (Wares.calculate_price_ranges lo hi)))
             (Wares.format_0f (Wares.r50_max (Wares.calculate_price_ranges lo hi)))
             (Wares.format_0f (Wares.r70_min (Wares.calculate_price_ranges lo hi)))
             (Wares.format_0f (Wares.r70_max (Wares.calculate_price_ranges lo hi)))
             (Wares.transport r) source.
Proof.
  unfold Wares.process_ware.
  destruct (bool_decide _); [discriminate|].
  destruct (attrib ware !! "transport") as [transport|]; [|discriminate].
  destruct (bool_decide _); [|discriminate].
  destruct (find_child "price" ware) as [price|]; [|discriminate].
  destruct (parse_name_reference _) as [name_ref|]; [|discriminate].
  destruct (truthy (attrib price !! "min")) as [min_price|] eqn:Emin; [|discriminate].
  destruct (truthy (attrib price !! "max")) as [max_price|] eqn:Emax; [|discriminate].
  destruct (float_of_str min_price) as [lo|] eqn:Elo;
    [|destruct (float_of_str max_price); discriminate].
  destruct (float_of_str max_price) as [hi|] eqn:Ehi; [|discriminate].
  intros [= <-]. cbn. exists name_ref, price, lo, hi.
  repeat split; assumption || reflexivity.
Qed.

(** C5, as the claim states it, fails: the ware of [example_ware_file]
    has the name reference [{1,1}], the map binds ["1_1"] to
    ["{1,2} (x)"], and that value is the name written; the resolver gives
    ["Hello"] for the reference and for the value. *)
Lemma ware_name_is_not_resolved :
  Wares.name <$> fst (Wares.process_all_wares Wares.float_of_digits
                        example_ware_names [("original", Some example_ware_file)])
  = [Some "{1,2} (x)"]
  /\ resolve "{1,1}" example_ware_names_str = "Hello"
  /\ resolve "{1,2} (x)" example_ware_names_str = "Hello".
Proof. repeat split; vm_compute; reflexivity. Qed.

(** C5, amended. Every line that the ware extractor writes is the line
    of a ware of a file that was read, and its name is the value that
    the map binds to the key of the name reference of that same ware (as
    [parse_name_reference] reads it), taken as it is, and ['Unknown']
    when the map does not bind the key. *)
Theorem ware_name_is_map_value
    (float_of_str : string -> option Wares.float)
    (name_map : gmap string (option string)) :
  (forall (source : string) (ware : element) (r : Wares.row),
      Wares.process_ware float_of_str name_map source ware = Wares.Emit r ->
      exists name_ref : string,
        parse_name_reference (attrib ware !! "name") = Some name_ref
        /\ Wares.name r = default (Some "Unknown") (name_map !! name_ref))
  /\ (forall (wares_files : list (string * document)) (r : Wares.row),
        r ∈ fst (Wares.process_all_wares float_of_str name_map wares_files) ->
        exists (source : string) (root ware : element) (name_ref : string),
          (source, Some root) ∈ wares_files
          /\ ware ∈ findall_desc "ware" root
          /\ Wares.process_ware float_of_str name_map source ware = Wares.Emit r
          /\ parse_name_reference (attrib ware !! "name") = Some name_ref
          /\ Wares.name r = default (Some "Unknown") (name_map !! name_ref)).
Proof.
  assert (Hware : forall source ware r,
             Wares.process_ware float_of_str name_map source ware = Wares.Emit r ->
             exists name_ref : string,
               parse_name_reference (attrib ware !! "name") = Some name_ref
               /\ Wares.name r = default (Some "Unknown") (name_map !! name_ref)).
  { intros source ware r He.
    apply process_ware_emit in He
      as (name_ref & price & lo & hi & Hn & _ & _ & _ & _ & _ & Hr).
    exists name_ref. split; [exact Hn|]. rewrite Hr. reflexivity. }
  split; [exact Hware|].
  intros wares_files r H.
  apply process_all_wares_elem in H as (source & root & ware & Hf & Hw & He).
  destruct (Hware _ _ _ He) as (name_ref & Hn & Hname).
  exists source, root, ware, name_ref. auto.
Qed.

Lemma ware_name_is_map_value_witness :
  let ware := hd (Element "" ∅ None []) (children example_ware_file) in
  let r := Wares.Row (Some "{1,2} (x)") "10" "20" "15" "14" "16" "12" "18" "12" "18"
             "container" "original" in
  Wares.process_ware Wares.float_of_digits example_ware_names "original" ware
  = Wares.Emit r
  /\ exists name_ref : string,
       parse_name_reference (attrib ware !! "name") = Some name_ref
       /\ Wares.name r = default (Some "Unknown") (example_ware_names !! name_ref).
Proof.
  intros ware r.
  assert (H : Wares.process_ware Wares.float_of_digits example_ware_names "original" ware
              = Wares.Emit r) by (vm_compute; reflexivity).
  split; [exact H|].
  exact (proj1 (ware_name_is_map_value Wares.float_of_digits example_ware_names) _ _ _ H).
Defined.




(** The operations give not-a-number only from not-a-number or from
    infinite operands. *)

Section FloatFacts.
#[local] Open Scope Z_scope.















End FloatFacts.




(** * Further properties *)

(** ** Trimming *)

Lemma lstrip_with_head p s :
  match Py.lstrip_with p s with
  | String c _ => p c = false
  | EmptyString => True
  end.
Proof. unfold Py.lstrip_with. apply span_spec. Qed.

Lemma lstrip_with_id p s :
  match s with String c _ => p c = false | EmptyString => True end ->
  Py.lstrip_with p s = s.
Proof.
  unfold Py.lstrip_with. destruct s as [|c s]; [reflexivity|].
  cbn. now intros ->.
Qed.

Lemma rstrip_with_cons p c s :
  Py.rstrip_with p (String c s)
  = match Py.rstrip_with p s with
    | EmptyString => if p c then "" else String c ""
    | r => String c r
    end.
Proof. reflexivity. Qed.

Lemma rstrip_with_idem p s :
  Py.rstrip_with p (Py.rstrip_with p s) = Py.rstrip_with p s.
Proof.
  induction s as [|c s IH]; [reflexivity|]. rewrite rstrip_with_cons.
  destruct (Py.rstrip_with p s) as [|c' r] eqn:E.
  - destruct (p c) eqn:Hc; [reflexivity|]. cbn. now rewrite Hc.
  - rewrite rstrip_with_cons, IH. reflexivity.
Qed.

Lemma rstrip_with_head p s :
  match s with String c _ => p c = false | EmptyString => True end ->
  match Py.rstrip_with p s with String c _ => p c = false | EmptyString => True end.
Proof.
  destruct s as [|c s]; [trivial|]. cbn. intros Hc.
  destruct (Py.rstrip_with p s); [now rewrite Hc|exact Hc].
Qed.

Lemma strip_idem s : Py.strip (Py.strip s) = Py.strip s.
Proof.
  unfold Py.strip.
  rewrite (lstrip_with_id Py.is_space (Py.rstrip_with _ _)).
  - apply rstrip_with_idem.
  - apply rstrip_with_head, lstrip_with_head.
Qed.

(** ** The scan behind a match, and the cleaning of annotations *)

Lemma length_app a b : String.length (a ++ b) = (String.length a + String.length b)%nat.
Proof. induction a as [|c a IH]; [reflexivity|]. rewrite app_String. cbn. now rewrite IH. Qed.

Lemma scan_skip {G} (pat : Re.pattern G) a rest :
  Re.scan pat (String.length a) (a ++ rest) = Re.scan pat 0 rest.
Proof.
  induction a as [|c a IH]; [reflexivity|]. rewrite app_String. cbn. exact IH.
Qed.

Lemma scan_hit {G} (pat : Re.pattern G) s m rest :
  pat s = Some m -> s = Re.group0 m ++ rest -> Re.group0 m <> "" ->
  Re.scan pat 0 s = Re.Hit m :: Re.scan pat 0 rest.
Proof.
  intros Hm Hs Hne. destruct (Re.group0 m) as [|c g] eqn:Eg; [congruence|].
  rewrite app_String in Hs. subst s. cbn [Re.scan]. rewrite Hm, Eg.
  cbn [String.length]. rewrite Nat.sub_1_r. cbn [Nat.pred].
  now rewrite scan_skip.
Qed.

Lemma sub_str_lit {G} (pat : Re.pattern G) repl c s :
  pat (String c s) = None ->
  Re.sub_str pat repl (String c s) = String c (Re.sub_str pat repl s).
Proof. intros H. unfold Re.sub_str, Re.finditer. cbn [Re.scan]. now rewrite H. Qed.

Lemma sub_str_hit {G} (pat : Re.pattern G) repl s m rest :
  pat s = Some m -> s = Re.group0 m ++ rest -> Re.group0 m <> "" ->
  Re.sub_str pat repl s = repl ++ Re.sub_str pat repl rest.
Proof.
  intros Hm Hs Hne. unfold Re.sub_str, Re.finditer.
  now rewrite (scan_hit pat s m rest Hm Hs Hne).
Qed.

Lemma sub_str_no_match {G} (pat : Re.pattern G) repl s :
  Re.search pat s = false -> Re.sub_str pat repl s = s.
Proof.
  induction s as [|c s IH]; [reflexivity|]. cbn [Re.search].
  intros [Hm Hs]%orb_false_iff. rewrite sub_str_lit, IH; auto.
  destruct (pat (String c s)); [|reflexivity].
  apply bool_decide_eq_false in Hm. destruct Hm. eauto.
Qed.

Lemma annotation_inv s m :
  Re.annotation s = Some m ->
  exists ws body rest,
    s = Re.group0 m ++ rest /\ Re.group0 m = ws ++ "(" ++ body ++ ")".
Proof.
  unfold Re.annotation.
  pose proof (span_spec Py.is_space s) as (E1 & _ & _).
  destruct (Py.span Py.is_space s) as [ws s1]; cbn [fst snd] in *.
  destruct s1 as [|c1 s2]; [discriminate|].
  destruct (Ascii.eqb_spec c1 "(") as [->|Hc].
  2:{ destruct c1 as [[] [] [] [] [] [] [] []]; try discriminate. congruence. }
  pose proof (span_spec (fun c => negb (Ascii.eqb c ")")) s2) as (E2 & _ & _).
  destruct (Py.span _ s2) as [body s3]; cbn [fst snd] in *.
  destruct s3 as [|c3 rest]; [discriminate|].
  destruct (Ascii.eqb_spec c3 ")") as [->|Hc3].
  2:{ destruct c3 as [[] [] [] [] [] [] [] []]; try discriminate. congruence. }
  intros [= <-]. exists ws, body, rest. cbn [Re.group0]. split; [|reflexivity].
  rewrite E1, E2. rewrite !app_assoc', !app_String, !app_empty_l. reflexivity.
Qed.

Lemma has_close_app a b : has_close (a ++ b) = has_close a || has_close b.
Proof.
  induction a as [|c a IH]; [reflexivity|].
  rewrite app_String. unfold has_close in *. cbn. now rewrite IH, orb_assoc.
Qed.

Lemma open_then_close_app_r a b :
  open_then_close (a ++ b) = false -> open_then_close b = false.
Proof.
  induction a as [|c a IH]; [now rewrite app_empty_l|].
  rewrite app_String. cbn. intros [_ H]%orb_false_iff. auto.
Qed.

(** An opening parenthesis at which the pattern does not match has no
    closing parenthesis behind it. *)
Lemma annotation_none_open s :
  Re.annotation (String "(" s) = None -> has_close s = false.
Proof.
  unfold Re.annotation. cbn [Py.span]. change (Py.is_space "(") with false. cbv iota.
  pose proof (span_spec (fun c => negb (Ascii.eqb c ")")) s) as (E & Hb & Hh).
  destruct (Py.span _ s) as [body s3]; cbn [fst snd] in *.
  destruct s3 as [|c3 rest].
  - intros _. rewrite E, app_empty_r. unfold has_close.
    clear E. induction Hb as [|c l Hc Hl IH]; [reflexivity|].
    cbn [existsb]. rewrite IH, orb_false_r. apply negb_true_iff in Hc.
    now rewrite Ascii.eqb_sym.
  - apply negb_false_iff, Ascii.eqb_eq in Hh. subst c3. discriminate.
Qed.

Lemma open_then_close_app_l a b :
  open_then_close b = true -> open_then_close (a ++ b) = true.
Proof.
  intros H. induction a as [|c a IH]; [now rewrite app_empty_l|].
  rewrite app_String. cbn. rewrite IH. apply orb_true_r.
Qed.

Lemma open_then_close_group body rest :
  open_then_close ("(" ++ (body ++ ")") ++ rest) = true.
Proof.
  rewrite app_String, app_empty_l. cbn [open_then_close].
  rewrite !has_close_app. cbn. now rewrite orb_true_r.
Qed.

Lemma search_annotation s : Re.search Re.annotation s = open_then_close s.
Proof.
  induction s as [|c s IH]; [reflexivity|]. cbn [Re.search].
  rewrite IH. clear IH.
  destruct (Re.annotation (String c s)) as [m|] eqn:Em.
  - rewrite bool_decide_eq_true_2 by eauto. rewrite orb_true_l. symmetry.
    destruct (annotation_inv _ _ Em) as (ws & body & rest & Hs & Hg).
    rewrite Hs, Hg, app_assoc'. apply open_then_close_app_l.
    rewrite <- app_assoc'. apply open_then_close_group.
  - rewrite bool_decide_eq_false_2 by (intros [? [=]]). rewrite orb_false_l.
    cbn [open_then_close].
    destruct (Ascii.eqb_spec c "(") as [->|_]; [|reflexivity].
    now rewrite (annotation_none_open s Em).
Qed.

Lemma has_close_open_then_close s :
  has_close s = false -> open_then_close s = false.
Proof.
  induction s as [|c s IH]; [reflexivity|]. unfold has_close in *. cbn.
  intros [_ H]%orb_false_iff. rewrite (IH H).
  fold (has_close s). unfold has_close. rewrite H. now rewrite andb_false_r.
Qed.

Lemma sub_annotation_open_then_close n s :
  (String.length s <= n)%nat ->
  open_then_close (Re.sub_str Re.annotation "" s) = false.
Proof.
  revert s. induction n as [|n IH]; intros s Hn.
  - destruct s; [reflexivity|cbn in Hn; lia].
  - destruct s as [|c s]; [reflexivity|].
    destruct (Re.annotation (String c s)) as [m|] eqn:Em.
    + destruct (annotation_inv _ _ Em) as (ws & body & rest & Hs & Hg).
      assert (Hne : Re.group0 m <> "").
      { rewrite Hg. destruct ws; discriminate. }
      rewrite (sub_str_hit _ _ _ m rest Em Hs Hne), app_empty_l.
      apply IH. rewrite Hs, length_app in Hn.
      destruct (Re.group0 m); [congruence|]. cbn in Hn. lia.
    + rewrite (sub_str_lit _ _ _ _ Em). cbn [open_then_close].
      rewrite IH by (cbn in Hn; lia). rewrite orb_false_r.
      destruct (Ascii.eqb_spec c "(") as [->|_]; [|reflexivity].
      pose proof (annotation_none_open s Em) as Hc.
      rewrite sub_str_no_match; [now rewrite Hc|].
      rewrite search_annotation. now apply has_close_open_then_close.
Qed.

Lemma has_close_rstrip p s :
  has_close s = false -> has_close (Py.rstrip_with p s) = false.
Proof.
  induction s as [|c s IH]; [reflexivity|].
  unfold has_close in *. cbn [list_ascii_of_string existsb].
  intros [Hc Hs]%orb_false_iff. rewrite rstrip_with_cons.
  specialize (IH Hs). destruct (Py.rstrip_with p s) as [|c' r].
  - destruct (p c); [reflexivity|]. cbn [list_ascii_of_string existsb].
    now rewrite Hc.
  - cbn [list_ascii_of_string existsb] in *. now rewrite Hc.
Qed.

Lemma open_then_close_rstrip p s :
  open_then_close s = false -> open_then_close (Py.rstrip_with p s) = false.
Proof.
  induction s as [|c s IH]; [reflexivity|]. cbn [open_then_close].
  intros [Hc Hs]%orb_false_iff. rewrite rstrip_with_cons.
  specialize (IH Hs). destruct (Py.rstrip_with p s) as [|c' r] eqn:E.
  - destruct (p c); [reflexivity|]. cbn [open_then_close].
    unfold has_close. cbn. now rewrite andb_false_r.
  - rewrite <- E in IH |- *. cbn [open_then_close]. rewrite IH, orb_false_r.
    destruct (Ascii.eqb c "("); [|reflexivity]. cbn [andb] in Hc |- *.
    now apply has_close_rstrip.
Qed.

Lemma open_then_close_strip s :
  open_then_close s = false -> open_then_close (Py.strip s) = false.
Proof.
  intros H. unfold Py.strip. apply open_then_close_rstrip.
  unfold Py.lstrip_with. destruct (span_spec Py.is_space s) as (E & _ & _).
  rewrite E in H. now apply open_then_close_app_r in H.
Qed.

Lemma strip_parentheticals_clean s :
  open_then_close (strip_parentheticals s) = false
  /\ trimmed (strip_parentheticals s)
  /\ strip_parentheticals (strip_parentheticals s) = strip_parentheticals s.
Proof.
  assert (H : open_then_close (strip_parentheticals s) = false).
  { apply open_then_close_strip, (sub_annotation_open_then_close (String.length s)). lia. }
  split; [exact H|]. split; [apply strip_idem|].
  unfold strip_parentheticals at 1.
  rewrite sub_str_no_match by (now rewrite search_annotation).
  apply strip_idem.
Qed.

Lemma resolve_placeholders_result max_depth text st :
  exists current_text,
    fst (resolve_placeholders max_depth text st) = strip_parentheticals current_text.
Proof.
  destruct max_depth as [|d]; cbn [resolve_placeholders]; unfold_M.
  - eexists. reflexivity.
  - destruct (passes _ text 0 (S d) text st) as [cur st']. eexists. reflexivity.
Qed.

(** X1. Whatever the depth left, the text and the store, the text the
    resolver returns holds no opening parenthesis with a closing one
    behind it (so the pattern of the annotations has no match in it), it
    neither starts nor ends with white space, and cleaning it once more
    gives it back. *)
Theorem resolved_text_is_clean (max_depth : nat) (text : string) (st : store) :
  let r := fst (resolve_placeholders max_depth text st) in
  open_then_close r = false
  /\ Re.search Re.annotation r = false
  /\ Py.strip r = r
  /\ strip_parentheticals r = r.
Proof.
  intros r. destruct (resolve_placeholders_result max_depth text st) as [cur E].
  subst r. rewrite E.
  destruct (strip_parentheticals_clean cur) as (H1 & H2 & H3).
  rewrite search_annotation. auto.
Qed.

Lemma resolve_clean text m :
  open_then_close (resolve text m) = false /\ Py.strip (resolve text m) = resolve text m.
Proof.
  unfold resolve, run_resolve.
  destruct (resolve_placeholders_result 10 text (initial_store m)) as [cur E].
  rewrite E. destruct (strip_parentheticals_clean cur) as (H1 & H2 & _). auto.
Qed.

(** ** The cleaning, said without the functions that do it *)

Lemma rstrip_with_spec p s :
  exists b,
    s = Py.rstrip_with p s ++ b
    /\ Forall (fun c => p c = true) (list_ascii_of_string b)
    /\ (forall c, last_char (Py.rstrip_with p s) = Some c -> p c = false).
Proof.
  induction s as [|c s (b & E & Hb & Hlast)].
  - exists "". repeat split; [constructor|discriminate].
  - rewrite rstrip_with_cons. destruct (Py.rstrip_with p s) as [|c' r] eqn:Er.
    + rewrite app_empty_l in E. subst b. destruct (p c) eqn:Hc.
      * exists (String c s). repeat split; [now constructor|discriminate].
      * exists s. repeat split; [exact Hb|]. cbn. intros ? [= <-]. exact Hc.
    + exists b. split; [now rewrite app_String, <- E|]. split; [exact Hb|].
      intros x Hx. apply Hlast. exact Hx.
Qed.

Lemma strip_trim_of s : trim_of s (Py.strip s).
Proof.
  unfold Py.strip, Py.lstrip_with.
  destruct (span_spec Py.is_space s) as (E & Ha & Hhd).
  destruct (rstrip_with_spec Py.is_space (snd (Py.span Py.is_space s)))
    as (b & Eb & Hb & Hlast).
  split; [|split].
  - exists (fst (Py.span Py.is_space s)), b. split; [|split; assumption].
    rewrite <- Eb. exact E.
  - pose proof (rstrip_with_head Py.is_space _ Hhd) as H.
    destruct (Py.rstrip_with Py.is_space (snd (Py.span Py.is_space s))) as [|x r];
      [discriminate|].
    cbn. intros ? [= <-]. exact H.
  - exact Hlast.
Qed.

Lemma annotation_sound s m :
  Re.annotation s = Some m ->
  exists rest, s = Re.group0 m ++ rest /\ is_annotation (Re.group0 m)
               /\ Re.group0 m <> "".
Proof.
  unfold Re.annotation.
  destruct (span_spec Py.is_space s) as (E & Hws & _).
  destruct (Py.span Py.is_space s) as [ws s1]. cbn [fst snd] in *.
  destruct s1 as [|c s2]; [discriminate|].
  destruct c as [[] [] [] [] [] [] [] []]; try discriminate.
  destruct (span_spec (fun c => negb (Ascii.eqb c ")")) s2) as (E2 & Hbody & _).
  destruct (Py.span (fun c => negb (Ascii.eqb c ")")) s2) as [body s3]. cbn [fst snd] in *.
  destruct s3 as [|c3 rest]; [discriminate|].
  destruct c3 as [[] [] [] [] [] [] [] []]; try discriminate.
  intros [= <-]. cbn [Re.group0]. exists rest. split; [|split].
  - rewrite E, E2. rewrite !app_assoc'. reflexivity.
  - exists ws, body. split; [reflexivity|]. split; [exact Hws|].
    eapply Forall_impl; [exact Hbody|]. cbn. intros c Hc ->. discriminate Hc.
  - destruct ws; discriminate.
Qed.

Lemma annotation_complete g rest :
  is_annotation g -> Re.annotation (g ++ rest) = Some (Re.Match g tt).
Proof.
  intros (ws & body & -> & Hws & Hbody). unfold Re.annotation.
  rewrite !app_assoc'. rewrite (span_app Py.is_space ws _ Hws) by reflexivity.
  rewrite app_String, app_empty_l.
  rewrite (span_app (fun c => negb (Ascii.eqb c ")")) body (")" ++ rest)).
  - rewrite app_String. reflexivity.
  - eapply Forall_impl; [exact Hbody|]. cbn. intros c Hc.
    destruct (Ascii.eqb_spec c ")"); [contradiction|reflexivity].
  - reflexivity.
Qed.

Lemma sub_annotation_cut s :
  cut_annotations s (Re.sub_str Re.annotation "" s).
Proof.
  remember (String.length s) as n eqn:Hn. revert s Hn.
  induction n as [n IH] using lt_wf_ind. intros s ->.
  destruct s as [|c s]; [constructor|].
  destruct (Re.annotation (String c s)) as [m|] eqn:E.
  - destruct (annotation_sound _ _ E) as (rest & Es & Hann & Hne).
    rewrite (sub_str_hit _ _ _ _ rest E Es Hne), app_empty_l. rewrite Es.
    apply cut_hit; [exact Hann|]. apply (IH (String.length rest)); [|reflexivity].
    rewrite Es, length_app. destruct (Re.group0 m); [congruence|]. cbn. lia.
  - rewrite (sub_str_lit _ _ _ _ E). apply cut_keep.
    + intros (g & rest & Hg & Es). pose proof (annotation_complete g rest Hg) as Hm.
      rewrite <- Es in Hm. congruence.
    + apply (IH (String.length s)); [cbn; lia|reflexivity].
Qed.

Lemma strip_parentheticals_spec s :
  exists cut, cut_annotations s cut /\ trim_of cut (strip_parentheticals s).
Proof.
  exists (Re.sub_str Re.annotation "" s). split; [apply sub_annotation_cut|].
  apply strip_trim_of.
Qed.

Lemma app_inv_head' a b c : a ++ b = a ++ c -> b = c.
Proof.
  induction a as [|x a IH]; [trivial|]. rewrite !app_String. intros [= H]. auto.
Qed.

Lemma is_annotation_nonempty g : is_annotation g -> g <> "".
Proof.
  intros (ws & body & -> & _ & _). destruct ws; discriminate.
Qed.

(** The cut is determined by the text. *)
Lemma cut_annotations_unique s r r' :
  cut_annotations s r -> cut_annotations s r' -> r = r'.
Proof.
  intros H. revert r'. induction H as [|g s r Hg _ IH|c s r Hno _ IH]; intros r' H'.
  - inversion H' as [|g' s' ? Hg' _ E|]; [reflexivity|].
    apply is_annotation_nonempty in Hg'. destruct g'; [congruence|discriminate E].
  - inversion H' as [E|g' s' ? Hg' Hs' E|c' s' r1 Hno' _ E].
    + apply is_annotation_nonempty in Hg. destruct g; [congruence|discriminate E].
    + pose proof (annotation_complete g s Hg) as H1.
      pose proof (annotation_complete g' s' Hg') as H2.
      assert (Eg : g' = g) by (rewrite E in H2; congruence). subst g'.
      apply app_inv_head' in E. subst s'. apply IH, Hs'.
    + destruct Hno'. exists g, s. auto.
  - inversion H' as [|g' s' ? Hg' _ E|c' s' r1 _ Hs']; subst.
    + destruct Hno. exists g', s'. auto.
    + f_equal. apply IH, Hs'.
Qed.

Lemma all_space_app a b : all_space (a ++ b) <-> all_space a /\ all_space b.
Proof.
  unfold all_space. induction a as [|c a IH].
  - rewrite app_empty_l. split; [intros H; split; [constructor|exact H]|now intros [_ H]].
  - rewrite app_String. cbn [list_ascii_of_string]. rewrite !Forall_cons, IH. tauto.
Qed.

Lemma all_space_first s c : all_space s -> first_char s = Some c -> Py.is_space c = true.
Proof. destruct s; [discriminate|]. intros H [= <-]. now inversion H. Qed.

Lemma all_space_last s c : all_space s -> last_char s = Some c -> Py.is_space c = true.
Proof.
  induction s as [|x s IH]; [discriminate|]. intros H Hl. inversion H as [|? ? Hx Hs]; subst.
  destruct s as [|y s]; [injection Hl as <-; exact Hx|]. apply IH; assumption.
Qed.

Lemma first_char_app r b :
  r <> "" -> first_char (r ++ b) = first_char r.
Proof. destruct r; [congruence|reflexivity]. Qed.

Lemma last_char_app a r :
  r <> "" -> last_char (a ++ r) = last_char r.
Proof.
  intros Hr. induction a as [|x a IH]; [reflexivity|]. rewrite app_String.
  cbn [last_char]. destruct (a ++ r) eqn:E; [|exact IH].
  destruct a; [rewrite app_empty_l in E; congruence|discriminate E].
Qed.

(** The white space in front of a text that starts with another
    character is determined. *)
Lemma space_prefix_unique a a' x x' :
  all_space a -> all_space a' ->
  (forall c, first_char x = Some c -> Py.is_space c = false) -> x <> "" ->
  (forall c, first_char x' = Some c -> Py.is_space c = false) -> x' <> "" ->
  a ++ x = a' ++ x' -> a = a' /\ x = x'.
Proof.
  intros Ha Ha' Hx Hxne Hx' Hxne'. revert a' Ha'.
  induction a as [|c a IH]; intros a' Ha' E.
  - destruct a' as [|c' a']; [auto|]. rewrite app_empty_l, app_String in E.
    inversion Ha' as [|? ? Hc' _]; subst.
    specialize (Hx c' eq_refl). congruence.
  - destruct a' as [|c' a'].
    + rewrite app_empty_l, app_String in E. inversion Ha as [|? ? Hc _]; subst.
      specialize (Hx' c eq_refl). congruence.
    + rewrite !app_String in E. injection E as -> E.
      inversion Ha; inversion Ha'; subst.
      destruct (IH ltac:(assumption) a' ltac:(assumption) E) as [-> ->]. auto.
Qed.

(** And so is the white space behind a text that ends with another
    character. *)
Lemma space_suffix_unique r r' b b' :
  all_space b -> all_space b' ->
  (forall c, last_char r = Some c -> Py.is_space c = false) ->
  (forall c, last_char r' = Some c -> Py.is_space c = false) ->
  r ++ b = r' ++ b' -> r = r'.
Proof.
  intros Hb Hb'. revert r'. induction r as [|c r IH]; intros r' Hr Hr' E.
  - destruct r' as [|c' r']; [reflexivity|]. rewrite app_empty_l in E. subst b.
    destruct (last_char (String c' r')) as [x|] eqn:El.
    + pose proof (Hr' x eq_refl) as Hx.
      apply all_space_app in Hb as [Hb _].
      rewrite (all_space_last _ _ Hb El) in Hx. discriminate Hx.
    + exfalso. clear -El. revert c' El. induction r' as [|y r' IH']; intros c' El;
        [discriminate|]. apply (IH' y). exact El.
  - destruct r' as [|c' r'].
    + rewrite app_empty_l in E. subst b'.
      destruct (last_char (String c r)) as [x|] eqn:El.
      * pose proof (Hr x eq_refl) as Hx.
        apply all_space_app in Hb' as [Hb' _].
        rewrite (all_space_last _ _ Hb' El) in Hx. discriminate Hx.
      * exfalso. clear -El. revert c El. induction r as [|y r IH']; intros c El;
          [discriminate|]. apply (IH' y). exact El.
    + rewrite !app_String in E. injection E as -> E. f_equal.
      destruct r as [|y r], r' as [|y' r'].
      * reflexivity.
      * rewrite app_empty_l in E. subst b.
        destruct (last_char (String y' r')) as [x|] eqn:El.
        -- assert (Hx : Py.is_space x = false) by (apply Hr'; exact El).
           apply all_space_app in Hb as [Hb _].
           rewrite (all_space_last _ _ Hb El) in Hx. discriminate Hx.
        -- exfalso. clear -El. revert y' El. induction r' as [|z r' IH']; intros y' El;
             [discriminate|]. apply (IH' z). exact El.
      * rewrite app_empty_l in E. subst b'.
        destruct (last_char (String y r)) as [x|] eqn:El.
        -- assert (Hx : Py.is_space x = false) by (apply Hr; exact El).
           apply all_space_app in Hb' as [Hb' _].
           rewrite (all_space_last _ _ Hb' El) in Hx. discriminate Hx.
        -- exfalso. clear -El. revert y El. induction r as [|z r IH']; intros y El;
             [discriminate|]. apply (IH' z). exact El.
      * apply IH; [exact Hr|exact Hr'|exact E].
Qed.

Lemma trim_of_unique s r r' : trim_of s r -> trim_of s r' -> r = r'.
Proof.
  intros ((a & b & E & Ha & Hb) & Hf & Hl) ((a' & b' & E' & Ha' & Hb') & Hf' & Hl').
  destruct r as [|c r], r' as [|c' r']; [reflexivity| | |].
  - exfalso. rewrite E, app_empty_l in E'.
    assert (Hall : all_space (a ++ b)) by (apply all_space_app; auto).
    rewrite E' in Hall. apply all_space_app in Hall as [_ Hall].
    apply all_space_app in Hall as [Hall _].
    specialize (Hf' c' eq_refl). inversion Hall; congruence.
  - exfalso. rewrite E', app_empty_l in E.
    assert (Hall : all_space (a' ++ b')) by (apply all_space_app; auto).
    rewrite E in Hall. apply all_space_app in Hall as [_ Hall].
    apply all_space_app in Hall as [Hall _].
    specialize (Hf c eq_refl). inversion Hall; congruence.
  - rewrite E in E'.
    destruct (space_prefix_unique a a' (String c r ++ b) (String c' r' ++ b') Ha Ha')
      as [_ Ex]; try discriminate; try exact E'.
    + rewrite app_String. cbn. intros ? [= <-]. apply Hf. reflexivity.
    + rewrite app_String. cbn. intros ? [= <-]. apply Hf'. reflexivity.
    + apply (space_suffix_unique _ _ b b' Hb Hb' Hl Hl' Ex).
Qed.

Lemma no_token_no_match text : ~ has_token text -> Re.search Re.placeholder text = false.
Proof.
  intros H. destruct (Re.search Re.placeholder text) eqn:E; [|reflexivity].
  destruct H. apply search_placeholder_spec, E.
Qed.

(** C1. A text without a reference token [{digits,digits}] is returned
    with its parenthetical annotations removed and its ends trimmed, for
    every map, and the store is left as it was. The result is
    [strip_parentheticals text], and it is the one text that is reached
    by cutting out of [text], from left to right, every annotation
    (white space, none or more, and a parenthesis up to the first [)]
    behind its [(]) and then taking away the white space at the two
    ends. So ["Name (extra info)"] resolves to ["Name"], and so does
    ["Name (x) "], for every map. *)
Theorem resolve_without_tokens :
  (forall (text : string) (m : gmap string string),
      ~ has_token text ->
      run_resolve text m = (strip_parentheticals text, initial_store m)
      /\ forall r : string,
           resolve text m = r
           <-> exists cut : string, cut_annotations text cut /\ trim_of cut r)
  /\ (forall m : gmap string string, resolve "Name (extra info)" m = "Name")
  /\ (forall m : gmap string string, resolve "Name (x) " m = "Name")
  /\ (forall m : gmap string string,
        resolve "  Argon (a)Prime  (b (c) (d  " m = "ArgonPrime (d").
Proof.
  split; [|split; [|split]].
  - intros text m H. apply no_token_no_match in H.
    assert (E : run_resolve text m = (strip_parentheticals text, initial_store m))
      by (apply resolve_placeholders_no_match, H).
    split; [exact E|]. intros r. unfold resolve. rewrite E. cbn [fst]. split.
    + intros <-. apply strip_parentheticals_spec.
    + intros (cut & Hcut & Htrim).
      destruct (strip_parentheticals_spec text) as (cut' & Hcut' & Htrim').
      rewrite (cut_annotations_unique _ _ _ Hcut Hcut') in Htrim.
      apply (trim_of_unique _ _ _ Htrim' Htrim).
  - intros m. unfold resolve, run_resolve.
    rewrite resolve_placeholders_no_match by reflexivity. reflexivity.
  - intros m. unfold resolve, run_resolve.
    rewrite resolve_placeholders_no_match by reflexivity. reflexivity.
  - intros m. unfold resolve, run_resolve.
    rewrite resolve_placeholders_no_match by reflexivity. reflexivity.
Qed.

Lemma resolve_without_tokens_witness :
  ~ has_token "  Argon Prime (Sector) (x"
  /\ resolve "  Argon Prime (Sector) (x" ∅ = "Argon Prime (x".
Proof.
  assert (H : ~ has_token "  Argon Prime (Sector) (x").
  { intros H. apply search_placeholder_spec in H. vm_compute in H. discriminate H. }
  split; [exact H|].
  destruct (proj1 resolve_without_tokens "  Argon Prime (Sector) (x" ∅ H) as [E _].
  unfold resolve. rewrite E. reflexivity.
Defined.

(** ** The resolver reads the map through [get(key, 'Unknown')] only *)

Lemma alike_ret {A} m m' (a : A) : alike m m' (mret a).
Proof. intros path lg. repeat split. Qed.

Lemma alike_bind {A B} m m' (c : M A) (f : A -> M B) :
  alike m m' c -> (forall a, alike m m' (f a)) -> alike m m' (c ≫= f).
Proof.
  intros Hc Hf path lg. unfold_M.
  destruct (Hc path lg) as (H1 & H2 & H3).
  destruct (c (Store m path lg)) as [a st1], (c (Store m' path lg)) as [a' st1'].
  cbn [fst snd] in *. subst a' st1.
  destruct st1' as [m1 path1 lg1]. cbn [name_map processed_keys log] in *. subst m1.
  apply Hf.
Qed.

Lemma alike_logger m m' lvl msg : alike m m' (logger lvl msg).
Proof. intros path lg. repeat split. Qed.

Lemma alike_sub_segments {G} m m' (repl : Re.rmatch G -> M string) segs :
  (forall x, alike m m' (repl x)) -> alike m m' (sub_segments repl segs).
Proof.
  intros Hr. induction segs as [|[c|x] segs IH]; cbn [sub_segments].
  - apply alike_ret.
  - apply alike_bind; [exact IH|]. intros; apply alike_ret.
  - apply alike_bind; [apply Hr|]. intros r.
    apply alike_bind; [exact IH|]. intros; apply alike_ret.
Qed.

Lemma alike_passes m m' repl text n :
  (forall x, alike m m' (repl x)) ->
  forall depth current_text, alike m m' (passes repl text depth n current_text).
Proof.
  intros Hr. induction n as [|n IH]; intros depth cur; cbn [passes].
  - apply alike_bind; [apply alike_logger|]. intros; apply alike_ret.
  - apply alike_bind; [apply alike_sub_segments, Hr|]. intros new_text.
    destruct (String.eqb new_text cur); [apply alike_ret|].
    apply alike_bind; [apply alike_logger|]. intros; apply IH.
Qed.

Lemma alike_replacer m m' recur x :
  same_texts m m' -> (forall s, alike m m' (recur s)) -> alike m m' (replacer recur x).
Proof.
  intros Hm Hr. unfold replacer. destruct (Re.groups x) as [page_id t_id].
  apply alike_bind; [intros path lg; repeat split|]. intros seen.
  destruct seen.
  { apply alike_bind; [apply alike_logger|]. intros; apply alike_ret. }
  apply alike_bind; [intros path lg; repeat split|]. intros _.
  apply alike_bind.
  { intros path lg. unfold name_map_get. cbn. rewrite (Hm _). repeat split. }
  intros replacement. destruct (String.eqb replacement "Unknown").
  - apply alike_bind; [apply alike_logger|]. intros _.
    apply alike_bind; [intros path lg; repeat split|]. intros; apply alike_ret.
  - apply alike_bind; [apply Hr|]. intros r.
    apply alike_bind; [intros path lg; repeat split|]. intros; apply alike_ret.
Qed.

Lemma alike_resolve_placeholders m m' max_depth text :
  same_texts m m' -> alike m m' (resolve_placeholders max_depth text).
Proof.
  intros Hm. revert text. induction max_depth as [|d IH]; intros text;
    cbn [resolve_placeholders].
  - apply alike_bind; [apply alike_logger|]. intros; apply alike_ret.
  - apply alike_bind; [|intros; apply alike_ret].
    apply alike_passes. intros x. now apply alike_replacer.
Qed.

Lemma same_texts_delete_unknown (m : gmap string string) key :
  m !! key = Some "Unknown" -> same_texts m (delete key m).
Proof.
  intros H k. destruct (decide (k = key)) as [->|Hne].
  - now rewrite H, lookup_delete_eq.
  - now rewrite lookup_delete_ne.
Qed.

(** X2. A key that the map binds to the text ['Unknown'] is read as a
    key that is missing: with the entry removed from the map, the
    resolver returns the same text and writes the same log (the warning
    of the missing localization included), for every depth left, text,
    path and log. *)
Theorem unknown_text_is_missing_key
    (m : gmap string string) (key : string)
    (max_depth : nat) (text : string) (path : list string)
    (lg : list (level * string)) :
  m !! key = Some "Unknown" ->
  let with_entry := resolve_placeholders max_depth text (Store m path lg) in
  let without := resolve_placeholders max_depth text (Store (delete key m) path lg) in
  fst with_entry = fst without
  /\ log (snd with_entry) = log (snd without)
  /\ processed_keys (snd with_entry) = processed_keys (snd without).
Proof.
  intros H with_entry without.
  destruct (alike_resolve_placeholders m (delete key m) max_depth text
              (same_texts_delete_unknown m key H) path lg) as (H1 & H2 & _).
  subst with_entry without. rewrite H1, H2. repeat split.
Qed.

Lemma unknown_text_is_missing_key_witness :
  let m : gmap string string := <["1_1" := "Unknown"]> ∅ in
  m !! "1_1" = Some "Unknown"
  /\ run_resolve "a {1,1}" m
     = ("a Unknown", Store m [] [(WARNING, "Missing localization for key: 1_1");
                                 (DEBUG, "Depth 1: a {1,1} -> a Unknown")])
  /\ log (snd (run_resolve "a {1,1}" m)) = log (snd (run_resolve "a {1,1}" (delete "1_1" m))).
Proof.
  intros m. split; [reflexivity|]. split; [vm_compute; reflexivity|].
  apply (unknown_text_is_missing_key m "1_1" 10 "a {1,1}" [] []). reflexivity.
Defined.

(** ** A text that is one token *)

Lemma replacer_unknown_value recur g page_id t_id st :
  placeholder_key page_id t_id ∉ processed_keys st ->
  name_map st !! placeholder_key page_id t_id = Some "Unknown" ->
  replacer recur (Re.Match g (page_id, t_id)) st
  = ("Unknown", warn ("Missing localization for key: "
                      ++ placeholder_key page_id t_id) st).
Proof.
  intros Hp Hm. unfold replacer. cbn [Re.groups Re.group0]. unfold_M.
  rewrite bool_decide_eq_false_2 by exact Hp. cbn [name_map processed_keys log].
  rewrite Hm. unfold default. cbn [from_option id]. rewrite String.eqb_refl.
  cbn [name_map processed_keys log]. rewrite removelast_snoc. reflexivity.
Qed.

Lemma finditer_token page_id t_id :
  page_id <> "" -> t_id <> "" -> all_digits page_id -> all_digits t_id ->
  Re.finditer Re.placeholder (token page_id t_id)
  = [Re.Hit (Re.Match (token page_id t_id) (page_id, t_id))].
Proof.
  intros Hp Ht Dp Dt. unfold Re.finditer.
  pose proof (placeholder_token page_id t_id "" Hp Ht Dp Dt) as E.
  rewrite app_empty_r in E.
  rewrite (scan_hit _ _ _ "" E); [reflexivity|now rewrite app_empty_r|discriminate].
Qed.

Lemma search_token page_id t_id :
  page_id <> "" -> t_id <> "" -> all_digits page_id -> all_digits t_id ->
  Re.search Re.placeholder (token page_id t_id) = true.
Proof.
  intros Hp Ht Dp Dt. apply search_placeholder_spec.
  exists "", page_id, t_id, "". rewrite app_empty_l, app_empty_r. auto.
Qed.

(** X3. For a text that is one token [{page_id,t_id}], from the store of
    a caller: when the map does not bind the key of the token, the
    resolver returns ['Unknown']; when it binds the key to a text that
    holds no token, before and after the removal of its annotations, the
    resolver returns that text with the annotations removed. *)
Theorem resolve_single_token (m : gmap string string) (page_id t_id : string) :
  page_id <> "" -> t_id <> "" -> all_digits page_id -> all_digits t_id ->
  (m !! placeholder_key page_id t_id = None ->
   resolve (token page_id t_id) m = "Unknown")
  /\ (forall value : string,
        m !! placeholder_key page_id t_id = Some value ->
        Re.search Re.placeholder value = false ->
        Re.search Re.placeholder (strip_parentheticals value) = false ->
        resolve (token page_id t_id) m = strip_parentheticals value).
Proof.
  intros Hp Ht Dp Dt.
  pose proof (finditer_token page_id t_id Hp Ht Dp Dt) as Hfind.
  split.
  - intros Hm. unfold resolve, run_resolve.
    rewrite resolve_placeholders_S, passes_S, Hfind, sub_segments_hit.
    rewrite replacer_missing; [|apply not_elem_of_nil|exact Hm].
    destruct (String.eqb_spec "Unknown" (token page_id t_id)) as [E|_].
    { unfold token in E. discriminate E. }
    rewrite passes_no_match by reflexivity. reflexivity.
  - intros value Hm Hv Hc. unfold resolve, run_resolve.
    rewrite resolve_placeholders_S, passes_S, Hfind, sub_segments_hit.
    destruct (String.eqb_spec value "Unknown") as [->|Hne].
    + rewrite replacer_unknown_value; [|apply not_elem_of_nil|exact Hm].
      destruct (String.eqb_spec "Unknown" (token page_id t_id)) as [E|_].
      { unfold token in E. discriminate E. }
      rewrite passes_no_match by reflexivity. reflexivity.
    + rewrite (replacer_present _ _ _ _ value); [|apply not_elem_of_nil|exact Hm|exact Hne].
      rewrite resolve_placeholders_no_match by exact Hv. cbn [snd fst].
      destruct (String.eqb_spec (strip_parentheticals value) (token page_id t_id)) as [E|_].
      { rewrite E, search_token in Hc by assumption. discriminate. }
      rewrite passes_no_match by exact Hc. cbn [fst].
      apply strip_parentheticals_clean.
Qed.

Lemma resolve_single_token_witness :
  example_names !! placeholder_key "20004" "10" = Some "Hatikvah (sector)"
  /\ resolve (token "20004" "10") example_names = "Hatikvah".
Proof.
  split; [reflexivity|].
  apply (proj2 (resolve_single_token example_names "20004" "10"
                  ltac:(discriminate) ltac:(discriminate)
                  ltac:(repeat constructor) ltac:(repeat constructor))
           "Hatikvah (sector)"); reflexivity.
Defined.

(** ** The three loaders on one catalog *)

Lemma map_payload_strip t_text :
  MapNames.payload t_text = Py.strip (Factions.payload t_text).
Proof. destruct t_text as [[|c s]|]; reflexivity. Qed.

(** X4. On every catalog the three loaders bind the same keys. The value
    that [get_factions_info.py] binds is the one of [wares_convert.py]
    with the empty string in the place of [None], the value that
    [map_get_names.py] binds is the one of [get_factions_info.py] with the
    white space removed at both ends, so a value of [map_get_names.py]
    never starts or ends with white space. *)
Theorem loaders_agree (doc : document) (key : string) :
  Factions.load_localization doc !! key
  = default "" <$> Wares.load_localization doc !! key
  /\ MapNames.load_localization doc !! key
     = Py.strip <$> Factions.load_localization doc !! key
  /\ Py.strip <$> MapNames.load_localization doc !! key
     = MapNames.load_localization doc !! key.
Proof.
  assert (H1 : Factions.load_localization doc !! key
               = default "" <$> Wares.load_localization doc !! key).
  { destruct doc as [root|];
      [|unfold Factions.load_localization, Wares.load_localization,
          MapNames.load_localization, load_localization_with;
        now rewrite !lookup_empty].
    unfold Factions.load_localization, Wares.load_localization.
    rewrite !load_localization_lookup.
    now destruct (last_payload key (entries root)). }
  assert (H2 : MapNames.load_localization doc !! key
               = Py.strip <$> Factions.load_localization doc !! key).
  { destruct doc as [root|];
      [|unfold Factions.load_localization, Wares.load_localization,
          MapNames.load_localization, load_localization_with;
        now rewrite !lookup_empty].
    unfold Factions.load_localization, MapNames.load_localization.
    rewrite !load_localization_lookup.
    destruct (last_payload key (entries root)); [|reflexivity].
    cbn. now rewrite map_payload_strip. }
  split; [exact H1|]. split; [exact H2|].
  rewrite H2. destruct (Factions.load_localization doc !! key); [|reflexivity].
  cbn. now rewrite strip_idem.
Qed.

(** ** The ids read from a macro *)

Lemma digits_value_nonneg s acc : (0 <= acc)%Z -> (0 <= Py.digits_value acc s)%Z.
Proof.
  revert acc. induction s as [|c s IH]; intros acc H; [exact H|].
  cbn. apply IH. lia.
Qed.

Lemma findall_digits_cons s :
  has_digit s = true -> exists n ns, Re.findall Re.digits s = n :: ns.
Proof.
  induction s as [|c s IH]; [discriminate|].
  unfold has_digit in *. cbn [list_ascii_of_string existsb].
  unfold Re.findall, Re.finditer in *. cbn [Re.scan].
  destruct (Re.digits (String c s)) as [m|] eqn:Em.
  - intros _. cbn. eauto.
  - intros H. unfold Re.digits in Em. cbn in Em.
    destruct (Py.is_digit c).
    + destruct (Py.span Py.is_digit s); discriminate.
    + cbn. apply IH, H.
Qed.

Lemma extract_cluster_sector_nonneg macro cluster_id sector_id entry_type :
  MapNames.extract_cluster_sector macro = Some (cluster_id, sector_id, entry_type) ->
  (0 <= cluster_id)%Z /\ (0 <= sector_id)%Z.
Proof.
  unfold MapNames.extract_cluster_sector, MapNames.int_of_digits.
  destruct (Re.findall Re.digits macro) as [|n [|n1 ns]]; cbn [mbind option_bind].
  - intros [= <- <- <-]. lia.
  - destruct (String.length n <=? Py.max_str_digits)%nat; [|discriminate].
    cbn. intros [= <- <- <-]. split; [apply digits_value_nonneg|]; lia.
  - destruct (String.length n <=? Py.max_str_digits)%nat; [|discriminate].
    cbn. destruct (String.length n1 <=? Py.max_str_digits)%nat; [|discriminate].
    cbn. intros [= <- <- <-]. split; apply digits_value_nonneg; lia.
Qed.

(** X5. For a macro of at most 4300 characters (so that [int()] accepts
    each of its runs of digits), [extract_cluster_sector] returns; the
    ids that it reads are never negative, and its type tells how many
    runs of digits the macro has: ['unknown'] with ids 0 and 0 exactly
    when the macro holds no digit, ['cluster'] with sector id 0 for one
    run, ['sector'] for two or more. *)
Theorem extract_cluster_sector_cases (macro : string) :
  (String.length macro <= 4300)%nat ->
  exists (cluster_id sector_id : Z) (entry_type : string),
    MapNames.extract_cluster_sector macro = Some (cluster_id, sector_id, entry_type)
    /\ (0 <= cluster_id)%Z /\ (0 <= sector_id)%Z
    /\ (entry_type = "unknown" <-> has_digit macro = false)
    /\ (entry_type = "unknown" /\ cluster_id = 0%Z /\ sector_id = 0%Z
        /\ Re.findall Re.digits macro = []
        \/ entry_type = "cluster" /\ sector_id = 0%Z
           /\ (exists n, Re.findall Re.digits macro = [n])
        \/ entry_type = "sector"
           /\ (exists n0 n1 ns, Re.findall Re.digits macro = n0 :: n1 :: ns)).
Proof.
  intros Hlen. rewrite (extract_cluster_sector_bounded macro Hlen).
  destruct (has_digit macro) eqn:Hd.
  - destruct (findall_digits_cons macro Hd) as (n & ns & E). rewrite E.
    destruct ns as [|n1 ns].
    + eexists _, _, _. split; [reflexivity|].
      repeat split; try (apply digits_value_nonneg; lia); try lia; try discriminate.
      right. left. eauto.
    + eexists _, _, _. split; [reflexivity|].
      repeat split; try (apply digits_value_nonneg; lia); try discriminate.
      right. right. eauto 6.
  - rewrite findall_lits by (now rewrite search_digits).
    eexists _, _, _. split; [reflexivity|].
    repeat split; try lia. left. auto.
Qed.

Lemma extract_cluster_sector_cases_witness :
  (String.length "Cluster_12_Sector003_macro" <= 4300)%nat
  /\ exists (cluster_id sector_id : Z) (entry_type : string),
       MapNames.extract_cluster_sector "Cluster_12_Sector003_macro"
       = Some (cluster_id, sector_id, entry_type)
       /\ (0 <= cluster_id)%Z /\ (0 <= sector_id)%Z.
Proof.
  assert (Hlen : (String.length "Cluster_12_Sector003_macro" <= 4300)%nat)
    by (cbn; lia).
  split; [exact Hlen|].
  destruct (extract_cluster_sector_cases "Cluster_12_Sector003_macro" Hlen)
    as (c & sec & ty & E & Hc & Hs & _).
  exists c, sec, ty. auto.
Defined.

(** ** What every row of the map-sector extractor satisfies *)

Lemma resolve_unknown m : resolve "Unknown" m = "Unknown".
Proof.
  unfold resolve, run_resolve.
  now rewrite resolve_placeholders_no_match by reflexivity.
Qed.

Lemma process_dataset_some excl nm source dataset r :
  MapNames.process_dataset excl nm source dataset = MapNames.Emit r ->
  exists macro identification name_attr,
    truthy (attrib dataset !! "macro") = Some macro
    /\ existsb (fun matches => matches (Py.strip macro)) excl = false
    /\ find_desc "identification" dataset = Some identification
    /\ truthy (attrib identification !! "name") = Some name_attr
    /\ MapNames.macro r = Py.strip macro
    /\ MapNames.name r
       = match parse_name_reference (Some (Py.strip name_attr)) with
         | Some name_ref => resolve (default "Unknown" (nm !! name_ref)) nm
         | None => "Unknown"
         end.
Proof.
  unfold MapNames.process_dataset.
  destruct (truthy (attrib dataset !! "macro")) as [macro0|] eqn:Em; [|discriminate].
  destruct (existsb _ excl) eqn:Ex; [discriminate|].
  destruct (MapNames.extract_cluster_sector (Py.strip macro0)) as [[[c s] ty]|];
    [|discriminate].
  destruct (find_desc "identification" dataset) as [ident|] eqn:Ei; [|discriminate].
  destruct (truthy (attrib ident !! "name")) as [name_attr|] eqn:En; [|discriminate].
  intros [= <-]. exists macro0, ident, name_attr. cbn.
  repeat split; assumption || reflexivity.
Qed.

(** X6. Every row of the map-sector extractor has a macro without white
    space at its ends that no exclusion pattern matches, ids that are not
    negative, and a name that neither starts nor ends with white space
    and holds no opening parenthesis with a closing one behind it. *)
Theorem map_row_invariants
    (exclude_patterns : list (string -> bool)) (name_map : gmap string string)
    (mapdefaults_files : list (string * document)) (r : MapNames.row) :
  r ∈ MapNames.process_mapdefaults exclude_patterns name_map mapdefaults_files ->
  Py.strip (MapNames.macro r) = MapNames.macro r
  /\ Forall (fun matches => matches (MapNames.macro r) = false) exclude_patterns
  /\ (0 <= MapNames.cluster_id r)%Z /\ (0 <= MapNames.sector_id r)%Z
  /\ Py.strip (MapNames.name r) = MapNames.name r
  /\ open_then_close (MapNames.name r) = false.
Proof.
  intros Hr.
  apply process_mapdefaults_elem in Hr as (source & root & pre & d & post & _ & _ & Hp & _).
  pose proof (process_dataset_ids _ _ _ _ _ Hp) as [Hids _].
  apply process_dataset_some in Hp
    as (macro & ident & name_attr & _ & Hex & _ & _ & Hm & Hn).
  destruct (extract_cluster_sector_nonneg _ _ _ _ Hids) as (Hc & Hs).
  split; [rewrite Hm; apply strip_idem|].
  split.
  { rewrite Hm. apply Forall_forall. intros p Hin.
    destruct (p (Py.strip macro)) eqn:E; [|reflexivity].
    assert (existsb (fun matches => matches (Py.strip macro)) exclude_patterns = true);
      [|congruence].
    apply existsb_exists. exists p. split; [now apply list_elem_of_In|exact E]. }
  split; [exact Hc|]. split; [exact Hs|].
  rewrite Hn. destruct (parse_name_reference _); [|split; reflexivity].
  destruct (resolve_clean (default "Unknown" (name_map !! s)) name_map). auto.
Qed.

Lemma map_row_invariants_witness :
  let r := MapNames.Row 2 0 "cluster" "Cluster_02_macro" "Hatikvah Cluster" "original" in
  r ∈ MapNames.process_mapdefaults MapNames.DEFAULT_EXCLUDE_PATTERNS example_names
        [("original", Some example_map_file)]
  /\ open_then_close (MapNames.name r) = false.
Proof.
  intros r.
  assert (H : r ∈ MapNames.process_mapdefaults MapNames.DEFAULT_EXCLUDE_PATTERNS
                    example_names [("original", Some example_map_file)]).
  { vm_compute. right. left. }
  split; [exact H|]. apply (map_row_invariants _ _ _ r H).
Defined.

(** X7. A map file that does not parse adds nothing and stops nothing:
    the rows are the rows of the other files. And giving the files in
    another order, whichever it is, changes the rows at most in their
    order. *)
Theorem map_files_skipped_and_reordered
    (exclude_patterns : list (string -> bool)) (name_map : gmap string string) :
  (forall (files1 files2 : list (string * document)) (source : string),
      MapNames.process_mapdefaults exclude_patterns name_map
        (files1 ++ (source, None) :: files2)
      = MapNames.process_mapdefaults exclude_patterns name_map (files1 ++ files2))
  /\ (forall files files' : list (string * document),
        files ≡ₚ files' ->
        MapNames.process_mapdefaults exclude_patterns name_map files
        ≡ₚ MapNames.process_mapdefaults exclude_patterns name_map files').
Proof.
  unfold MapNames.process_mapdefaults. split.
  - intros files1 files2 source. now rewrite !bind_app, bind_cons.
  - intros files files' Hperm. rewrite !sort_rows_perm. now rewrite Hperm.
Qed.

Lemma map_files_skipped_and_reordered_witness :
  let a := ("original", Some example_map_file) in
  let b := ("ego_dlc_split", Some bare_dataset_file) in
  let c := ("ego_dlc_terran", Some long_run_file) in
  [a; b; c] ≡ₚ [b; a; c]
  /\ MapNames.process_mapdefaults MapNames.DEFAULT_EXCLUDE_PATTERNS example_names [a; b; c]
     ≡ₚ MapNames.process_mapdefaults MapNames.DEFAULT_EXCLUDE_PATTERNS example_names
          [b; a; c].
Proof.
  intros a b c.
  assert (H : [a; b; c] ≡ₚ [b; a; c]) by apply Permutation_swap.
  split; [exact H|].
  exact (proj2 (map_files_skipped_and_reordered MapNames.DEFAULT_EXCLUDE_PATTERNS
                  example_names) _ _ H).
Defined.

(** X8. An entry that passes the tests of the extractor and whose name
    reference [parse_name_reference] rejects, or gives a key that the map
    does not bind, is written with the name ['Unknown']. *)
Theorem unresolved_name_is_unknown
    (exclude_patterns : list (string -> bool)) (name_map : gmap string string)
    (source : string) (dataset : element) (r : MapNames.row) :
  MapNames.process_dataset exclude_patterns name_map source dataset = MapNames.Emit r ->
  (forall identification name_attr name_ref,
      find_desc "identification" dataset = Some identification ->
      attrib identification !! "name" = Some name_attr ->
      parse_name_reference (Some (Py.strip name_attr)) = Some name_ref ->
      name_map !! name_ref = None) ->
  MapNames.name r = "Unknown".
Proof.
  intros Hp Hu.
  apply process_dataset_some in Hp
    as (macro & ident & name_attr & _ & _ & Hid & Hn & _ & Hname).
  rewrite Hname. destruct (parse_name_reference _) as [name_ref|] eqn:E; [|reflexivity].
  assert (Ha : attrib ident !! "name" = Some name_attr).
  { unfold truthy in Hn. destruct (attrib ident !! "name") as [[|c s]|]; congruence. }
  rewrite (Hu ident name_attr name_ref Hid Ha E). apply resolve_unknown.
Qed.

Lemma unresolved_name_is_unknown_witness :
  let r := MapNames.Row 0 0 "unknown" "galaxy_macro" "Unknown" "original" in
  MapNames.process_dataset MapNames.DEFAULT_EXCLUDE_PATTERNS example_names "original"
    (dataset_of "galaxy_macro" "{20003,30}") = MapNames.Emit r
  /\ MapNames.name r = "Unknown".
Proof.
  intros r.
  assert (E : MapNames.process_dataset MapNames.DEFAULT_EXCLUDE_PATTERNS example_names
                "original" (dataset_of "galaxy_macro" "{20003,30}") = MapNames.Emit r)
    by (vm_compute; reflexivity).
  split; [exact E|].
  apply (unresolved_name_is_unknown _ _ _ _ r E).
  intros ident name_attr name_ref Hid Ha Hp.
  vm_compute in Hid. injection Hid as <-. vm_compute in Ha. injection Ha as <-.
  vm_compute in Hp. injection Hp as <-. reflexivity.
Defined.

(** ** What the ware extractor writes, and where it stops *)

Lemma process_ware_filters float_of_str nm source ware r :
  Wares.process_ware float_of_str nm source ware = Wares.Emit r ->
  ("module" ∉ Py.split_ws (default "" (attrib ware !! "tags")))
  /\ attrib ware !! "transport" = Some (Wares.transport r)
  /\ Wares.transport r ∈ Wares.VALID_TRANSPORT
  /\ Wares.source r = source.
Proof.
  unfold Wares.process_ware.
  destruct (bool_decide _) eqn:Em; [discriminate|].
  apply bool_decide_eq_false in Em.
  destruct (attrib ware !! "transport") as [transport|]; [|discriminate].
  destruct (bool_decide _) eqn:Et; [|discriminate].
  apply bool_decide_eq_true in Et.
  destruct (find_child "price" ware) as [price|]; [|discriminate].
  destruct (parse_name_reference _) as [name_ref|]; [|discriminate].
  destruct (truthy (attrib price !! "min")) as [min_price|]; [|discriminate].
  destruct (truthy (attrib price !! "max")) as [max_price|]; [|discriminate].
  destruct (float_of_str min_price) as [lo|];
    [|destruct (float_of_str max_price); discriminate].
  destruct (float_of_str max_price) as [hi|]; [|discriminate].
  intros [= <-]. cbn. auto.
Qed.

Lemma truthy_nonempty v s : truthy v = Some s -> s <> "" /\ v = Some s.
Proof. destruct v as [[|c v]|]; cbn; intros [= <-]; split; congruence. Qed.

(** X9. Every line that the ware extractor writes comes from a ware that
    has no tag [module] and whose transport, the one written, is
    [container], [liquid] or [solid]; its [min] and [max] are not empty
    and are texts that [float()] accepts; its source is the label of its
    file. *)
Theorem ware_row_invariants
    (float_of_str : string -> option Wares.float)
    (name_map : gmap string (option string))
    (wares_files : list (string * document)) (r : Wares.row) :
  r ∈ fst (Wares.process_all_wares float_of_str name_map wares_files) ->
  exists (source : string) (root ware : element),
    (source, Some root) ∈ wares_files
    /\ ware ∈ findall_desc "ware" root
    /\ ("module" ∉ Py.split_ws (default "" (attrib ware !! "tags")))
    /\ attrib ware !! "transport" = Some (Wares.transport r)
    /\ Wares.transport r ∈ ["container"; "liquid"; "solid"]
    /\ Wares.min r <> "" /\ Wares.max r <> ""
    /\ is_Some (float_of_str (Wares.min r))
    /\ is_Some (float_of_str (Wares.max r))
    /\ Wares.source r = source.
Proof.
  intros H. apply process_all_wares_elem in H as (source & root & ware & Hf & Hw & He).
  destruct (process_ware_filters _ _ _ _ _ He) as (Hm & Ht & Hv & Hs).
  apply process_ware_emit in He
    as (name_ref & price & lo & hi & _ & _ & Hmin & Hmax & Hlo & Hhi & _).
  apply truthy_nonempty in Hmin as [Hmin _], Hmax as [Hmax _].
  exists source, root, ware. repeat split; eauto.
Qed.

Lemma ware_row_invariants_witness :
  exists r : Wares.row,
    r ∈ fst (Wares.process_all_wares Wares.float_of_digits example_ware_names
               [("original", Some example_ware_file)])
    /\ Wares.transport r ∈ ["container"; "liquid"; "solid"].
Proof.
  pose (r := Wares.Row (Some "{1,2} (x)") "10" "20" "15" "14" "16" "12" "18" "12" "18"
               "container" "original").
  assert (H : r ∈ fst (Wares.process_all_wares Wares.float_of_digits example_ware_names
                         [("original", Some example_ware_file)])).
  { vm_compute. left. }
  destruct (ware_row_invariants _ _ _ r H) as (_ & _ & _ & _ & _ & _ & _ & Ht & _).
  exists r. split; [exact H|exact Ht].
Defined.

Lemma process_all_wares_app float_of_str nm files1 files2 :
  Wares.process_all_wares float_of_str nm (files1 ++ files2)%list
  = if snd (Wares.process_all_wares float_of_str nm files1)
    then (fst (Wares.process_all_wares float_of_str nm files1)
          ++ fst (Wares.process_all_wares float_of_str nm files2),
          snd (Wares.process_all_wares float_of_str nm files2))%list
    else Wares.process_all_wares float_of_str nm files1.
Proof.
  induction files1 as [|[source [root|]] files1 IH]; cbn [app Wares.process_all_wares].
  - cbn. now destruct (Wares.process_all_wares float_of_str nm files2).
  - destruct (Wares.run_steps _ (findall_desc "ware" root)) as [rows ok].
    destruct ok; [|reflexivity]. rewrite IH.
    destruct (Wares.process_all_wares float_of_str nm files1) as [rows1 ok1].
    cbn [fst snd]. destruct ok1; [|reflexivity].
    destruct (Wares.process_all_wares float_of_str nm files2) as [rows2 ok2].
    cbn [fst snd]. now rewrite app_assoc.
  - reflexivity.
Qed.

(** X10. The ware extractor stops at the first failure and keeps what it
    has written. After files that were read to their end, a file that
    does not parse ends the run with the lines of those files, whatever
    files follow; and after a failure no later file adds a line. Files
    read to their end add their lines one file behind the other. *)
Theorem ware_run_stops_at_failure
    (float_of_str : string -> option Wares.float)
    (name_map : gmap string (option string))
    (files1 files2 : list (string * document)) (source : string) :
  let run := Wares.process_all_wares float_of_str name_map in
  (snd (run files1) = true ->
   run (files1 ++ (source, None) :: files2)%list = (fst (run files1), false)
   /\ run (files1 ++ files2)%list
      = ((fst (run files1) ++ fst (run files2))%list, snd (run files2)))
  /\ (snd (run files1) = false -> run (files1 ++ files2)%list = run files1).
Proof.
  intros run. subst run. split.
  - intros H. rewrite !process_all_wares_app, H. cbn [Wares.process_all_wares fst snd].
    now rewrite app_nil_r.
  - intros H. now rewrite process_all_wares_app, H.
Qed.

Lemma ware_run_stops_at_failure_witness :
  let run := Wares.process_all_wares Wares.float_of_digits example_ware_names in
  let files1 : list (string * document) := [("original", Some example_ware_file)] in
  let files2 : list (string * document) := [("later", Some example_ware_file)] in
  snd (run files1) = true
  /\ run (files1 ++ ("broken", None) :: files2)%list = (fst (run files1), false).
Proof.
  intros run files1 files2.
  assert (H : snd (run files1) = true) by (vm_compute; reflexivity).
  split; [exact H|].
  exact (proj1 (proj1 (ware_run_stops_at_failure Wares.float_of_digits
                         example_ware_names files1 files2 "broken") H)).
Defined.

(** ** Not-a-number *)

(** X12. A [min] or a [max] that is not a number is not held back by
    [bound_price]: all seven values are not a number and are written as
    [nan]. *)
Theorem nan_price_gives_nan (lo hi : Wares.float) :
  is_nan lo = true \/ is_nan hi = true ->
  let ranges := Wares.calculate_price_ranges lo hi in
  Forall (fun v => v = S754_nan /\ Wares.format_0f v = "nan")
    [Wares.avg ranges; Wares.r30_min ranges; Wares.r30_max ranges;
     Wares.r50_min ranges; Wares.r50_max ranges;
     Wares.r70_min ranges; Wares.r70_max ranges].
Proof.
  intros H ranges. subst ranges.
  assert (Hb : forall lo' hi', Wares.bound_price lo' hi' S754_nan = S754_nan).
  { intros lo' hi'. unfold Wares.bound_price, Wares.flt, SFltb.
    destruct lo', hi'; reflexivity. }
  assert (Havg : Wares.fdiv (Wares.fadd lo hi) Wares.two = S754_nan).
  { destruct H as [H|H].
    - destruct lo; try discriminate. destruct hi; reflexivity.
    - destruct hi; try discriminate. destruct lo; reflexivity. }
  assert (Hhalf : Wares.fdiv (Wares.fsub hi lo) Wares.two = S754_nan).
  { destruct H as [H|H].
    - destruct lo; try discriminate. destruct hi; reflexivity.
    - destruct hi; try discriminate. destruct lo; reflexivity. }
  unfold Wares.calculate_price_ranges. rewrite Havg, Hhalf.
  cbn [Wares.avg Wares.r30_min Wares.r30_max Wares.r50_min Wares.r50_max
       Wares.r70_min Wares.r70_max].
  change (Wares.fmul Wares.lit_0_30 S754_nan) with S754_nan.
  change (Wares.fmul Wares.lit_0_50 S754_nan) with S754_nan.
  change (Wares.fmul Wares.lit_0_70 S754_nan) with S754_nan.
  change (Wares.fsub S754_nan S754_nan) with S754_nan.
  change (Wares.fadd S754_nan S754_nan) with S754_nan.
  rewrite Hb. repeat constructor.
Qed.

Lemma nan_price_gives_nan_witness :
  Wares.format_0f (Wares.r30_min (Wares.calculate_price_ranges S754_nan (Wares.float_of_Z 20)))
  = "nan".
Proof.
  pose proof (nan_price_gives_nan S754_nan (Wares.float_of_Z 20) (or_introl eq_refl)) as H.
  cbv zeta in H. inversion H as [|? ? _ H']. inversion H' as [|? ? [_ E] _]. exact E.
Defined.

(** ** A pass over a text whose tokens are all on the path, or all missing *)

Lemma scan_placeholder_cons c s :
  (Re.placeholder (String c s) = None
   /\ Re.finditer Re.placeholder (String c s)
      = Re.Lit c :: Re.finditer Re.placeholder s)
  \/ (exists page_id t_id rest,
        String c s = token page_id t_id ++ rest
        /\ (String.length rest <= String.length s)%nat
        /\ Re.finditer Re.placeholder (String c s)
           = Re.Hit (Re.Match (token page_id t_id) (page_id, t_id))
             :: Re.finditer Re.placeholder rest).
Proof.
  destruct (Re.placeholder (String c s)) as [m|] eqn:Em.
  - right. destruct (placeholder_inv _ _ Em) as (p & t & rest & Hs & -> & _).
    exists p, t, rest. split; [exact Hs|]. split.
    + assert (H : String.length (String c s) = String.length (token p t ++ rest))
        by now rewrite Hs.
      rewrite length_app in H. unfold token in H. rewrite app_String in H.
      cbn [String.length] in H. lia.
    + unfold Re.finditer. apply scan_hit; [exact Em|exact Hs|discriminate].
  - left. split; [reflexivity|]. unfold Re.finditer. cbn [Re.scan]. now rewrite Em.
Qed.

Lemma add_log_add_log r1 r2 st :
  add_log r2 (add_log r1 st) = add_log (r1 ++ r2)%list st.
Proof. unfold add_log. cbn. now rewrite app_assoc. Qed.

Lemma add_log_nil st : add_log [] st = st.
Proof. destruct st. unfold add_log. cbn. now rewrite app_nil_r. Qed.

Lemma pass_over_cycles recur n :
  forall s st,
    (String.length s <= n)%nat ->
    Forall (fun key => key ∈ processed_keys st) (token_keys s) ->
    sub_segments (replacer recur) (Re.finditer Re.placeholder s) st
    = (s, add_log (cycle_warning <$> token_keys s) st).
Proof.
  induction n as [|n IH]; intros s st Hn Hk.
  - destruct s; [|cbn in Hn; lia]. cbn. now rewrite add_log_nil.
  - destruct s as [|c s]; [cbn; now rewrite add_log_nil|].
    destruct (scan_placeholder_cons c s) as [[_ E]|(p & t & rest & Hs & Hl & E)].
    + unfold token_keys in *. rewrite E in *. cbn [omap list_omap sub_segments] in *.
      unfold_M. rewrite (IH s st); [reflexivity|cbn in Hn; lia|exact Hk].
    + unfold token_keys in *. rewrite E in *.
      cbn [omap list_omap sub_segments Re.groups fst snd fmap list_fmap] in *.
      apply Forall_cons in Hk as [Hk1 Hk2]. unfold_M.
      rewrite replacer_cycle by exact Hk1.
      rewrite (IH rest); [|cbn in Hn; lia|exact Hk2].
      rewrite Hs. f_equal. unfold warn, add_log, cycle_warning. cbn.
      now rewrite <- app_assoc.
Qed.

Lemma pass_over_missing recur n :
  forall s st,
    (String.length s <= n)%nat ->
    Forall (fun key => (key ∉ processed_keys st) /\ name_map st !! key = None)
      (token_keys s) ->
    sub_segments (replacer recur) (Re.finditer Re.placeholder s) st
    = (Re.sub_str Re.placeholder "Unknown" s,
       add_log (missing_warning <$> token_keys s) st).
Proof.
  induction n as [|n IH]; intros s st Hn Hk.
  - destruct s; [|cbn in Hn; lia]. cbn. now rewrite add_log_nil.
  - destruct s as [|c s]; [cbn; now rewrite add_log_nil|].
    destruct (scan_placeholder_cons c s) as [[_ E]|(p & t & rest & Hs & Hl & E)].
    + unfold token_keys, Re.sub_str in *. rewrite E in *.
      cbn [omap list_omap sub_segments fold_right] in *.
      unfold_M. rewrite (IH s st); [reflexivity|cbn in Hn; lia|exact Hk].
    + unfold token_keys, Re.sub_str in *. rewrite E in *.
      cbn [omap list_omap sub_segments Re.groups fst snd fmap list_fmap fold_right] in *.
      apply Forall_cons in Hk as [[Hk1 Hk1'] Hk2]. unfold_M.
      rewrite replacer_missing by assumption.
      rewrite (IH rest); [|cbn in Hn; lia|exact Hk2].
      f_equal. unfold warn, add_log, missing_warning. cbn.
      now rewrite <- app_assoc.
Qed.

(** X13. When the key of every token of the text is on the resolution
    path, the resolver keeps the whole text: it returns the text with its
    annotations removed, after one pass, and the log gains one warning of
    a circular reference for each token, in the order of the tokens. *)
Theorem cycles_are_left_in_place (d : nat) (text : string) (st : store) :
  Forall (fun key => key ∈ processed_keys st) (token_keys text) ->
  resolve_placeholders (S d) text st
  = (strip_parentheticals text,
     Store (name_map st) (processed_keys st)
       (log st ++ (cycle_warning <$> token_keys text))%list).
Proof.
  intros H. rewrite resolve_placeholders_S, passes_S.
  rewrite (pass_over_cycles _ (String.length text)) by (lia || exact H).
  now rewrite String.eqb_refl.
Qed.

Lemma cycles_are_left_in_place_witness :
  resolve_placeholders 3 "{1,1} or ({2,2}) {1,1}" (Store ∅ ["1_1"; "2_2"] [])
  = ("{1,1} or {1,1}",
     Store ∅ ["1_1"; "2_2"]
       [cycle_warning "1_1"; cycle_warning "2_2"; cycle_warning "1_1"]).
Proof.
  rewrite cycles_are_left_in_place; [reflexivity|].
  vm_compute. repeat constructor.
Defined.

(** The text in which every token has been replaced by ['Unknown'] holds
    no token. *)
Lemma sub_unknown_cons c s :
  (Re.placeholder (String c s) = None
   /\ Re.sub_str Re.placeholder "Unknown" (String c s)
      = String c (Re.sub_str Re.placeholder "Unknown" s))
  \/ (exists rest,
        (String.length rest <= String.length s)%nat
        /\ Re.sub_str Re.placeholder "Unknown" (String c s)
           = "Unknown" ++ Re.sub_str Re.placeholder "Unknown" rest).
Proof.
  destruct (scan_placeholder_cons c s) as [[E1 E2]|(p & t & rest & Hs & Hl & E)].
  - left. split; [exact E1|]. unfold Re.sub_str. now rewrite E2.
  - right. exists rest. split; [exact Hl|]. unfold Re.sub_str. now rewrite E.
Qed.

Lemma sub_unknown_prefix x :
  Forall (fun c => token_char c = true) (list_ascii_of_string x) ->
  forall s r', Re.sub_str Re.placeholder "Unknown" s = x ++ r' ->
               exists r, s = x ++ r.
Proof.
  induction x as [|a x IH]; intros Hx s r' E; [exists s; reflexivity|].
  cbn in Hx. apply Forall_cons in Hx as [Ha Hx]. rewrite app_String in E.
  destruct s as [|c s]; [discriminate E|].
  destruct (sub_unknown_cons c s) as [[_ E2]|(rest & _ & E2)]; rewrite E2 in E.
  - injection E as -> E. destruct (IH Hx s r' E) as [r ->].
    exists r. now rewrite app_String.
  - exfalso. injection E as <- _. discriminate Ha.
Qed.

Lemma chars_app a b :
  list_ascii_of_string (a ++ b)
  = (list_ascii_of_string a ++ list_ascii_of_string b)%list.
Proof. induction a as [|c a IH]; [reflexivity|]. rewrite app_String. cbn. now rewrite IH. Qed.

Lemma placeholder_depends_on_token s m :
  Re.placeholder s = Some m ->
  exists x rest, s = String "{" (x ++ rest)
                 /\ Forall (fun c => token_char c = true) (list_ascii_of_string x)
                 /\ forall rest', Re.placeholder (String "{" (x ++ rest')) <> None.
Proof.
  intros Hm. destruct (placeholder_inv _ _ Hm) as (p & t & rest & Hs & _ & Hp & Ht & Dp & Dt).
  exists (p ++ "," ++ t ++ "}"), rest. split; [|split].
  - rewrite Hs. unfold token. now rewrite !app_assoc', app_String, app_empty_l.
  - assert (Hd : forall d, all_digits d ->
                 Forall (fun c => token_char c = true) (list_ascii_of_string d)).
    { intros d Hd. eapply Forall_impl; [exact Hd|].
      intros c Hc. unfold token_char. now rewrite Hc. }
    rewrite !chars_app. repeat (apply Forall_app; split); auto; repeat constructor.
  - intros rest'. pose proof (placeholder_token p t rest' Hp Ht Dp Dt) as E.
    unfold token in E. rewrite !app_assoc', app_String, app_empty_l in E.
    rewrite !app_assoc'. now rewrite E.
Qed.

Lemma sub_unknown_no_token n :
  forall s, (String.length s <= n)%nat ->
            Re.search Re.placeholder (Re.sub_str Re.placeholder "Unknown" s) = false.
Proof.
  induction n as [|n IH]; intros s Hn.
  - destruct s; [reflexivity|cbn in Hn; lia].
  - destruct s as [|c s]; [reflexivity|].
    destruct (sub_unknown_cons c s) as [[E1 E2]|(rest & Hl & E2)]; rewrite E2.
    + cbn [Re.search]. rewrite IH by (cbn in Hn; lia). rewrite orb_false_r.
      apply bool_decide_eq_false. intros [m Hm].
      destruct (placeholder_depends_on_token _ m Hm) as (x & r' & Hs & Hx & Hall).
      injection Hs as -> Hs.
      destruct (sub_unknown_prefix x Hx s r' Hs) as [r ->].
      now apply (Hall r).
    + change ("Unknown" ++ ?o) with
        (String "U" (String "n" (String "k" (String "n" (String "o" (String "w" (String "n" o))))))).
      cbn [Re.search]. rewrite IH by (cbn in Hn; lia). reflexivity.
Qed.

(** X14. When the map binds the key of no token of the text (as for the
    empty map of a catalog that did not load), a call from an extractor
    returns the text with every token replaced by ['Unknown'] and the
    annotations removed. *)
Theorem all_missing_gives_unknown (text : string) (m : gmap string string) :
  Forall (fun key => m !! key = None) (token_keys text) ->
  resolve text m
  = strip_parentheticals (Re.sub_str Re.placeholder "Unknown" text)
  /\ resolve text ∅
     = strip_parentheticals (Re.sub_str Re.placeholder "Unknown" text).
Proof.
  assert (H : forall m' : gmap string string,
             Forall (fun key => m' !! key = None) (token_keys text) ->
             resolve text m'
             = strip_parentheticals (Re.sub_str Re.placeholder "Unknown" text)).
  { intros m' Hk. unfold resolve, run_resolve.
    rewrite resolve_placeholders_S, passes_S.
    rewrite (pass_over_missing _ (String.length text)); [|lia|].
    2:{ eapply Forall_impl; [exact Hk|]. intros key Hkey. split; [apply not_elem_of_nil|exact Hkey]. }
    destruct (String.eqb_spec (Re.sub_str Re.placeholder "Unknown" text) text) as [E|_].
    - cbn [fst]. now rewrite E.
    - rewrite passes_no_match; [reflexivity|].
      apply (sub_unknown_no_token (String.length text)). lia. }
  intros Hk. split; [now apply H|]. apply H.
  apply Forall_forall. intros key _. apply lookup_empty.
Qed.

Lemma all_missing_gives_unknown_witness :
  resolve "{1,1} of {20004,10} (x)" (<["7_7" := "seven"]> ∅) = "Unknown of Unknown".
Proof.
  rewrite (proj1 (all_missing_gives_unknown "{1,1} of {20004,10} (x)" (<["7_7" := "seven"]> ∅)
                    ltac:(vm_compute; repeat constructor))).
  reflexivity.
Defined.

(** ** The faction extractor *)

(** X15. The default exclusion patterns, [^timelines_map_] and [^demo_],
    are matched against ["id_" + id] and so exclude no faction: the rows
    are the ones written with no pattern at all. And a file that does not
    parse is passed over: the rows are the rows of the other files. *)
Theorem default_patterns_exclude_no_faction
    (name_map : gmap string string)
    (files1 files2 : list (string * document)) (source : string) :
  FactionExtractor.process_factions FactionExtractor.DEFAULT_EXCLUDE_PATTERNS
    name_map files1
  = FactionExtractor.process_factions [] name_map files1
  /\ forall exclude_patterns : list (string -> bool),
       FactionExtractor.process_factions exclude_patterns name_map
         (files1 ++ (source, None) :: files2)%list
       = FactionExtractor.process_factions exclude_patterns name_map
           (files1 ++ files2)%list.
Proof.
  split.
  - unfold FactionExtractor.process_factions.
    replace (files1 ≫= FactionExtractor.process_file
                          FactionExtractor.DEFAULT_EXCLUDE_PATTERNS name_map)
      with (files1 ≫= FactionExtractor.process_file [] name_map); [reflexivity|].
    induction files1 as [|[src [root|]] files IH]; [reflexivity| |exact IH].
    cbn [mbind list_bind]. rewrite IH. f_equal.
  - intros excl. unfold FactionExtractor.process_factions.
    now rewrite !bind_app, bind_cons.
Qed.

Lemma process_faction_some excl nm source faction r :
  FactionExtractor.process_faction excl nm source faction = Some r ->
  FactionExtractor.id r = FactionExtractor.get_stripped faction "id"
  /\ FactionExtractor.id r <> ""
  /\ existsb (fun matches : string -> bool => matches ("id_" ++ FactionExtractor.id r)) excl
     = false
  /\ FactionExtractor.name r = resolve (FactionExtractor.get_stripped faction "name") nm
  /\ FactionExtractor.shortname r
     = resolve (FactionExtractor.get_stripped faction "shortname") nm
  /\ FactionExtractor.prefixname r
     = resolve (FactionExtractor.get_stripped faction "prefixname") nm
  /\ FactionExtractor.spacename r
     = resolve (FactionExtractor.get_stripped faction "spacename") nm
  /\ FactionExtractor.homespacename r
     = resolve (FactionExtractor.get_stripped faction "homespacename") nm
  /\ FactionExtractor.primaryrace r = FactionExtractor.get_stripped faction "primaryrace"
  /\ FactionExtractor.source r = source.
Proof.
  unfold FactionExtractor.process_faction.
  destruct (FactionExtractor.get_stripped faction "id") as [|c s] eqn:E; [discriminate|].
  destruct (existsb _ excl) eqn:Ex; [discriminate|].
  intros [= <-]. cbn. repeat split; try assumption; discriminate.
Qed.

(** X16. The CSV of the factions is written only with at least one row.
    Every row has an identifier that is not empty and has no white space
    at its ends, that no exclusion pattern matches behind the prefix
    [id_]; its five names are results of the resolver, so none starts or
    ends with white space or holds an opening parenthesis with a closing
    one behind it. *)
Theorem faction_row_invariants
    (exclude_patterns : list (string -> bool)) (name_map : gmap string string)
    (factions_files : list (string * document)) (rows : list FactionExtractor.row) :
  FactionExtractor.process_factions exclude_patterns name_map factions_files = Some rows ->
  rows <> []
  /\ forall r : FactionExtractor.row,
       r ∈ rows ->
       FactionExtractor.id r <> ""
       /\ Py.strip (FactionExtractor.id r) = FactionExtractor.id r
       /\ Forall (fun matches => matches ("id_" ++ FactionExtractor.id r) = false)
            exclude_patterns
       /\ Forall (fun text => Py.strip text = text /\ open_then_close text = false)
            [FactionExtractor.name r; FactionExtractor.shortname r;
             FactionExtractor.prefixname r; FactionExtractor.spacename r;
             FactionExtractor.homespacename r].
Proof.
  unfold FactionExtractor.process_factions.
  destruct (factions_files ≫= _) as [|r0 rs] eqn:E; [discriminate|].
  intros [= <-]. split; [discriminate|]. intros r Hr. rewrite <- E in Hr.
  apply list_elem_of_bind in Hr as ([src [root|]] & Hr & _);
    unfold FactionExtractor.process_file in Hr; cbn [fst snd] in Hr; [|inversion Hr].
  apply list_elem_of_omap in Hr as (faction & _ & Hp).
  apply process_faction_some in Hp
    as (Hid & Hne & Hex & Hn1 & Hn2 & Hn3 & Hn4 & Hn5 & _).
  split; [exact Hne|]. split.
  { rewrite Hid. apply strip_idem. }
  split.
  { apply Forall_forall. intros p Hin.
    destruct (p ("id_" ++ FactionExtractor.id r)) eqn:Ep; [|reflexivity].
    assert (existsb (fun matches : string -> bool =>
                       matches ("id_" ++ FactionExtractor.id r)) exclude_patterns = true);
      [|congruence].
    apply existsb_exists. exists p. split; [now apply list_elem_of_In|exact Ep]. }
  rewrite Hn1, Hn2, Hn3, Hn4, Hn5.
  repeat constructor; apply resolve_clean.
Qed.

Lemma faction_row_invariants_witness :
  let faction :=
    Element "faction" (<["id" := " argon "]> (<["name" := "{20004,10}"]> ∅)) None [] in
  let files := [("original", Some (Element "factions" ∅ None [faction]))] in
  let rows := [FactionExtractor.Row "argon" "Hatikvah" "" "" "" "" "" "original"] in
  FactionExtractor.process_factions FactionExtractor.DEFAULT_EXCLUDE_PATTERNS
    example_names files = Some rows
  /\ rows <> [].
Proof.
  intros faction files rows.
  assert (E : FactionExtractor.process_factions FactionExtractor.DEFAULT_EXCLUDE_PATTERNS
                example_names files = Some rows) by (vm_compute; reflexivity).
  split; [exact E|]. exact (proj1 (faction_row_invariants _ _ _ rows E)).
Defined.

(** ** The ship extractor *)

Lemma insert_str_perm x l : Ships.insert_str x l ≡ₚ x :: l.
Proof.
  induction l as [|y l IH]; [reflexivity|].
  cbn [Ships.insert_str]. destruct (String.leb x y); [reflexivity|].
  rewrite IH. apply Permutation_swap.
Qed.

Lemma sorted_perm l : Ships.sorted l ≡ₚ l.
Proof.
  induction l as [|x l IH]; [reflexivity|].
  cbn [Ships.sorted fold_right]. fold (Ships.sorted l).
  rewrite insert_str_perm, IH. reflexivity.
Qed.

Lemma insert_str_hd x l a :
  str_le a x -> HdRel str_le a l -> HdRel str_le a (Ships.insert_str x l).
Proof.
  intros Hx Hl. destruct l as [|y l]; cbn [Ships.insert_str].
  - constructor. exact Hx.
  - destruct (String.leb x y); constructor; [exact Hx|].
    inversion Hl; assumption.
Qed.

Lemma insert_str_sorted x l :
  Sorted str_le l -> Sorted str_le (Ships.insert_str x l).
Proof.
  induction l as [|y l IH]; intros Hs; cbn [Ships.insert_str].
  - repeat constructor.
  - destruct (String.leb x y) eqn:E.
    + constructor; [exact Hs|]. constructor. exact E.
    + inversion Hs as [|? ? Hs' Hhd]; subst. constructor; [apply IH, Hs'|].
      apply insert_str_hd; [|exact Hhd].
      destruct (String.leb_total x y) as [H|H]; [congruence|exact H].
Qed.

Lemma sorted_sorted l : Sorted str_le (Ships.sorted l).
Proof.
  induction l as [|x l IH]; [constructor|].
  cbn [Ships.sorted fold_right]. apply insert_str_sorted, IH.
Qed.

Lemma enclosed_lookup (enclose : string -> string) (names : gset string) k v :
  Ships.enclosed enclose names !! k = Some v <-> k ∈ names /\ v = enclose k.
Proof.
  unfold Ships.enclosed. rewrite lookup_set_to_map.
  - split.
    + intros (y & Hy & E). injection E as <- <-. split; [exact Hy|reflexivity].
    + intros [Hk ->]. exists k. split; [exact Hk|reflexivity].
  - intros y y' _ _ E. exact E.
Qed.

Lemma enclosed_values_elem (enclose : string -> string) (names : gset string) c :
  c ∈ (snd <$> map_to_list (Ships.enclosed enclose names)) <->
  exists f, f ∈ names /\ c = enclose f.
Proof.
  rewrite list_elem_of_fmap. split.
  - intros ([k v] & -> & H). apply elem_of_map_to_list, enclosed_lookup in H.
    destruct H as [Hk ->]. exists k. split; [exact Hk|reflexivity].
  - intros (f & Hf & ->). exists (f, enclose f). split; [reflexivity|].
    apply elem_of_map_to_list, enclosed_lookup. split; [exact Hf|reflexivity].
Qed.

Lemma enclosed_values_NoDup (enclose : string -> string) (names : gset string) :
  Inj (=) (=) enclose ->
  NoDup (snd <$> map_to_list (Ships.enclosed enclose names)).
Proof.
  intros Hinj. apply NoDup_fmap_2_strong; [|apply NoDup_map_to_list].
  intros [k v] [k' v'] H H' E. cbn in E. subst v'.
  apply elem_of_map_to_list, enclosed_lookup in H, H'.
  destruct H as [_ ->], H' as [_ E]. apply Hinj in E. subst. reflexivity.
Qed.

Lemma enclose_faction_inj : Inj (=) (=) Ships.enclose_faction.
Proof.
  intros x y E. unfold Ships.enclose_faction in E.
  rewrite !app_String, !app_empty_l in E. injection E as E.
  revert y E. induction x as [|a x IH]; intros [|b y] E.
  - reflexivity.
  - rewrite app_empty_l, app_String in E. injection E as _ E.
    destruct y; discriminate E.
  - rewrite app_empty_l, app_String in E. injection E as _ E.
    destruct x; discriminate E.
  - rewrite !app_String in E. injection E as -> E. f_equal. apply IH, E.
Qed.

Lemma enclose_tag_inj : Inj (=) (=) Ships.enclose_tag.
Proof.
  intros x y E. unfold Ships.enclose_tag in E.
  rewrite !app_String, !app_empty_l in E. injection E as E.
  revert y E. induction x as [|a x IH]; intros [|b y] E.
  - reflexivity.
  - rewrite app_empty_l, app_String in E. injection E as _ E.
    destruct y; discriminate E.
  - rewrite app_empty_l, app_String in E. injection E as _ E.
    destruct x; discriminate E.
  - rewrite !app_String in E. injection E as -> E. f_equal. apply IH, E.
Qed.

Lemma names_set_elem (proj : Ships.ship_record -> list string)
    (data : list Ships.ship_record) f :
  f ∈ (list_to_set (data ≫= proj) : gset string) <->
  exists s, s ∈ data /\ f ∈ proj s.
Proof.
  rewrite elem_of_list_to_set, list_elem_of_bind. split.
  - intros (s & Hf & Hs). exists s. split; assumption.
  - intros (s & Hs & Hf). exists s. split; assumption.
Qed.

Lemma foldl_false_lookup (cols : list string) (row : gmap string string) k :
  foldl (fun row col => <[col := "FALSE"]> row) row cols !! k =
  if bool_decide (k ∈ cols) then Some "FALSE" else row !! k.
Proof.
  revert row. induction cols as [|c cols IH] using rev_ind; intros row.
  - cbn [foldl]. rewrite bool_decide_eq_false_2; [reflexivity|]. apply not_elem_of_nil.
  - rewrite foldl_app. cbn [foldl]. destruct (decide (c = k)) as [->|Hne].
    + rewrite lookup_insert_eq. rewrite bool_decide_eq_true_2; [reflexivity|].
      apply elem_of_app. right. apply list_elem_of_singleton. reflexivity.
    + rewrite lookup_insert_ne by exact Hne. rewrite IH.
      destruct (bool_decide (k ∈ cols)) eqn:E.
      * apply bool_decide_eq_true_1 in E. rewrite bool_decide_eq_true_2; [reflexivity|].
        apply elem_of_app. left. exact E.
      * apply bool_decide_eq_false_1 in E. rewrite bool_decide_eq_false_2; [reflexivity|].
        rewrite elem_of_app, list_elem_of_singleton. intros [H|H]; [auto|congruence].
Qed.

Lemma mark_lookup (enclose : string -> string) (names : gset string)
    (row : gmap string string) name k :
  (forall x, enclose x <> "") ->
  Ships.mark (Ships.enclosed enclose names) row name !! k =
  if bool_decide (name ∈ names /\ k = enclose name) then Some "TRUE" else row !! k.
Proof.
  intros Hne. unfold Ships.mark.
  destruct (Ships.enclosed enclose names !! name) as [v|] eqn:E.
  - apply enclosed_lookup in E. destruct E as [Hin ->].
    destruct (enclose name) as [|a e] eqn:Ee; [destruct (Hne _ Ee)|].
    cbn [truthy]. destruct (decide (k = String a e)) as [->|Hk].
    + rewrite lookup_insert_eq. rewrite bool_decide_eq_true_2; [reflexivity|]. auto.
    + rewrite lookup_insert_ne by congruence.
      rewrite bool_decide_eq_false_2; [reflexivity|]. intros [_ H]. auto.
  - cbn [truthy]. rewrite bool_decide_eq_false_2; [reflexivity|].
    intros [Hin _].
    assert (H : Ships.enclosed enclose names !! name = Some (enclose name))
      by (apply enclosed_lookup; auto).
    congruence.
Qed.

Lemma foldl_mark_hit (enclose : string -> string) (names : gset string)
    (l : list string) (row : gmap string string) n :
  (forall x, enclose x <> "") -> n ∈ l -> n ∈ names ->
  foldl (Ships.mark (Ships.enclosed enclose names)) row l !! enclose n = Some "TRUE".
Proof.
  intros Hne. revert row. induction l as [|c l IH] using rev_ind; intros row Hl Hn.
  - apply not_elem_of_nil in Hl. destruct Hl.
  - rewrite foldl_app. cbn [foldl]. rewrite mark_lookup by exact Hne.
    destruct (bool_decide (c ∈ names /\ enclose n = enclose c)) eqn:E; [reflexivity|].
    apply bool_decide_eq_false_1 in E. apply elem_of_app in Hl. destruct Hl as [Hl|Hl].
    + apply IH; assumption.
    + apply list_elem_of_singleton in Hl. subst c. destruct E. auto.
Qed.

Lemma foldl_mark_miss (enclose : string -> string) (names : gset string)
    (l : list string) (row : gmap string string) k :
  (forall x, enclose x <> "") ->
  (forall n, n ∈ l -> n ∈ names -> k <> enclose n) ->
  foldl (Ships.mark (Ships.enclosed enclose names)) row l !! k = row !! k.
Proof.
  intros Hne. revert row. induction l as [|c l IH] using rev_ind; intros row Hk.
  - reflexivity.
  - rewrite foldl_app. cbn [foldl]. rewrite mark_lookup by exact Hne.
    rewrite bool_decide_eq_false_2.
    + apply IH. intros n Hn. apply Hk, elem_of_app. left. exact Hn.
    + intros [Hc E]. apply (Hk c); [|exact Hc|exact E].
      apply elem_of_app. right. apply list_elem_of_singleton. reflexivity.
Qed.

Lemma enclose_faction_head f : Ships.enclose_faction f = String "(" (f ++ ")").
Proof. unfold Ships.enclose_faction. rewrite app_String, app_empty_l. reflexivity. Qed.

Lemma enclose_tag_head t : Ships.enclose_tag t = String "[" (t ++ "]").
Proof. unfold Ships.enclose_tag. rewrite app_String, app_empty_l. reflexivity. Qed.

Lemma sorted_factions_elem data c :
  c ∈ Ships.sorted_factions data <->
  exists s f, s ∈ data /\ f ∈ Ships.factions s /\ c = Ships.enclose_faction f.
Proof.
  unfold Ships.sorted_factions. rewrite sorted_perm, enclosed_values_elem.
  unfold Ships.factions_set. split.
  - intros (f & Hf & ->). apply names_set_elem in Hf. destruct Hf as (s & Hs & Hf).
    exists s, f. auto.
  - intros (s & f & Hs & Hf & ->). exists f. split; [|reflexivity].
    apply names_set_elem. exists s. auto.
Qed.

Lemma sorted_tags_elem data c :
  c ∈ Ships.sorted_tags data <->
  exists s t, s ∈ data /\ t ∈ Ships.tags s /\ c = Ships.enclose_tag t.
Proof.
  unfold Ships.sorted_tags. rewrite sorted_perm, enclosed_values_elem.
  unfold Ships.tags_set. split.
  - intros (f & Hf & ->). apply names_set_elem in Hf. destruct Hf as (s & Hs & Hf).
    exists s, f. auto.
  - intros (s & f & Hs & Hf & ->). exists f. split; [|reflexivity].
    apply names_set_elem. exists s. auto.
Qed.

(** What the dict [row] of a ship holds under a column that is no
    faction and no tag column, under a faction column and under a tag
    column. *)
Lemma row_dict_fixed data s k :
  (forall f, k <> Ships.enclose_faction f) -> (forall t, k <> Ships.enclose_tag t) ->
  Ships.row_dict data s !! k =
  (<["source" := Ships.source s]> (<["size" := Ships.size s]>
     (<["group" := Ships.group s]> (<["id" := Ships.id s]> ∅))) : gmap string string) !! k.
Proof.
  intros Hf Ht. unfold Ships.row_dict.
  rewrite foldl_mark_miss;
    [|intros x; rewrite enclose_tag_head; discriminate|intros n _ _; apply Ht].
  rewrite foldl_mark_miss;
    [|intros x; rewrite enclose_faction_head; discriminate|intros n _ _; apply Hf].
  rewrite foldl_false_lookup, bool_decide_eq_false_2.
  - rewrite foldl_false_lookup, bool_decide_eq_false_2; [reflexivity|].
    intros H. apply sorted_factions_elem in H. destruct H as (? & f & _ & _ & E).
    exact (Hf f E).
  - intros H. apply sorted_tags_elem in H. destruct H as (? & t & _ & _ & E).
    exact (Ht t E).
Qed.

Lemma row_dict_faction data s c :
  c ∈ Ships.sorted_factions data ->
  Ships.row_dict data s !! c = Some (flag Ships.enclose_faction (Ships.factions s) c).
Proof.
  intros Hc. pose proof Hc as Hc'. apply sorted_factions_elem in Hc'.
  destruct Hc' as (s0 & f & Hs0 & Hf & ->).
  assert (Hset : f ∈ Ships.factions_set data)
    by (apply names_set_elem; exists s0; auto).
  unfold Ships.row_dict.
  rewrite foldl_mark_miss;
    [|intros x; rewrite enclose_tag_head; discriminate
     |intros n _ _; rewrite enclose_faction_head, enclose_tag_head; discriminate].
  unfold flag. destruct (bool_decide (Ships.enclose_faction f ∈
                                      Ships.enclose_faction <$> Ships.factions s)) eqn:E.
  - apply bool_decide_eq_true_1, list_elem_of_fmap in E. destruct E as (n & E & Hn).
    apply enclose_faction_inj in E. subst n.
    apply foldl_mark_hit; [intros x; rewrite enclose_faction_head; discriminate|exact Hn|exact Hset].
  - apply bool_decide_eq_false_1 in E.
    rewrite foldl_mark_miss; [|intros x; rewrite enclose_faction_head; discriminate|].
    + rewrite foldl_false_lookup, bool_decide_eq_false_2.
      * rewrite foldl_false_lookup, bool_decide_eq_true_2; [reflexivity|exact Hc].
      * intros H. apply sorted_tags_elem in H. destruct H as (? & t & _ & _ & H).
        rewrite enclose_faction_head, enclose_tag_head in H. discriminate H.
    + intros n Hn _ En. apply enclose_faction_inj in En. subst n.
      apply E, list_elem_of_fmap_2, Hn.
Qed.

Lemma row_dict_tag data s c :
  c ∈ Ships.sorted_tags data ->
  Ships.row_dict data s !! c = Some (flag Ships.enclose_tag (Ships.tags s) c).
Proof.
  intros Hc. pose proof Hc as Hc'. apply sorted_tags_elem in Hc'.
  destruct Hc' as (s0 & t & Hs0 & Ht & ->).
  assert (Hset : t ∈ Ships.tags_set data)
    by (apply names_set_elem; exists s0; auto).
  unfold Ships.row_dict. unfold flag.
  destruct (bool_decide (Ships.enclose_tag t ∈ Ships.enclose_tag <$> Ships.tags s)) eqn:E.
  - apply bool_decide_eq_true_1, list_elem_of_fmap in E. destruct E as (n & E & Hn).
    apply enclose_tag_inj in E. subst n.
    apply foldl_mark_hit; [intros x; rewrite enclose_tag_head; discriminate|exact Hn|exact Hset].
  - apply bool_decide_eq_false_1 in E.
    rewrite foldl_mark_miss; [|intros x; rewrite enclose_tag_head; discriminate|].
    + rewrite foldl_mark_miss;
        [|intros x; rewrite enclose_faction_head; discriminate
         |intros n _ _; rewrite enclose_faction_head, enclose_tag_head; discriminate].
      rewrite foldl_false_lookup, bool_decide_eq_true_2; [reflexivity|exact Hc].
    + intros n Hn _ En. apply enclose_tag_inj in En. subst n.
      apply E, list_elem_of_fmap_2, Hn.
Qed.

(** X17. The header of [ships_output.csv] behind its four fixed columns:
    the faction columns, then the tag columns, each part ascending in the
    order of the code points and without a repetition; a faction column
    is the name of a faction of some extracted ship in round brackets, a
    tag column the name of a tag of some extracted ship in square
    brackets, and no column name occurs twice in the header. *)
Theorem ship_columns (data : list Ships.ship_record) :
  Sorted str_le (Ships.sorted_factions data) /\
  Sorted str_le (Ships.sorted_tags data) /\
  (forall c, c ∈ Ships.sorted_factions data <->
     exists s f, s ∈ data /\ f ∈ Ships.factions s /\ c = "(" ++ f ++ ")") /\
  (forall c, c ∈ Ships.sorted_tags data <->
     exists s t, s ∈ data /\ t ∈ Ships.tags s /\ c = "[" ++ t ++ "]") /\
  NoDup (Ships.csv_columns data).
Proof.
  split; [apply sorted_sorted|]. split; [apply sorted_sorted|].
  split; [apply sorted_factions_elem|]. split; [apply sorted_tags_elem|].
  assert (HF : NoDup (Ships.sorted_factions data)).
  { unfold Ships.sorted_factions. rewrite sorted_perm.
    apply enclosed_values_NoDup, enclose_faction_inj. }
  assert (HT : NoDup (Ships.sorted_tags data)).
  { unfold Ships.sorted_tags. rewrite sorted_perm.
    apply enclosed_values_NoDup, enclose_tag_inj. }
  assert (Hfix : forall k, k ∈ ["id"; "group"; "size"; "source"] ->
            k ∉ (Ships.sorted_factions data ++ Ships.sorted_tags data)%list).
  { intros k Hk H. apply elem_of_app in H. destruct H as [H|H].
    - apply sorted_factions_elem in H. destruct H as (? & f & _ & _ & ->).
      rewrite enclose_faction_head in Hk.
      repeat (apply elem_of_cons in Hk; destruct Hk as [Hk|Hk]; [discriminate Hk|]).
      apply not_elem_of_nil in Hk. exact Hk.
    - apply sorted_tags_elem in H. destruct H as (? & t & _ & _ & ->).
      rewrite enclose_tag_head in Hk.
      repeat (apply elem_of_cons in Hk; destruct Hk as [Hk|Hk]; [discriminate Hk|]).
      apply not_elem_of_nil in Hk. exact Hk. }
  unfold Ships.csv_columns. apply NoDup_app. split; [|split].
  - repeat (apply NoDup_cons; split;
            [rewrite ?elem_of_cons, elem_of_nil; intros H; decompose [or] H;
             discriminate || assumption|]).
    apply NoDup_nil. exact I.
  - exact Hfix.
  - apply NoDup_app. split; [exact HF|]. split; [|exact HT].
    intros c Hc H. apply sorted_factions_elem in Hc. apply sorted_tags_elem in H.
    destruct Hc as (? & f & _ & _ & ->), H as (? & t & _ & _ & H).
    rewrite enclose_faction_head, enclose_tag_head in H. discriminate H.
Qed.

(** X18. The line of a ship in [ships_output.csv]: its id, group, size
    and source, then for each faction column ['TRUE'] when the ship lists
    that faction and ['FALSE'] when it does not, then the same for each
    tag column; the line has as many fields as the header. *)
Theorem ship_line_flags (data : list Ships.ship_record) (s : Ships.ship_record) :
  Ships.csv_line data s =
    ([Ships.id s; Ships.group s; Ships.size s; Ships.source s]
     ++ (flag Ships.enclose_faction (Ships.factions s) <$> Ships.sorted_factions data)
     ++ (flag Ships.enclose_tag (Ships.tags s) <$> Ships.sorted_tags data))%list /\
  length (Ships.csv_line data s) = length (Ships.csv_columns data).
Proof.
  split; [|unfold Ships.csv_line; apply length_fmap].
  unfold Ships.csv_line, Ships.csv_columns. rewrite !fmap_app. f_equal; [|f_equal].
  - cbn [fmap list_fmap].
    rewrite !row_dict_fixed
      by (intros x; rewrite ?enclose_faction_head, ?enclose_tag_head; discriminate).
    reflexivity.
  - apply list_fmap_ext. intros i c Hc. apply list_elem_of_lookup_2 in Hc.
    rewrite row_dict_faction by exact Hc. reflexivity.
  - apply list_fmap_ext. intros i c Hc. apply list_elem_of_lookup_2 in Hc.
    rewrite row_dict_tag by exact Hc. reflexivity.
Qed.

Lemma word_inv s m :
  Ships.word s = Some m ->
  Re.group0 m = fst (Py.span Ships.is_word s) /\ is_name (Re.group0 m).
Proof.
  unfold Ships.word. intros H.
  pose proof (span_spec Ships.is_word s) as (_ & Hall & _).
  destruct (fst (Py.span Ships.is_word s)) as [|a w] eqn:E; [discriminate H|].
  injection H as <-. cbn [Re.group0]. split; [reflexivity|].
  split; [discriminate|exact Hall].
Qed.

Lemma scan_word_names skip s :
  Forall is_name
    (omap (fun seg => match seg with Re.Hit m => Some (Re.group0 m) | Re.Lit _ => None end)
          (Re.scan Ships.word skip s)).
Proof.
  revert skip. induction s as [|c s IH]; intros skip; [constructor|].
  cbn [Re.scan]. destruct skip as [|k]; [|apply IH].
  destruct (Ships.word (String c s)) as [m|] eqn:E.
  - cbn [omap list_omap]. constructor; [|apply IH]. apply (word_inv _ _ E).
  - cbn [omap list_omap]. apply IH.
Qed.

Lemma findall_word_names s : Forall is_name (Re.findall Ships.word s).
Proof. apply scan_word_names. Qed.

Lemma findall_word_skip c rest :
  Ships.is_word c = false ->
  Re.findall Ships.word (String c rest) = Re.findall Ships.word rest.
Proof.
  intros Hc. unfold Re.findall, Re.finditer. cbn [Re.scan].
  unfold Ships.word at 1. cbn [Py.span]. rewrite Hc. cbn [fst]. reflexivity.
Qed.

Lemma findall_word_hit w rest :
  is_name w ->
  match rest with String c _ => Ships.is_word c = false | EmptyString => True end ->
  Re.findall Ships.word (w ++ rest) = w :: Re.findall Ships.word rest.
Proof.
  intros [Hne Hall] Hrest. unfold Re.findall, Re.finditer.
  assert (Hm : Ships.word (w ++ rest) = Some (Re.Match w tt)).
  { unfold Ships.word. rewrite (span_app _ _ _ Hall Hrest). cbn [fst].
    destruct w; [congruence|reflexivity]. }
  rewrite (scan_hit _ _ _ rest Hm); [reflexivity|reflexivity|exact Hne].
Qed.

(** X20. The names of a faction or tag attribute: a text that joins
    names of word characters with one character that is no word
    character is split by [re.findall(r'\w+', _)] into these names. *)
Theorem findall_word_join (names : list string) (sep : ascii) :
  Forall is_name names -> Ships.is_word sep = false ->
  Re.findall Ships.word (String.concat (String sep "") names) = names.
Proof.
  intros Hall Hsep. induction Hall as [|w names Hw Hall IH]; [reflexivity|].
  cbn [String.concat]. destruct names as [|w' names].
  - rewrite <- (app_empty_r w) at 1. rewrite findall_word_hit; [reflexivity|exact Hw|exact I].
  - rewrite findall_word_hit; [|exact Hw|rewrite app_String; exact Hsep].
    rewrite app_String, app_empty_l, findall_word_skip by exact Hsep.
    rewrite IH. reflexivity.
Qed.

Lemma findall_word_join_witness :
  Re.findall Ships.word (String.concat " " ["argon"; "antigone"; "xenon"])
  = ["argon"; "antigone"; "xenon"].
Proof.
  apply (findall_word_join ["argon"; "antigone"; "xenon"] " "); [|reflexivity].
  repeat constructor; discriminate.
Defined.

Lemma strip_trimmed s : trimmed (Py.strip s).
Proof. apply strip_idem. Qed.

Lemma category_get_trimmed category key : trimmed (Ships.category_get category key).
Proof. destruct category; [apply strip_idem|reflexivity]. Qed.

Lemma process_ship_some source ship s :
  Ships.process_ship source ship = Some s ->
  Ships.id s = Py.strip (default "" (attrib ship !! "id")) /\ Ships.id s <> "" /\
  Ships.group s = Py.strip (default "" (attrib ship !! "group")) /\
  Ships.size s = Ships.category_get (find_child "category" ship) "size" /\
  Ships.source s = source /\
  Ships.factions s
    = Re.findall Ships.word (Ships.category_get (find_child "category" ship) "faction") /\
  Ships.tags s
    = Re.findall Ships.word (Ships.category_get (find_child "category" ship) "tags").
Proof.
  unfold Ships.process_ship.
  destruct (Py.strip (default "" (attrib ship !! "id"))) as [|a i] eqn:E; [discriminate|].
  intros H. injection H as <-. cbn. repeat split; try reflexivity. discriminate.
Qed.

Lemma ships_data_elem files s :
  s ∈ Ships.ships_data files <->
  exists root ship, (Ships.source s, Some root) ∈ files /\ ship ∈ children root /\
                    tag ship = "ship" /\ Ships.process_ship (Ships.source s) ship = Some s.
Proof.
  unfold Ships.ships_data. rewrite list_elem_of_bind. split.
  - intros ([src [root|]] & Hs & Hf); unfold Ships.ships_of_file in Hs; cbn [fst snd] in Hs.
    + apply list_elem_of_omap in Hs. destruct Hs as (ship & Hship & Hp).
      apply list_elem_of_In, filter_In in Hship. destruct Hship as [Hin Htag].
      pose proof (process_ship_some _ _ _ Hp) as (_ & _ & _ & _ & Esrc & _).
      subst src. exists root, ship. split; [exact Hf|]. split; [apply list_elem_of_In, Hin|].
      split; [|exact Hp]. apply String.eqb_eq, Htag.
    + apply not_elem_of_nil in Hs. destruct Hs.
  - intros (root & ship & Hf & Hship & Htag & Hp).
    exists (Ships.source s, Some root). split; [|exact Hf].
    unfold Ships.ships_of_file. cbn [fst snd]. apply list_elem_of_omap.
    exists ship. split; [|exact Hp]. apply list_elem_of_In, filter_In.
    split; [apply list_elem_of_In, Hship|]. apply String.eqb_eq, Htag.
Qed.

(** X19. A ship taken from the files: it comes from a child element
    [ship] of the root of a file that parsed and carries the label of
    that file; its id is not empty; id, group and size have no white
    space at their ends; each of its factions and tags is a name of word
    characters, not empty. *)
Theorem ship_record_invariants (files : list (string * document)) (s : Ships.ship_record) :
  s ∈ Ships.ships_data files ->
  (exists root ship, (Ships.source s, Some root) ∈ files /\ ship ∈ children root /\
                     tag ship = "ship" /\
                     Ships.process_ship (Ships.source s) ship = Some s) /\
  Ships.id s <> "" /\ trimmed (Ships.id s) /\ trimmed (Ships.group s) /\
  trimmed (Ships.size s) /\
  Forall is_name (Ships.factions s) /\ Forall is_name (Ships.tags s).
Proof.
  intros Hs. apply ships_data_elem in Hs. split; [exact Hs|].
  destruct Hs as (root & ship & _ & _ & _ & Hp).
  apply process_ship_some in Hp. destruct Hp as (Ei & Hne & Eg & Ez & _ & Ef & Et).
  split; [exact Hne|]. rewrite Ei, Eg, Ez, Ef, Et.
  split; [apply strip_trimmed|]. split; [apply strip_trimmed|].
  split; [apply category_get_trimmed|].
  split; apply findall_word_names.
Qed.

Lemma ship_record_invariants_witness :
  let ship :=
    Element "ship" (<["id" := " ship_arg_s_fighter_01 "]> ∅) None
      [Element "category"
         (<["faction" := "argon, antigone"]> (<["size" := "ship_s"]> ∅)) None []] in
  let files := [("original", Some (Element "ships" ∅ None [ship]))] in
  let s := Ships.Ship "ship_arg_s_fighter_01" "" "ship_s" "original"
             ["argon"; "antigone"] [] in
  s ∈ Ships.ships_data files /\ Ships.id s <> "" /\ Forall is_name (Ships.factions s).
Proof.
  intros ship files s.
  assert (H : s ∈ Ships.ships_data files) by (vm_compute; left).
  split; [exact H|].
  pose proof (ship_record_invariants files s H) as (_ & Hid & _ & _ & _ & Hf & _).
  split; [exact Hid|exact Hf].
Defined.

(** ** The discovery of the files *)

Section DiscoveryFacts.
Variable path_join : list string -> string.
Variable path_exists : string -> bool.
Variable listdir : string -> option (list string).

Lemma find_files_spec base_path extensions_path ext_path files :
  Discovery.find_files path_exists listdir base_path extensions_path ext_path = Some files ->
  exists dirs,
    (if path_exists extensions_path then listdir extensions_path = Some dirs else dirs = []) /\
    files = ((if path_exists base_path then [("original", base_path)] else [])
             ++ ((fun d => (d, ext_path d)) <$> List.filter (fun d => path_exists (ext_path d)) dirs))%list.
Proof.
  unfold Discovery.find_files.
  assert (Homap : forall dirs,
            omap (fun ext_dir => if path_exists (ext_path ext_dir)
                                 then Some (ext_dir, ext_path ext_dir) else None) dirs
            = (fun d => (d, ext_path d)) <$> List.filter (fun d => path_exists (ext_path d)) dirs).
  { induction dirs as [|d dirs IH]; [reflexivity|].
    cbn [omap list_omap List.filter]. destruct (path_exists (ext_path d)).
    - cbn [fmap list_fmap]. f_equal. exact IH.
    - exact IH. }
  destruct (path_exists extensions_path).
  - destruct (listdir extensions_path) as [dirs|]; [|discriminate].
    intros H. injection H as <-. exists dirs. split; [reflexivity|].
    rewrite Homap. reflexivity.
  - intros H. injection H as <-. exists []. split; [reflexivity|].
    cbn [List.filter fmap list_fmap]. rewrite app_nil_r. reflexivity.
Qed.

Lemma find_files_exist base_path extensions_path ext_path files :
  Discovery.find_files path_exists listdir base_path extensions_path ext_path = Some files ->
  Forall (fun f => path_exists (snd f) = true) files.
Proof.
  intros H. apply find_files_spec in H. destruct H as (dirs & _ & ->).
  apply Forall_app. split.
  - destruct (path_exists base_path) eqn:E; [|constructor].
    constructor; [exact E|constructor].
  - apply Forall_fmap, Forall_forall. intros d Hd.
    apply list_elem_of_In, filter_In in Hd. exact (proj2 Hd).
Qed.

Lemma find_files_labels base_path extensions_path ext_path files label path :
  Discovery.find_files path_exists listdir base_path extensions_path ext_path = Some files ->
  (label, path) ∈ files ->
  (label = "original" /\ path = base_path) \/
  (path = ext_path label /\ path_exists extensions_path = true /\
   exists dirs, listdir extensions_path = Some dirs /\ label ∈ dirs).
Proof.
  intros H Hin. apply find_files_spec in H. destruct H as (dirs & Hdirs & ->).
  apply elem_of_app in Hin. destruct Hin as [Hin|Hin].
  - left. destruct (path_exists base_path); [|apply not_elem_of_nil in Hin; destruct Hin].
    apply list_elem_of_singleton in Hin. injection Hin as -> ->. auto.
  - right. apply list_elem_of_fmap in Hin. destruct Hin as (d & E & Hd).
    injection E as -> ->. apply list_elem_of_In, filter_In in Hd. destruct Hd as [Hd _].
    split; [reflexivity|]. destruct (path_exists extensions_path).
    + split; [reflexivity|]. exists dirs. split; [exact Hdirs|apply list_elem_of_In, Hd].
    + subst dirs. destruct Hd.
Qed.

Lemma filter_sublist {A} (p : A -> bool) (l : list A) : List.filter p l `sublist_of` l.
Proof.
  induction l as [|x l IH]; [constructor|].
  cbn [List.filter]. destruct (p x); [apply sublist_skip|apply sublist_cons]; exact IH.
Qed.

Lemma find_files_order base_path extensions_path ext_path files :
  Discovery.find_files path_exists listdir base_path extensions_path ext_path = Some files ->
  exists dirs,
    (if path_exists extensions_path then listdir extensions_path = Some dirs else dirs = []) /\
    (fst <$> files) `sublist_of` ("original" :: dirs).
Proof.
  intros H. apply find_files_spec in H. destruct H as (dirs & Hdirs & ->).
  exists dirs. split; [exact Hdirs|].
  rewrite fmap_app, <- list_fmap_compose.
  replace ((fst ∘ (fun d => (d, ext_path d))) <$> List.filter (fun d => path_exists (ext_path d)) dirs)
    with (List.filter (fun d => path_exists (ext_path d)) dirs)
    by (symmetry; apply list_fmap_id).
  destruct (path_exists base_path); cbn [fmap list_fmap app fst].
  - apply sublist_skip, filter_sublist.
  - apply sublist_cons, filter_sublist.
Qed.

(** X21. The files that the four discovery functions return: each path
    exists; the labels are ['original'] for the file of the base game,
    which comes first, and then entries of the listing of the extensions
    folder in the order of the listing (no entry when that folder does
    not exist); and [find_wares_files] never returns an empty list. *)
Theorem found_files_exist (base_folder : string) (files : list (string * string)) :
  Discovery.find_factions_files path_join path_exists listdir base_folder = Some files \/
  Discovery.find_mapdefaults_files path_join path_exists listdir base_folder = Some files \/
  Discovery.find_ships_files path_join path_exists listdir base_folder = Some files \/
  Discovery.find_wares_files path_join path_exists listdir base_folder = Some files ->
  Forall (fun f => path_exists (snd f) = true) files /\
  (exists dirs,
     (if path_exists (path_join [base_folder; "extensions"])
      then listdir (path_join [base_folder; "extensions"]) = Some dirs
      else dirs = []) /\
     (fst <$> files) `sublist_of` ("original" :: dirs)) /\
  Discovery.find_wares_files path_join path_exists listdir base_folder <> Some [].
Proof.
  intros H. split; [|split].
  - destruct H as [H|[H|[H|H]]];
      [apply (find_files_exist _ _ _ _ H)..|].
    unfold Discovery.find_wares_files in H.
    destruct (Discovery.find_files _ _ _ _ _) as [[|f fs]|] eqn:E; [discriminate H| |discriminate H].
    injection H as <-. apply (find_files_exist _ _ _ _ E).
  - destruct H as [H|[H|[H|H]]];
      [apply (find_files_order _ _ _ _ H)..|].
    unfold Discovery.find_wares_files in H.
    destruct (Discovery.find_files _ _ _ _ _) as [[|f fs]|] eqn:E; [discriminate H| |discriminate H].
    injection H as <-. apply (find_files_order _ _ _ _ E).
  - unfold Discovery.find_wares_files.
    destruct (Discovery.find_files _ _ _ _ _) as [[|f fs]|]; discriminate.
Qed.

End DiscoveryFacts.

Lemma found_files_exist_witness :
  let path_join := String.concat "/" in
  let path_exists := fun p =>
    String.eqb p "x4/libraries/ships.xml" || String.eqb p "x4/extensions"
    || String.eqb p "x4/extensions/ego_dlc_split/libraries/ships.xml" in
  let listdir := fun p =>
    if String.eqb p "x4/extensions" then Some ["ego_dlc_split"; "ego_dlc_terran"] else None in
  let files := [("original", "x4/libraries/ships.xml");
                ("ego_dlc_split", "x4/extensions/ego_dlc_split/libraries/ships.xml")] in
  Discovery.find_ships_files path_join path_exists listdir "x4" = Some files /\
  Forall (fun f => path_exists (snd f) = true) files.
Proof.
  intros path_join path_exists listdir files.
  assert (H : Discovery.find_ships_files path_join path_exists listdir "x4" = Some files)
    by reflexivity.
  split; [exact H|].
  exact (proj1 (found_files_exist path_join path_exists listdir "x4" files
                  (or_intror (or_intror (or_introl H))))).
Defined.

(** ** The decimal numerals *)

Lemma is_digit_cases c :
  Py.is_digit c = true ->
  (c = "0" \/ c = "1" \/ c = "2" \/ c = "3" \/ c = "4" \/ c = "5" \/ c = "6" \/ c = "7"
   \/ c = "8" \/ c = "9")%char.
Proof.
  destruct c as [[|] [|] [|] [|] [|] [|] [|] [|]]; intros H;
    try discriminate H; tauto.
Qed.

Lemma uint_of_digits d :
  all_digits d -> exists u, NilEmpty.uint_of_string d = Some u.
Proof.
  induction d as [|c d IH]; intros H; [exists Decimal.Nil; reflexivity|].
  inversion H as [|? ? Hc Hd]; subst. destruct (IH Hd) as [u Hu].
  cbn [NilEmpty.uint_of_string]. rewrite Hu.
  destruct (is_digit_cases c Hc) as [->|[->|[->|[->|[->|[->|[->|[->|[->| ->]]]]]]]]];
    eexists; reflexivity.
Qed.

Lemma digits_value_uint d : forall u acc,
  NilEmpty.uint_of_string d = Some u ->
  Py.digits_value acc d
  = (Z.of_N (DecimalPos.Unsigned.of_lu (Decimal.rev u))
     + acc * 10 ^ Z.of_N (DecimalPos.Unsigned.usize u))%Z.
Proof.
  induction d as [|c d IH]; intros u acc H.
  - injection H as <-. cbn. lia.
  - cbn [NilEmpty.uint_of_string] in H.
    destruct (NilEmpty.uint_of_string d) as [u'|] eqn:E; [|discriminate H].
    cbn [Py.digits_value]. rewrite (IH u' _ eq_refl).
    apply uint_of_char_spec in H.
    assert (Hpow : forall k : N, (10 ^ Z.of_N (N.succ k) = 10 * 10 ^ Z.of_N k)%Z).
    { intros k. rewrite N2Z.inj_succ. apply Z.pow_succ_r. lia. }
    destruct H as [[-> ->]|[[-> ->]|[[-> ->]|[[-> ->]|[[-> ->]|[[-> ->]|[[-> ->]|[[-> ->]|
                   [[-> ->]|[-> ->]]]]]]]]]];
      unfold Decimal.rev; cbn [Decimal.revapp];
      match goal with
      | |- context [Decimal.revapp u' (?D Decimal.Nil)] =>
          rewrite (DecimalPos.Unsigned.of_lu_revapp u' (D Decimal.Nil))
      end;
      change (Decimal.revapp u' Decimal.Nil) with (Decimal.rev u');
      cbn [DecimalPos.Unsigned.usize]; rewrite Hpow;
      rewrite N2Z.inj_add, N2Z.inj_mul, N2Z.inj_pow;
      change (Z.of_N 10) with 10%Z;
      generalize (Z.of_N (DecimalPos.Unsigned.of_lu (Decimal.rev u'))); intros a;
      generalize (10 ^ Z.of_N (DecimalPos.Unsigned.usize u'))%Z; intros b;
      match goal with
      | |- context [Z.of_nat ?n] =>
          let v := eval vm_compute in (Z.of_nat n) in change (Z.of_nat n) with v
      end;
      match goal with
      | |- context [Z.of_N ?n] =>
          let v := eval vm_compute in (Z.of_N n) in change (Z.of_N n) with v
      end; lia.
Qed.

Lemma digits_value_of_uint d u :
  NilEmpty.uint_of_string d = Some u -> Py.digits_value 0 d = Z.of_uint u.
Proof.
  intros H. rewrite (digits_value_uint d u 0 H).
  unfold Z.of_uint. rewrite DecimalPos.Unsigned.of_uint_alt. lia.
Qed.

Lemma string_of_nzhead u :
  NilEmpty.string_of_uint (Decimal.nzhead u)
  = Py.lstrip_with (Ascii.eqb "0") (NilEmpty.string_of_uint u).
Proof.
  induction u; try reflexivity. cbn [Decimal.nzhead NilEmpty.string_of_uint].
  rewrite IHu. unfold Py.lstrip_with. cbn [Py.span].
  change (Ascii.eqb "0" "0") with true. cbn iota.
  destruct (Py.span (Ascii.eqb "0") (NilEmpty.string_of_uint u)); reflexivity.
Qed.

Lemma string_of_unorm u :
  NilZero.string_of_uint (Decimal.unorm u) = canonical (NilEmpty.string_of_uint u).
Proof.
  unfold canonical. rewrite <- string_of_nzhead. unfold Decimal.unorm.
  destruct (Decimal.nzhead u); reflexivity.
Qed.

(** [str(int(d))] for a numeral [d]: [d] without its leading zeros. *)
Lemma str_of_int_digits d :
  all_digits d ->
  Py.str_of_int (Py.digits_value 0 d) = canonical d.
Proof.
  intros H. destruct (uint_of_digits d H) as [u Hu].
  rewrite (digits_value_of_uint d u Hu). unfold Py.str_of_int.
  change (Z.of_uint u) with (Z.of_int (Decimal.Pos u)). rewrite DecimalZ.to_of.
  cbn [Decimal.norm NilZero.string_of_int]. rewrite string_of_unorm.
  rewrite (NilEmpty.sus d u Hu). reflexivity.
Qed.

(** ** [parse_name_reference] on a token *)

Lemma digit_not_brace c : Py.is_digit c = true -> Py.mem_char "{}" c = false.
Proof.
  intros H.
  destruct (is_digit_cases c H) as [->|[->|[->|[->|[->|[->|[->|[->|[->| ->]]]]]]]]];
    reflexivity.
Qed.

Lemma digit_not_int_space c : Py.is_digit c = true -> Py.is_int_space c = false.
Proof.
  intros H.
  destruct (is_digit_cases c H) as [->|[->|[->|[->|[->|[->|[->|[->|[->| ->]]]]]]]]];
    reflexivity.
Qed.

Lemma digit_not_comma c : Py.is_digit c = true -> Ascii.eqb c "," = false.
Proof.
  intros H.
  destruct (is_digit_cases c H) as [->|[->|[->|[->|[->|[->|[->|[->|[->| ->]]]]]]]]];
    reflexivity.
Qed.

Lemma rstrip_with_none p s :
  Forall (fun c => p c = false) (list_ascii_of_string s) -> Py.rstrip_with p s = s.
Proof.
  induction s as [|c s IH]; intros H; [reflexivity|].
  inversion H as [|? ? Hc Hs]; subst. rewrite rstrip_with_cons, (IH Hs).
  destruct s; [now rewrite Hc|reflexivity].
Qed.

Lemma rstrip_with_snoc p s x :
  Forall (fun c => p c = false) (list_ascii_of_string s) -> p x = true ->
  Py.rstrip_with p (s ++ String x "") = s.
Proof.
  induction s as [|c s IH]; intros H Hx.
  - rewrite app_empty_l. cbn. now rewrite Hx.
  - inversion H as [|? ? Hc Hs]; subst. rewrite app_String, rstrip_with_cons, (IH Hs Hx).
    destruct s; [now rewrite Hc|reflexivity].
Qed.

Lemma rstrip_with_app_keep p a b :
  Py.rstrip_with p b <> "" -> Py.rstrip_with p (a ++ b) = a ++ Py.rstrip_with p b.
Proof.
  intros Hb. induction a as [|c a IH]; [reflexivity|].
  rewrite !app_String, rstrip_with_cons, IH.
  destruct (a ++ Py.rstrip_with p b) as [|c' r] eqn:E; [|reflexivity].
  destruct a; [rewrite app_empty_l in E; congruence|discriminate E].
Qed.

Lemma split_none sep s :
  Forall (fun c => Ascii.eqb c sep = false) (list_ascii_of_string s) ->
  Py.split sep s = [s].
Proof.
  induction s as [|c s IH]; intros H; [reflexivity|].
  inversion H as [|? ? Hc Hs]; subst. cbn [Py.split]. rewrite Hc, (IH Hs). reflexivity.
Qed.

Lemma split_app sep a b :
  Forall (fun c => Ascii.eqb c sep = false) (list_ascii_of_string a) ->
  Py.split sep (a ++ String sep b) = a :: Py.split sep b.
Proof.
  induction a as [|c a IH]; intros H.
  - rewrite app_empty_l. cbn [Py.split]. now rewrite Ascii.eqb_refl.
  - inversion H as [|? ? Hc Ha]; subst. rewrite app_String. cbn [Py.split].
    rewrite Hc, (IH Ha). reflexivity.
Qed.

Lemma all_digits_impl (q : ascii -> bool) s :
  (forall c, Py.is_digit c = true -> q c = false) ->
  all_digits s -> Forall (fun c => q c = false) (list_ascii_of_string s).
Proof. intros Hq H. eapply Forall_impl; [exact H|]. intros c Hc. apply Hq, Hc. Qed.

Lemma int_body_digits s b :
  all_digits s -> Py.int_body b s = (b || negb (String.eqb s ""))%bool.
Proof.
  revert b. induction s as [|c s IH]; intros b H.
  - cbn. now rewrite orb_false_r.
  - inversion H as [|? ? Hc Hs]; subst. cbn [Py.int_body]. rewrite Hc, (IH _ Hs).
    cbn. now rewrite orb_true_r.
Qed.

Lemma filter_digits s : all_digits s -> Py.filter_chars Py.is_digit s = s.
Proof.
  induction s as [|c s IH]; intros H; [reflexivity|].
  inversion H as [|? ? Hc Hs]; subst. cbn [Py.filter_chars]. now rewrite Hc, (IH Hs).
Qed.

(** [int(d)] on a numeral. *)
Lemma int_digits d :
  d <> "" -> all_digits d -> (String.length d <= 4300)%nat ->
  Py.int d = Some (Py.digits_value 0 d).
Proof.
  intros Hne H Hlen. unfold Py.int.
  assert (Hl : Py.lstrip_with Py.is_int_space d = d).
  { apply lstrip_with_id. destruct d as [|c d]; [exact I|].
    inversion H; subst. now apply digit_not_int_space. }
  rewrite Hl, (rstrip_with_none _ d (all_digits_impl _ d digit_not_int_space H)).
  destruct d as [|c d]; [congruence|].
  assert (Hc : Py.is_digit c = true) by (inversion H; assumption).
  assert (Hsign : match String c d with
                  | String "+" r => (1%Z, r)
                  | String "-" r => ((-1)%Z, r)
                  | _ => (1%Z, String c d)
                  end = (1%Z, String c d)).
  { destruct (is_digit_cases c Hc) as [->|[->|[->|[->|[->|[->|[->|[->|[->| ->]]]]]]]]];
      reflexivity. }
  rewrite Hsign, (int_body_digits _ _ H), (filter_digits _ H). cbn [orb negb String.eqb].
  unfold Py.max_str_digits. apply Nat.leb_le in Hlen as ->.
  rewrite Z.mul_1_l. reflexivity.
Qed.

Lemma strip_braces_token p t :
  p <> "" -> t <> "" -> all_digits p -> all_digits t ->
  Py.strip_chars "{}" (token p t) = p ++ "," ++ t.
Proof.
  intros Hp Ht Dp Dt. unfold Py.strip_chars, token.
  assert (Hl : Py.lstrip_with (Py.mem_char "{}") ("{" ++ p ++ "," ++ t ++ "}")
               = p ++ "," ++ t ++ "}").
  { rewrite app_String, app_empty_l. unfold Py.lstrip_with. cbn [Py.span].
    change (Py.mem_char "{}" "{") with true. cbn iota.
    destruct p as [|c p]; [congruence|]. rewrite app_String. cbn [Py.span].
    rewrite digit_not_brace by (inversion Dp; assumption). reflexivity. }
  rewrite Hl.
  assert (Hr : Py.rstrip_with (Py.mem_char "{}") (t ++ "}") = t).
  { apply rstrip_with_snoc; [|reflexivity].
    apply (all_digits_impl _ t digit_not_brace Dt). }
  rewrite <- (app_assoc' p "," (t ++ "}")).
  rewrite rstrip_with_app_keep; rewrite Hr; [|exact Ht].
  rewrite app_assoc'. reflexivity.
Qed.

(** X22. [parse_name_reference] on a token [{p,t}] of two numerals of
    at most 4300 digits each: the key is made of the two numbers as
    [str(int(_))] writes them, without their leading zeros; it is the key
    of the resolver and of the loader for the same token when neither
    numeral has a leading zero. *)
Theorem parse_name_reference_token (p t : string) :
  p <> "" -> t <> "" -> all_digits p -> all_digits t ->
  (String.length p <= 4300)%nat -> (String.length t <= 4300)%nat ->
  parse_name_reference (Some (token p t)) = Some (canonical p ++ "_" ++ canonical t) /\
  (canonical p = p -> canonical t = t ->
   parse_name_reference (Some (token p t)) = Some (placeholder_key p t)).
Proof.
  intros Hp Ht Dp Dt Lp Lt.
  assert (E : parse_name_reference (Some (token p t))
              = Some (canonical p ++ "_" ++ canonical t)).
  { unfold parse_name_reference.
    assert (Htr : truthy (Some (token p t)) = Some (token p t)).
    { unfold token. rewrite app_String. reflexivity. }
    rewrite Htr, (strip_braces_token p t Hp Ht Dp Dt).
    change (p ++ "," ++ t) with (p ++ String "," t).
    rewrite (split_app "," p t (all_digits_impl _ p digit_not_comma Dp)).
    rewrite (split_none "," t (all_digits_impl _ t digit_not_comma Dt)).
    rewrite (int_digits p Hp Dp Lp), (int_digits t Ht Dt Lt).
    rewrite (str_of_int_digits p Dp), (str_of_int_digits t Dt). reflexivity. }
  split; [exact E|]. intros Cp Ct. rewrite E, Cp, Ct. reflexivity.
Qed.

Lemma parse_name_reference_token_witness :
  parse_name_reference (Some (token "020201" "401")) = Some "20201_401" /\
  parse_name_reference (Some (token "20201" "401")) = Some (placeholder_key "20201" "401").
Proof.
  split.
  - apply (parse_name_reference_token "020201" "401");
      [discriminate|discriminate|repeat constructor|repeat constructor
      |cbn; lia|cbn; lia].
  - apply (parse_name_reference_token "20201" "401");
      [discriminate|discriminate|repeat constructor|repeat constructor
      |cbn; lia|cbn; lia|reflexivity|reflexivity].
Defined.
